(** * Home Assistant Companion: the web front end, embedded and verified

    The development follows the scripts of the desktop application's web
    view:
    - [i18n.js]: the translation tables, [t] and [setLanguage];
    - [main.js], in the version that brings up the dashboard in an [iframe]:
      [loadDashboard], [showSetupScreen], [hideSetupScreen], [handleSetup]
      and [initApp];
    - [settings.js], in the version whose [closeSettings] asks the backend
      to load the dashboard: [openSettings], [closeSettings], [saveSettings],
      [populateSensorList] and [togglePassword].

    The backend behind [window.__TAURI__.core.invoke] and the markup of the
    page are no part of these scripts: the commands of the backend are
    answered by the environment, and the page is any finite map from ids to
    elements.

    JavaScript strings are modelled by [string]: the bytes of their UTF-8
    encoding, which for the ASCII texts handled here (URLs, tokens, numbers,
    element ids) are exactly their code units. *)

From Stdlib Require Import ZArith Ascii String List Lia.
From stdpp Require Import base tactics option list strings gmap pretty.

Local Open Scope string_scope.
Local Open Scope Z_scope.

(** ** Strings the way the scripts use them *)

Module Js.

(** [!s] is true for the empty string only ([null] and [undefined], equally
    falsy, are merged into the empty string throughout). *)
Definition truthy (s : string) : bool :=
  match s with
  | EmptyString => false
  | String _ _ => true
  end.

(** [a || b] on strings. *)
Definition or_else (a b : string) : string := if truthy a then a else b.

Definition is_slash (c : ascii) : bool := Ascii.eqb c "/".

(** The pattern [\/+$] tried at the first character of [s]: one or more
    slashes, then the end of the input. *)
Fixpoint slashes_to_end (s : string) : bool :=
  match s with
  | EmptyString => false
  | String c EmptyString => is_slash c
  | String c r => is_slash c && slashes_to_end r
  end.

(** [s.replace(/\/+$/, "")]: the pattern is tried at every index from the
    left, and the first match, which reaches the end of the input, is
    replaced by the empty string.  Without a match [s] is returned. *)
Fixpoint replace_trailing_slashes (s : string) : string :=
  if slashes_to_end s then ""
  else match s with
       | EmptyString => ""
       | String c r => String c (replace_trailing_slashes r)
       end.

(** White space of [String.prototype.trim] and of [parseInt]: the
    WhiteSpace and LineTerminator code points, as UTF-8 byte sequences. *)
Definition byte (n : N) : ascii := ascii_of_N n.
Definition bytes (l : list N) : string := string_of_list_ascii (map byte l).

Definition white_space : list string :=
  map bytes
    [ [9]; [10]; [11]; [12]; [13]; [32];           (* TAB LF VT FF CR SP *)
      [194; 160];                                   (* U+00A0 *)
      [225; 154; 128];                              (* U+1680 *)
      [226; 128; 128]; [226; 128; 129]; [226; 128; 130]; [226; 128; 131];
      [226; 128; 132]; [226; 128; 133]; [226; 128; 134]; [226; 128; 135];
      [226; 128; 136]; [226; 128; 137]; [226; 128; 138]; (* U+2000..U+200A *)
      [226; 128; 168]; [226; 128; 169];             (* U+2028 U+2029 *)
      [226; 128; 175];                              (* U+202F *)
      [226; 129; 159];                              (* U+205F *)
      [227; 128; 128];                              (* U+3000 *)
      [239; 187; 191] ]%N.                          (* U+FEFF *)

(** [strip_prefix p s] is the rest of [s] after its prefix [p]. *)
Fixpoint strip_prefix (p s : string) : option string :=
  match p, s with
  | EmptyString, _ => Some s
  | String a p', String b s' => if Ascii.eqb a b then strip_prefix p' s' else None
  | String _ _, EmptyString => None
  end.

Fixpoint first_stripped (ps : list string) (s : string) : option string :=
  match ps with
  | [] => None
  | p :: ps' =>
      match strip_prefix p s with
      | Some r => Some r
      | None => first_stripped ps' s
      end
  end.

(** Drop leading occurrences of the sequences [ps]; [fuel] bounds the
    number of sequences dropped and is given as the length of the string. *)
Fixpoint drop_leading (ps : list string) (fuel : nat) (s : string) : string :=
  match fuel with
  | O => s
  | S fuel' =>
      match first_stripped ps s with
      | Some r => drop_leading ps fuel' r
      | None => s
      end
  end.

Definition reverse (s : string) : string :=
  string_of_list_ascii (rev (list_ascii_of_string s)).

Definition trimStart (s : string) : string :=
  drop_leading white_space (String.length s) s.

Definition trimEnd (s : string) : string :=
  reverse (drop_leading (map reverse white_space) (String.length s) (reverse s)).

(** [s.trim()] *)
Definition trim (s : string) : string := trimEnd (trimStart s).

(** [s.substring(0, n)] *)
Fixpoint substring0 (n : nat) (s : string) : string :=
  match n, s with
  | S n', String c r => String c (substring0 n' r)
  | _, _ => ""
  end.

(** *** Numbers

    The numbers [parseInt] returns: an integer that a double holds, kept as
    that integer, or [NaN], or an infinity.  The two zeros are not
    distinguished. *)
Inductive number : Type :=
| NaN
| Num (z : Z)
| PlusInfinity
| MinusInfinity.

(** The double nearest to the integer [n]: below 2^53 the integer itself;
    from there on the 53 leading bits of its magnitude, rounded to nearest
    with ties going to the even significand; and an infinity when the
    rounded magnitude reaches 2^1024. *)
Definition to_double (n : Z) : number :=
  let m := Z.abs n in
  if m <? 2 ^ 53 then Num n
  else
    let e := Z.log2 m - 52 in
    let q := Z.shiftr m e in
    let r := m - Z.shiftl q e in
    let half := Z.shiftl 1 (e - 1) in
    let q' := if r <? half then q
              else if half <? r then q + 1
              else if Z.even q then q else q + 1 in
    let v := Z.shiftl q' e in
    if 2 ^ 1024 <=? v then (if n <? 0 then MinusInfinity else PlusInfinity)
    else Num (Z.sgn n * v).

(** *** [parseInt(s)] without a radix *)
Definition digit_value (radix : Z) (c : ascii) : option Z :=
  let n := Z.of_N (N_of_ascii c) in
  let v := if (48 <=? n) && (n <=? 57) then Some (n - 48)
           else if (97 <=? n) && (n <=? 122) then Some (n - 87)
           else if (65 <=? n) && (n <=? 90) then Some (n - 55)
           else None in
  match v with
  | Some d => if d <? radix then Some d else None
  | None => None
  end.

(** The value of the longest prefix of radix digits, [acc] being the value
    read so far ([None] before the first digit). *)
Fixpoint leading_digits (radix : Z) (s : string) (acc : option Z) : option Z :=
  match s with
  | EmptyString => acc
  | String c r =>
      match digit_value radix c with
      | Some d => leading_digits radix r (Some (radix * default 0 acc + d))
      | None => acc
      end
  end.

(** The integer [parseInt] reads: white space is skipped, then a sign, then
    the prefix [0x] or [0X] of a hexadecimal number, then the digits up to
    the first character that is none.  [None] when no digit is there. *)
Definition integer_read (input : string) : option Z :=
  let s := trimStart input in
  let '(sign, s) :=
    match strip_prefix "-" s, strip_prefix "+" s with
    | Some r, _ => (-1, r)
    | None, Some r => (1, r)
    | None, None => (1, s)
    end in
  let '(radix, s) :=
    match strip_prefix "0x" s, strip_prefix "0X" s with
    | Some r, _ => (16, r)
    | None, Some r => (16, r)
    | None, None => (10, s)
    end in
  match leading_digits radix s None with
  | Some n => Some (sign * n)
  | None => None
  end.

(** [parseInt(input)]: [NaN] where no integer is read, else the integer read
    as a double.  The integer is rounded as it is written; for a decimal
    text of more than twenty significant digits ECMAScript also allows an
    implementation to round the text with the digits after the twentieth
    replaced by zeros. *)
Definition parseInt (input : string) : number :=
  match integer_read input with
  | Some n => to_double n
  | None => NaN
  end.

(** [n || d] on numbers: [NaN] and zero are falsy. *)
Definition double_or (n d : number) : number :=
  match n with
  | NaN => d
  | Num z => if z =? 0 then d else n
  | _ => n
  end.

(** [n || d] where [n] is an integer of the backend's settings, or is
    missing: zero and a missing value are falsy. *)
Definition number_or (n : option Z) (d : Z) : Z :=
  match n with
  | Some v => if v =? 0 then d else v
  | None => d
  end.

(** *** [JSON.stringify] on an object whose properties are strings *)
Definition hex_digit (n : N) : ascii :=
  if (n <? 10)%N then ascii_of_N (48 + n) else ascii_of_N (87 + n).

Definition backslash : ascii := ascii_of_N 92.
Definition escape (s : string) : string := String backslash s.

Definition quote_char (c : ascii) : string :=
  let n := N_of_ascii c in
  if (n =? 8)%N then escape "b"
  else if (n =? 9)%N then escape "t"
  else if (n =? 10)%N then escape "n"
  else if (n =? 12)%N then escape "f"
  else if (n =? 13)%N then escape "r"
  else if (n =? 34)%N then escape (String c "")
  else if (n =? 92)%N then escape (String c "")
  else if (n <? 32)%N then
    escape ("u00" ++ String (hex_digit (n / 16)) (String (hex_digit (n mod 16)) ""))
  else String c "".

Fixpoint quote_chars (s : string) : string :=
  match s with
  | EmptyString => ""
  | String c r => quote_char c ++ quote_chars r
  end.

Definition dquote : string := String (ascii_of_N 34) "".

(** QuoteJSONString *)
Definition quote (s : string) : string := dquote ++ quote_chars s ++ dquote.

Definition member (kv : string * string) : string :=
  quote (fst kv) ++ ":" ++ quote (snd kv).

Fixpoint members (kvs : list (string * string)) : string :=
  match kvs with
  | [] => ""
  | [kv] => member kv
  | kv :: rest => member kv ++ "," ++ members rest
  end.

Definition JSON_stringify (obj : list (string * string)) : string :=
  "{" ++ members obj ++ "}".

End Js.


(** ** The page, the browser state and the backend's data *)

(** What a script can catch: a [TypeError] of the engine (a property of
    [null]), a [DOMException] of the browser (storage refused), or the value a
    backend command was rejected with. *)
Inductive exn : Type :=
| TypeError (message : string)
| DOMException (name message : string)
| Rejection (reason : string).

(** [err.toString()], also the text of [err] in a string concatenation. *)
Definition exn_to_string (e : exn) : string :=
  match e with
  | TypeError m => "TypeError: " ++ m
  | DOMException n m => n ++ ": " ++ m
  | Rejection r => r
  end.

(** The record [get_settings] answers with. *)
Record Settings : Type := mkSettings {
  server_url : string;
  access_token : string;
  update_interval : Z;
  language : string;
  autostart : bool;
  device_id : string;
  webhook_id : string;
  is_registered : bool
}.

(** An entry of the list [get_sensor_list] answers with: its [id], [name],
    [enabled] and [updates_at_interval]. *)
Record Sensor : Type := mkSensor {
  sensor_id : string;
  sensor_name : string;
  sensor_enabled : bool;
  sensor_updates_at_interval : bool
}.

(** The argument of [save_settings]. *)
Record SaveArgs : Type := mkSaveArgs {
  serverUrl : string;
  accessToken : string;
  updateInterval : Js.number;
  language' : string;
  autostart' : bool
}.

(** The [load] listener [loadDashboard] installs, a closure over [baseUrl]
    and [token]. *)
Inductive handler : Type :=
| onFirstLoad_closure (baseUrl token : string).

(** A row [populateSensorList] appends to the sensor list.  The check box is
    an object of its own, referred to by its position among the created
    ones: its [change] listener keeps a reference to it. *)
Record row : Type := mkRow {
  row_class : string;
  row_checkbox : nat;
  label_for : string;
  label_text : string;
  badge_class : string;
  badge_text : string
}.

Record checkbox : Type := mkCheckbox {
  cb_id : string;
  cb_checked : bool;
  cb_sensor : string      (* [sensor.id], kept by the [change] listener *)
}.

(** An element of the page that a script reaches by its id, with the
    properties the scripts read or write. *)
Record element : Type := mkElement {
  tagName : string;
  data_i18n : option string;
  type : string;
  value : string;
  checked : bool;
  textContent : string;
  classList : list string;
  src : string;
  onload : option handler;
  children : list row
}.

Definition with_type (v : string) (e : element) : element :=
  mkElement (tagName e) (data_i18n e) v (value e) (checked e) (textContent e)
    (classList e) (src e) (onload e) (children e).
Definition with_value (v : string) (e : element) : element :=
  mkElement (tagName e) (data_i18n e) (type e) v (checked e) (textContent e)
    (classList e) (src e) (onload e) (children e).
Definition with_checked (v : bool) (e : element) : element :=
  mkElement (tagName e) (data_i18n e) (type e) (value e) v (textContent e)
    (classList e) (src e) (onload e) (children e).
Definition with_textContent (v : string) (e : element) : element :=
  mkElement (tagName e) (data_i18n e) (type e) (value e) (checked e) v
    (classList e) (src e) (onload e) (children e).
Definition with_classList (v : list string) (e : element) : element :=
  mkElement (tagName e) (data_i18n e) (type e) (value e) (checked e) (textContent e)
    v (src e) (onload e) (children e).
Definition with_src (v : string) (e : element) : element :=
  mkElement (tagName e) (data_i18n e) (type e) (value e) (checked e) (textContent e)
    (classList e) v (onload e) (children e).
Definition with_onload (v : option handler) (e : element) : element :=
  mkElement (tagName e) (data_i18n e) (type e) (value e) (checked e) (textContent e)
    (classList e) (src e) v (children e).
Definition with_children (v : list row) (e : element) : element :=
  mkElement (tagName e) (data_i18n e) (type e) (value e) (checked e) (textContent e)
    (classList e) (src e) (onload e) v.

Arguments with_type _ _ /.
Arguments with_value _ _ /.
Arguments with_checked _ _ /.
Arguments with_textContent _ _ /.
Arguments with_classList _ _ /.
Arguments with_src _ _ /.
Arguments with_onload _ _ /.
Arguments with_children _ _ /.

(** Sequencing instrumentation of the embedded view. *)
Inductive event : Type :=
| Navigate (url : string)              (* [iframe.src = url] *)
| LoadSignal                           (* the view's [load] event fired *)
| Injected (key text : string)         (* [setItem(key, text)] returned *)
| InjectionFailed (e : exn).           (* the write into the storage threw *)

Inductive level : Type := Warn | Error.

(** A call of [console.warn] or [console.error]: the text and the value
    logged after it. *)
Record entry : Type := mkEntry {
  entry_level : level;
  entry_text : string;
  entry_value : option exn
}.

Record world : Type := mkWorld {
  document : gmap string element;
  created : list checkbox;                     (* check boxes made by [createElement] *)
  localStorage : exn + gmap string string;     (* of the view; [inl e]: reaching it throws [e] *)
  console : list entry;
  alerts : list string;
  currentLanguage : string;                    (* i18n.js *)
  currentSettings : option Settings;           (* settings.js *)
  trace : list event
}.

Definition with_document (v : gmap string element) (w : world) : world :=
  mkWorld v (created w) (localStorage w) (console w) (alerts w)
    (currentLanguage w) (currentSettings w) (trace w).
Definition with_created (v : list checkbox) (w : world) : world :=
  mkWorld (document w) v (localStorage w) (console w) (alerts w)
    (currentLanguage w) (currentSettings w) (trace w).
Definition with_localStorage (v : exn + gmap string string) (w : world) : world :=
  mkWorld (document w) (created w) v (console w) (alerts w)
    (currentLanguage w) (currentSettings w) (trace w).
Definition with_console (v : list entry) (w : world) : world :=
  mkWorld (document w) (created w) (localStorage w) v (alerts w)
    (currentLanguage w) (currentSettings w) (trace w).
Definition with_alerts (v : list string) (w : world) : world :=
  mkWorld (document w) (created w) (localStorage w) (console w) v
    (currentLanguage w) (currentSettings w) (trace w).
Definition with_currentLanguage (v : string) (w : world) : world :=
  mkWorld (document w) (created w) (localStorage w) (console w) (alerts w)
    v (currentSettings w) (trace w).
Definition with_currentSettings (v : option Settings) (w : world) : world :=
  mkWorld (document w) (created w) (localStorage w) (console w) (alerts w)
    (currentLanguage w) v (trace w).
Definition with_trace (v : list event) (w : world) : world :=
  mkWorld (document w) (created w) (localStorage w) (console w) (alerts w)
    (currentLanguage w) (currentSettings w) v.

Arguments with_document _ _ /.
Arguments with_created _ _ /.
Arguments with_localStorage _ _ /.
Arguments with_console _ _ /.
Arguments with_alerts _ _ /.
Arguments with_currentLanguage _ _ /.
Arguments with_currentSettings _ _ /.
Arguments with_trace _ _ /.

(** ** Synchronous code: state and exceptions *)

(** A run of synchronous script code from a world: the value returned or the
    exception thrown, and the world it leaves (a throw keeps the effects made
    before it). *)
Definition M (A : Type) : Type := world → (exn + A) * world.

Definition ret {A} (a : A) : M A := λ w, (inr a, w).
Definition throw {A} (e : exn) : M A := λ w, (inl e, w).
Definition bind {A B} (m : M A) (f : A → M B) : M B := λ w,
  match m w with
  | (inr a, w') => f a w'
  | (inl e, w') => (inl e, w')
  end.

(** [try { m } catch (err) { h err }] *)
Definition try_catch {A} (m : M A) (h : exn → M A) : M A := λ w,
  match m w with
  | (inr a, w') => (inr a, w')
  | (inl e, w') => h e w'
  end.

Definition gets {A} (f : world → A) : M A := λ w, (inr (f w), w).
Definition modify (f : world → world) : M unit := λ w, (inr tt, f w).

Arguments ret {A} a w /.
Arguments throw {A} e w /.
Arguments bind {A B} m f w /.
Arguments try_catch {A} m h w /.
Arguments gets {A} f w /.
Arguments modify f w /.

Declare Scope js_scope.
Delimit Scope js_scope with js.
Notation "x ← m ; k" := (bind m (λ x, k))
  (at level 20, m at level 100, k at level 200, only parsing) : js_scope.
Notation "m ;; k" := (bind m (λ _, k))
  (at level 100, k at level 200, right associativity, only parsing) : js_scope.
Local Open Scope js_scope.

(** *** Properties of elements *)

Definition null_read (prop : string) : exn :=
  TypeError ("Cannot read properties of null (reading '" ++ prop ++ "')").
Definition null_write (prop : string) : exn :=
  TypeError ("Cannot set properties of null (setting '" ++ prop ++ "')").

(** [document.getElementById(id).prop], a [TypeError] when the page has no
    such element. *)
Definition read {A} (id prop : string) (f : element → A) : M A := λ w,
  match document w !! id with
  | Some e => (inr (f e), w)
  | None => (inl (null_read prop), w)
  end.

(** [document.getElementById(id).prop = v] *)
Definition write (id prop : string) (f : element → element) : M unit := λ w,
  match document w !! id with
  | Some e => (inr tt, with_document (<[id := f e]> (document w)) w)
  | None => (inl (null_write prop), w)
  end.

(** [el.classList.add(c)] and [el.classList.remove(c)]; on [null] it is the
    read of [classList] that throws. *)
Definition add_token (c : string) (l : list string) : list string :=
  if bool_decide (c ∈ l) then l else l ++ [c].
Definition remove_token (c : string) (l : list string) : list string :=
  filter (λ x, x ≠ c) l.

Definition classList_add (id c : string) : M unit :=
  l ← read id "classList" classList;
  write id "classList" (with_classList (add_token c l)).
Definition classList_remove (id c : string) : M unit :=
  l ← read id "classList" classList;
  write id "classList" (with_classList (remove_token c l)).

Definition log (lv : level) (text : string) (v : option exn) : M unit :=
  modify (λ w, with_console (console w ++ [mkEntry lv text v]) w).
Definition console_warn (text : string) (e : exn) : M unit := log Warn text (Some e).
Definition console_error (text : string) (e : exn) : M unit := log Error text (Some e).

Definition alert (text : string) : M unit :=
  modify (λ w, with_alerts (alerts w ++ [text]) w).

Definition record (ev : event) : M unit :=
  modify (λ w, with_trace (trace w ++ [ev]) w).

Arguments read {A} id prop f w /.
Arguments write id prop f w /.
Arguments classList_add id c w /.
Arguments classList_remove id c w /.
Arguments log lv text v w /.
Arguments console_warn text e w /.
Arguments console_error text e w /.
Arguments alert text w /.
Arguments record ev w /.

(** [obj[key]] on an object literal, among its own properties.  The names
    an object literal inherits from [Object.prototype] ([constructor],
    [toString] and the like), under which JavaScript finds a function, are
    not modelled: here they are looked up like any other absent name. *)
Fixpoint prop {A} (key : string) (obj : list (string * A)) : option A :=
  match obj with
  | [] => None
  | (k, v) :: rest => if String.eqb k key then Some v else prop key rest
  end.

(** [o || d] where [o] is a string or [undefined]. *)
Definition or_undefined (o : option string) (d : string) : string :=
  match o with
  | Some s => Js.or_else s d
  | None => d
  end.

(** ** i18n.js *)


Definition en : list (string * string) :=
  [ ("setup_title", "Home Assistant Companion");
    ("setup_subtitle", "Connect your desktop to Home Assistant");
    ("server_url", "Server URL");
    ("access_token", "Long-Lived Access Token");
    ("token_help", "Create a token in HA: Profile → Long-Lived Access Tokens");
    ("connect", "Connect");
    ("registering", "Registering device...");
    ("settings", "Settings");
    ("connection", "Connection");
    ("general", "General");
    ("update_interval", "Update Interval (seconds)");
    ("language", "Language");
    ("autostart", "Start at login");
    ("sensors", "Sensors");
    ("device_info", "Device Info");
    ("device_id", "Device ID");
    ("webhook_id", "Webhook ID");
    ("status", "Status");
    ("my_ip_for_proxy", "My IP (for proxy allowlist)");
    ("show_ip", "Show");
    ("save", "Save");
    ("cancel", "Cancel");
    ("registered", "Registered");
    ("not_registered", "Not registered");
    ("updates_at_interval", "Updates at interval");
    ("static_sensor", "Static (startup only)");
    ("cpu_usage", "CPU Usage");
    ("cpu_frequency", "CPU Frequency");
    ("cpu_temperature", "CPU Temperature");
    ("cpu_model", "CPU Model");
    ("memory_usage", "Memory Usage");
    ("memory_used", "Memory Used");
    ("memory_total", "Memory Total");
    ("disk_usage", "Disk Usage");
    ("gpu", "GPU Sensors");
    ("network", "Network Sensors");
    ("battery", "Battery Sensors");
    ("os_version", "OS Version");
    ("hostname", "Hostname");
    ("motherboard", "Motherboard");
    ("bios_version", "BIOS Version");
    ("error_server_url", "Please enter a valid server URL");
    ("error_token", "Please enter an access token");
    ("error_connection", "Could not connect to Home Assistant");
    ("success_saved", "Settings saved successfully");
    ("success_registered", "Device registered successfully") ].

Definition nl : list (string * string) :=
  [ ("setup_title", "Home Assistant Companion");
    ("setup_subtitle", "Verbind je desktop met Home Assistant");
    ("server_url", "Server URL");
    ("access_token", "Langlevend Toegangstoken");
    ("token_help", "Maak een token aan in HA: Profiel → Langlevende Toegangstokens");
    ("connect", "Verbinden");
    ("registering", "Apparaat registreren...");
    ("settings", "Instellingen");
    ("connection", "Verbinding");
    ("general", "Algemeen");
    ("update_interval", "Update Interval (seconden)");
    ("language", "Taal");
    ("autostart", "Starten bij inloggen");
    ("sensors", "Sensoren");
    ("device_info", "Apparaat Info");
    ("device_id", "Apparaat ID");
    ("webhook_id", "Webhook ID");
    ("status", "Status");
    ("my_ip_for_proxy", "Mijn IP (voor proxy allowlist)");
    ("show_ip", "Tonen");
    ("save", "Opslaan");
    ("cancel", "Annuleren");
    ("registered", "Geregistreerd");
    ("not_registered", "Niet geregistreerd");
    ("updates_at_interval", "Update bij interval");
    ("static_sensor", "Statisch (alleen bij start)");
    ("cpu_usage", "CPU Gebruik");
    ("cpu_frequency", "CPU Snelheid");
    ("cpu_temperature", "CPU Temperatuur");
    ("cpu_model", "CPU Model");
    ("memory_usage", "Geheugen Gebruik");
    ("memory_used", "Geheugen Gebruikt");
    ("memory_total", "Geheugen Totaal");
    ("disk_usage", "Schijf Gebruik");
    ("gpu", "GPU Sensoren");
    ("network", "Netwerk Sensoren");
    ("battery", "Batterij Sensoren");
    ("os_version", "OS Versie");
    ("hostname", "Hostnaam");
    ("motherboard", "Moederbord");
    ("bios_version", "BIOS Versie");
    ("error_server_url", "Voer een geldige server URL in");
    ("error_token", "Voer een toegangstoken in");
    ("error_connection", "Kan geen verbinding maken met Home Assistant");
    ("success_saved", "Instellingen opgeslagen");
    ("success_registered", "Apparaat succesvol geregistreerd") ].

Definition translations : list (string * list (string * string)) :=
  [ ("en", en); ("nl", nl) ].

(** [t(key)] under the language [cur]. *)
Definition translate (cur key : string) : string :=
  let lang := default en (prop cur translations) in
  or_undefined (prop key lang) (or_undefined (prop key en) key).

Definition t (key : string) : M string :=
  cur ← gets currentLanguage;
  ret (translate cur key).

(** The body of the [forEach] of [updateUITranslations], for an element
    that carries the [data-i18n] attribute. *)
Definition relabelled_tags : list string :=
  ["LABEL"; "SPAN"; "H1"; "H2"; "H3"; "P"; "BUTTON"; "SMALL"].

Definition relabel (cur : string) (el : element) : element :=
  match data_i18n el with
  | None => el
  | Some key =>
      let translated := translate cur key in
      if bool_decide (tagName el = "INPUT") && negb (bool_decide (type el = "checkbox"))
      then el
      else if bool_decide (tagName el ∈ relabelled_tags)
      then with_textContent translated el
      else el
  end.

(** The elements of the page without an id are no part of [document] here:
    no script reads them, and this function only sets their text. *)
Definition updateUITranslations : M unit :=
  modify (λ w, with_document (relabel (currentLanguage w) <$> document w) w).

Definition setLanguage (lang : string) : M unit :=
  lang ← (match prop lang translations with
          | Some _ => ret lang
          | None =>
              log Warn ("Language '" ++ lang ++ "' not supported, falling back to 'en'") None;;
              ret "en"
          end);
  modify (with_currentLanguage lang);;
  updateUITranslations.

(** ** main.js: the dashboard bootstrap *)

(** [iframe.src = url] *)
Definition set_src (id url : string) : M unit :=
  write id "src" (with_src url);;
  record (Navigate url).

(** [iframe.contentWindow.localStorage.setItem(key, text)] *)
Definition localStorage_setItem (key text : string) : M unit := λ w,
  match localStorage w with
  | inr items => record (Injected key text) (with_localStorage (inr (<[key := text]> items)) w)
  | inl e => (record (InjectionFailed e);; throw e) w
  end.

Definition onFirstLoad (baseUrl token : string) : M unit :=
  write "ha-dashboard" "onload" (with_onload None);;
  try_catch
    (let hassTokens :=
       [ ("hassUrl", baseUrl); ("access_token", token); ("token_type", "Bearer") ] in
     localStorage_setItem "hassTokens" (Js.JSON_stringify hassTokens))
    (λ e, console_warn "Could not inject tokens into iframe localStorage:" e);;
  set_src "ha-dashboard" baseUrl;;
  classList_remove "dashboard-container" "hidden".

Definition loadDashboard (serverUrl token : string) : M unit :=
  if negb (Js.truthy serverUrl) || negb (Js.truthy token) then
    classList_add "dashboard-container" "hidden"
  else
    let baseUrl := Js.replace_trailing_slashes serverUrl in
    set_src "ha-dashboard" "about:blank";;
    write "ha-dashboard" "onload" (with_onload (Some (onFirstLoad_closure baseUrl token))).

Definition showSetupScreen : M unit :=
  classList_remove "setup-screen" "hidden";;
  classList_add "dashboard-container" "hidden".

Definition hideSetupScreen : M unit :=
  classList_add "setup-screen" "hidden".

Arguments set_src id url w /.
Arguments localStorage_setItem key text w /.
Arguments showSetupScreen w /.
Arguments hideSetupScreen w /.

(** *** The browser's side: events *)

(** An exception that leaves a listener is reported on the console. *)
Definition uncaught (r : (exn + unit) * world) : world :=
  match r with
  | (inr _, w) => w
  | (inl e, w) => with_console (console w ++ [mkEntry Error "Uncaught" (Some e)]) w
  end.

Definition call (h : handler) : M unit :=
  match h with
  | onFirstLoad_closure baseUrl token => onFirstLoad baseUrl token
  end.

(** The embedded view finished loading a page: its [load] event fires and
    the listener in [onload], when there is one, runs. *)
Definition fire_load (w : world) : world :=
  let w := with_trace (trace w ++ [LoadSignal]) w in
  match document w !! "ha-dashboard" with
  | Some iframe =>
      match onload iframe with
      | Some h => uncaught (call h w)
      | None => w
      end
  | None => w
  end.

(** ** Asynchronous code: commands of the backend *)

(** [window.__TAURI__.core.invoke(name, args)] *)
Inductive command : Type :=
| get_settings
| save_settings (args : SaveArgs)
| get_sensor_list
| toggle_sensor (sensorId : string) (enabled : bool)
| register_device
| load_dashboard
| get_my_public_ip.

(** What the promise of a command resolves to. *)
Definition reply (c : command) : Type :=
  match c with
  | get_settings => Settings
  | get_sensor_list => list Sensor
  | get_my_public_ip => string
  | _ => unit
  end.

(** A call of an [async] function runs until it returns, throws, or awaits
    a command of the backend.  [Await c k w]: the command [c] was invoked in
    the world [w]; when its promise settles with [r] and the world has become
    [w'], the function goes on as [k r w']. *)
Inductive async (A : Type) : Type :=
| Done (r : exn + A) (w : world)
| Await (c : command) (k : exn + reply c → world → async A) (w : world).

Arguments Done {A} r w.
Arguments Await {A} c k w.

Definition Async (A : Type) : Type := world → async A.

Fixpoint and_then {A B} (p : async A) (f : A → Async B) : async B :=
  match p with
  | Done (inr a) w => f a w
  | Done (inl e) w => Done (inl e) w
  | Await c k w => Await c (λ r w', and_then (k r w') f) w
  end.

Fixpoint or_catch {A} (p : async A) (h : exn → Async A) : async A :=
  match p with
  | Done (inr a) w => Done (inr a) w
  | Done (inl e) w => h e w
  | Await c k w => Await c (λ r w', or_catch (k r w') h) w
  end.

Fixpoint and_finally {A} (p : async A) (f : M unit) : async A :=
  match p with
  | Done r w =>
      match f w with
      | (inr _, w') => Done r w'
      | (inl e, w') => Done (inl e) w'
      end
  | Await c k w => Await c (λ r w', and_finally (k r w') f) w
  end.

Definition abind {A B} (m : Async A) (f : A → Async B) : Async B :=
  λ w, and_then (m w) f.

(** [try { m } catch (err) { h err }] around code that awaits *)
Definition atry {A} (m : Async A) (h : exn → Async A) : Async A :=
  λ w, or_catch (m w) h.

(** [try { m } finally { f }] *)
Definition finally {A} (m : Async A) (f : M unit) : Async A :=
  λ w, and_finally (m w) f.

(** Synchronous statements inside an [async] function. *)
Definition sync {A} (m : M A) : Async A :=
  λ w, let '(r, w') := m w in Done r w'.

(** [await window.__TAURI__.core.invoke(c)] *)
Definition invoke (c : command) : Async (reply c) :=
  λ w, Await c (λ r w', Done r w') w.

Arguments abind {A B} m f w /.
Arguments atry {A} m h w /.
Arguments finally {A} m f w /.
Arguments sync {A} m w /.
Arguments invoke c w /.

Declare Scope async_scope.
Delimit Scope async_scope with async.
Notation "x ← m ; k" := (abind m (λ x, k))
  (at level 20, m at level 100, k at level 200, only parsing) : async_scope.
Notation "m ;; k" := (abind m (λ _, k))
  (at level 100, k at level 200, right associativity, only parsing) : async_scope.

(** *** Running to completion against given answers *)

(** One answer per command: what its promise settles with. *)
Record answers : Type := mkAnswers {
  on_get_settings : exn + Settings;
  on_save_settings : exn + unit;
  on_get_sensor_list : exn + list Sensor;
  on_toggle_sensor : exn + unit;
  on_register_device : exn + unit;
  on_load_dashboard : exn + unit;
  on_get_my_public_ip : exn + string
}.

Definition answer (a : answers) (c : command) : exn + reply c :=
  match c with
  | get_settings => on_get_settings a
  | save_settings _ => on_save_settings a
  | get_sensor_list => on_get_sensor_list a
  | toggle_sensor _ _ => on_toggle_sensor a
  | register_device => on_register_device a
  | load_dashboard => on_load_dashboard a
  | get_my_public_ip => on_get_my_public_ip a
  end.

(** The call runs with nothing else happening in between: every command is
    answered at once from [a]. *)
Fixpoint complete {A} (a : answers) (p : async A) : (exn + A) * world :=
  match p with
  | Done r w => (r, w)
  | Await c k w => complete a (k (answer a c) w)
  end.

(** [p] may come to invoke the command [c], in some course of answers and
    worlds. *)
Inductive invokes {A} : async A → command → Prop :=
| invokes_now c k w : invokes (Await c k w) c
| invokes_later c k w r w' c' : invokes (k r w') c' → invokes (Await c k w) c'.

(** ** main.js: set-up form and start-up *)

Section MainJs.
Local Open Scope async_scope.

(** [handleSetup(e)]; [e.preventDefault()] has no effect on the state
    modelled here. *)
Definition handleSetup : Async unit :=
  serverUrl ← sync (v ← read "setup-server-url" "value" value; ret (Js.trim v))%js;
  token ← sync (v ← read "setup-token" "value" value; ret (Js.trim v))%js;
  sync (classList_add "setup-error" "hidden");;
  sync (classList_remove "setup-loading" "hidden");;
  finally
    (atry
       (lang ← sync (gets currentLanguage);
        invoke (save_settings (mkSaveArgs serverUrl token (Js.Num 60) lang false));;
        invoke register_device;;
        sync hideSetupScreen;;
        sync (loadDashboard serverUrl token))
       (λ err,
          sync (write "setup-error" "textContent" (with_textContent (exn_to_string err));;
                classList_remove "setup-error" "hidden")%js))
    (classList_add "setup-loading" "hidden").

Definition initApp : Async unit :=
  atry
    (settings ← invoke get_settings;
     sync (setLanguage (Js.or_else (language settings) "en"));;
     if negb (Js.truthy (server_url settings)) || negb (Js.truthy (access_token settings))
     then sync showSetupScreen
     else if negb (is_registered settings)
     then
       sync (showSetupScreen;;
             write "setup-server-url" "value" (with_value (server_url settings));;
             write "setup-token" "value" (with_value (access_token settings)))%js
     else sync (loadDashboard (server_url settings) (access_token settings)))
    (λ err,
       sync (console_error "Failed to initialize app:" err;;
             showSetupScreen)%js).

End MainJs.

(** ** settings.js *)

(** The tokens of a [className] text. *)
Definition is_space (c : ascii) : bool :=
  let n := N_of_ascii c in
  ((n =? 32) || (n =? 9) || (n =? 10) || (n =? 12) || (n =? 13))%N.

Fixpoint tokens_from (cur : string) (s : string) : list string :=
  let flush := if Js.truthy cur then [Js.reverse cur] else [] in
  match s with
  | EmptyString => flush
  | String c r =>
      if is_space c then flush ++ tokens_from "" r
      else tokens_from (String c cur) r
  end.

(** [el.className = s] seen through [classList] *)
Definition with_className (s : string) (e : element) : element :=
  with_classList (remove_dups (tokens_from "" s)) e.

Section SettingsJs.
Local Open Scope async_scope.

(** One turn of the loop of [populateSensorList]: the row of [sensor]. *)
Definition append_row (sensor : Sensor) : M unit :=
  (checkbox ← gets (λ w, length (created w));
   modify (λ w, with_created
                  (created w ++ [mkCheckbox ("sensor-" ++ sensor_id sensor)
                                   (sensor_enabled sensor) (sensor_id sensor)]) w);;
   translated ← t (sensor_id sensor);
   badge ← (if sensor_updates_at_interval sensor
            then t "updates_at_interval" else t "static_sensor");
   write "sensor-list" "children"
     (λ e, with_children
             (children e ++
                [mkRow "sensor-row" checkbox
                   ("sensor-" ++ sensor_id sensor)
                   (Js.or_else translated (sensor_name sensor))
                   ("sensor-badge " ++
                      (if sensor_updates_at_interval sensor
                       then "badge-dynamic" else "badge-static"))
                   badge]) e))%js.

Fixpoint for_of {A} (l : list A) (body : A → M unit) : M unit :=
  match l with
  | [] => ret tt
  | x :: rest => (body x;; for_of rest body)%js
  end.

Definition populateSensorList : Async unit :=
  atry
    (sensors ← invoke get_sensor_list;
     sync (write "sensor-list" "innerHTML" (with_children []));;
     sync (for_of sensors append_row))
    (λ err, sync (console_error "Failed to load sensor list:" err)).

(** [checkbox.checked] of a created check box. *)
Definition get_checked (checkbox : nat) : M bool := λ w,
  match created w !! checkbox with
  | Some c => (inr (cb_checked c), w)
  | None => (inl (null_read "checked"), w)
  end.

Definition set_checked (checkbox : nat) (v : bool) : M unit := λ w,
  match created w !! checkbox with
  | Some c =>
      (inr tt, with_created (<[checkbox := mkCheckbox (cb_id c) v (cb_sensor c)]> (created w)) w)
  | None => (inl (null_write "checked"), w)
  end.

(** The [change] listener of the check box made for the sensor [sensorId]. *)
Definition on_change (checkbox : nat) (sensorId : string) : Async unit :=
  atry
    (enabled ← sync (get_checked checkbox);
     invoke (toggle_sensor sensorId enabled))
    (λ err,
       sync (console_error "Failed to toggle sensor:" err;;
             c ← get_checked checkbox;
             set_checked checkbox (negb c))%js).

Definition closeSettings : Async unit :=
  sync (classList_add "settings-overlay" "hidden");;
  atry
    (invoke load_dashboard)
    (λ err, sync (console_error "Failed to restore dashboard:" err)).

Definition openSettings : Async unit :=
  atry
    (settings ← invoke get_settings;
     sync (modify (with_currentSettings (Some settings)));;
     sync (write "settings-server-url" "value"
             (with_value (Js.or_else (server_url settings) "")));;
     sync (write "settings-token" "value"
             (with_value (Js.or_else (access_token settings) "")));;
     sync (write "settings-interval" "value"
             (with_value (pretty (Js.number_or (Some (update_interval settings)) 60))));;
     sync (write "settings-language" "value"
             (with_value (Js.or_else (language settings) "en")));;
     sync (write "settings-autostart" "checked" (with_checked (autostart settings)));;
     sync (write "info-device-id" "textContent"
             (with_textContent (Js.or_else (device_id settings) "-")));;
     sync (write "info-webhook-id" "textContent"
             (with_textContent
                (if Js.truthy (webhook_id settings)
                 then Js.substring0 16 (webhook_id settings) ++ "..."
                 else "-")));;
     sync (status ← (if is_registered settings then t "registered" else t "not_registered");
           write "info-status" "textContent" (with_textContent status))%js;;
     sync (write "info-status" "className"
             (with_className
                ("info-value " ++
                   (if is_registered settings then "status-ok" else "status-error"))));;
     sync (write "info-my-ip" "textContent" (with_textContent "-"));;
     populateSensorList;;
     sync (classList_remove "settings-overlay" "hidden"))
    (λ err, sync (console_error "Failed to load settings:" err)).

Definition saveSettings : Async unit :=
  serverUrl ← sync (v ← read "settings-server-url" "value" value; ret (Js.trim v))%js;
  token ← sync (v ← read "settings-token" "value" value; ret (Js.trim v))%js;
  interval ← sync (v ← read "settings-interval" "value" value;
                   ret (Js.double_or (Js.parseInt v) (Js.Num 60)))%js;
  language ← sync (read "settings-language" "value" value);
  autostart ← sync (read "settings-autostart" "checked" checked);
  atry
    (invoke (save_settings (mkSaveArgs serverUrl token interval language autostart));;
     sync (setLanguage language);;
     closeSettings)
    (λ err,
       sync (console_error "Failed to save settings:" err;;
             alert ("Failed to save settings: " ++ exn_to_string err))%js).

Definition togglePassword (inputId : string) : M unit :=
  (ty ← read inputId "type" type;
   write inputId "type"
     (with_type (if bool_decide (ty = "password") then "text" else "password")))%js.

End SettingsJs.

(** ** settings.js, in the version that goes with the [iframe]

    In this version of settings.js the front end brings the dashboard up
    itself: [saveSettings] calls [loadDashboard] when the server URL was
    changed, and [closeSettings] only hides the dialogue.
    [populateSensorList] and [togglePassword] are the same in both
    versions, and so is [openSettings] but for the reset of the address on
    display. *)
Module Iframe.
Section SettingsJs.
Local Open Scope async_scope.

Definition closeSettings : M unit :=
  classList_add "settings-overlay" "hidden".

Definition saveSettings : Async unit :=
  serverUrl ← sync (v ← read "settings-server-url" "value" value; ret (Js.trim v))%js;
  token ← sync (v ← read "settings-token" "value" value; ret (Js.trim v))%js;
  interval ← sync (v ← read "settings-interval" "value" value;
                   ret (Js.double_or (Js.parseInt v) (Js.Num 60)))%js;
  language ← sync (read "settings-language" "value" value);
  autostart ← sync (read "settings-autostart" "checked" checked);
  atry
    (invoke (save_settings (mkSaveArgs serverUrl token interval language autostart));;
     sync (setLanguage language);;
     sync (current ← gets currentSettings;
           match current with
           | Some settings =>
               if bool_decide (serverUrl ≠ server_url settings)
               then loadDashboard serverUrl token
               else ret tt
           | None => ret tt
           end)%js;;
     sync closeSettings)
    (λ err,
       sync (console_error "Failed to save settings:" err;;
             alert ("Failed to save settings: " ++ exn_to_string err))%js).

End SettingsJs.
End Iframe.

(** ** The server URL with its trailing slashes removed *)

(** The statement of the data model, in its own words: every trailing
    slash is removed.  On the characters of the string: drop slashes from
    the back for as long as the last character is one. *)
Fixpoint drop_slashes (l : list ascii) : list ascii :=
  match l with
  | [] => []
  | c :: r => if Js.is_slash c then drop_slashes r else l
  end.

Definition without_trailing_slashes (s : string) : string :=
  string_of_list_ascii (rev (drop_slashes (rev (list_ascii_of_string s)))).

Definition ends_with_slash (s : string) : bool :=
  match rev (list_ascii_of_string s) with
  | c :: _ => Js.is_slash c
  | [] => false
  end.

(** The world [loadDashboard] leaves when both arguments are given: the
    view is sent to the blank page and the listener waits. *)
Definition bootstrapping (serverUrl token : string) (iframe : element) (w : world) : world :=
  with_document
    (<["ha-dashboard" :=
         with_onload (Some (onFirstLoad_closure (Js.replace_trailing_slashes serverUrl) token))
           (with_src "about:blank" iframe)]> (document w))
    (with_trace (trace w ++ [Navigate "about:blank"]) w).

(** The credential object as it is written into the storage. *)
Definition hassTokens_text (baseUrl token : string) : string :=
  Js.JSON_stringify
    [ ("hassUrl", baseUrl); ("access_token", token); ("token_type", "Bearer") ].

(** How the injection step ends in a world: the write returns, or the
    storage refuses and the exception is caught. *)
Definition injection (w : world) (baseUrl token : string) : event :=
  match localStorage w with
  | inr _ => Injected "hassTokens" (hassTokens_text baseUrl token)
  | inl e => InjectionFailed e
  end.

Definition injection_warning (w : world) : list entry :=
  match localStorage w with
  | inr _ => []
  | inl e => [mkEntry Warn "Could not inject tokens into iframe localStorage:" (Some e)]
  end.

Definition after_injection (w : world) (baseUrl token : string) : exn + gmap string string :=
  match localStorage w with
  | inr items => inr (<["hassTokens" := hassTokens_text baseUrl token]> items)
  | inl e => inl e
  end.

(** ** A page to run the scripts on

    The markup of the application is no part of the sources.  This page
    declares the elements the scripts look up, the token inputs being
    password inputs, and serves for the examples. *)
Definition tag (name : string) : element :=
  mkElement name None "" "" false "" [] "" None [].

Definition input (ty : string) : element := with_type ty (tag "INPUT").

Definition hidden (e : element) : element := with_classList ["hidden"] e.

Definition index_html : gmap string element :=
  list_to_map
    [ ("setup-screen", hidden (tag "DIV"));
      ("setup-form", tag "FORM");
      ("setup-server-url", input "url");
      ("setup-token", input "password");
      ("setup-error", hidden (tag "DIV"));
      ("setup-loading", hidden (tag "DIV"));
      ("dashboard-container", hidden (tag "DIV"));
      ("ha-dashboard", tag "IFRAME");
      ("settings-overlay", hidden (tag "DIV"));
      ("settings-server-url", input "url");
      ("settings-token", input "password");
      ("settings-interval", input "number");
      ("settings-language", tag "SELECT");
      ("settings-autostart", input "checkbox");
      ("info-device-id", tag "SPAN");
      ("info-webhook-id", tag "SPAN");
      ("info-status", tag "SPAN");
      ("info-my-ip", tag "SPAN");
      ("sensor-list", tag "DIV") ].

(** The application as it starts, with the storage of the view open. *)
Definition fresh : world :=
  mkWorld index_html [] (inr ∅) [] [] "en" None [].

(** The same with a view whose storage refuses access. *)
Definition fresh_blocked : world :=
  with_localStorage
    (inl (DOMException "SecurityError" "The operation is insecure.")) fresh.

(** ** The dashboard bootstrap, step by step *)

Inductive action : Type :=
| Bootstrap (serverUrl token : string)   (* a call of [loadDashboard] *)
| LoadFires.                             (* the view's [load] event *)

Definition act (w : world) (a : action) : world :=
  match a with
  | Bootstrap serverUrl token => snd (loadDashboard serverUrl token w)
  | LoadFires => fire_load w
  end.

Definition run (w : world) (l : list action) : world := fold_left act l w.

(** The events recorded between two worlds of a run. *)
Definition events_since (w w' : world) : list event :=
  drop (length (trace w)) (trace w').

Definition injection_outcome (ev : event) : Prop :=
  match ev with
  | Injected _ _ | InjectionFailed _ => True
  | _ => False
  end.

(** What one action adds to the trace. *)
Definition block (b : list event) : Prop :=
  b = [] ∨ b = [Navigate "about:blank"] ∨ b = [LoadSignal] ∨
  ∃ o url, injection_outcome o ∧ b = [LoadSignal; o; Navigate url].

Inductive sequenced : list event → Prop :=
| sequenced_nil : sequenced []
| sequenced_app tr b : sequenced tr → block b → sequenced (tr ++ b).

(** The listener waiting on the view, if any. *)
Definition listener (w : world) : option handler :=
  document w !! "ha-dashboard" ≫= onload.

(** [needle] occurs in [hay]. *)
Definition occurs (needle hay : string) : Prop :=
  ∃ a b, hay = a ++ needle ++ b.

(** The ordering as the protocol words it: a navigation to the dashboard
    comes after an injection that returned. *)
Definition navigates_after_successful_injection (evs : list event) : Prop :=
  ∀ i url, evs !! i = Some (Navigate url) → url ≠ "about:blank" →
    ∃ j key text, (j < i)%nat ∧ evs !! j = Some (Injected key text).

(** The credential object as the protocol words it. *)
Definition credential_text (base_url access_token : string) : string :=
  Js.JSON_stringify
    [ ("base_url", base_url); ("access_token", access_token); ("token_type", "Bearer") ].

(** The state of a view that already holds a credential and shows the
    dashboard: the bootstrap is run once. *)
Definition dashboard_shown : world :=
  run fresh [Bootstrap "http://ha.local:8123/" "abc"; LoadFires].


(** [needle] occurs in [hay], decided. *)
Fixpoint contains (needle hay : string) : bool :=
  match Js.strip_prefix needle hay with
  | Some _ => true
  | None =>
      match hay with
      | EmptyString => false
      | String _ r => contains needle r
      end
  end.

(** ** The occasions on which the bootstrap is invoked again *)

(** Modelled from the spec: the backend's side of [load_dashboard], which is
    no part of the sources.  The specification lists [load_dashboard()]
    among the commands of the backend and has the Dashboard Session
    Bootstrap (section 4.4) depend on the Config Store (server URL and
    token) only: the command runs the bootstrap, which in these sources is
    [loadDashboard], on the server URL and the access token that are
    stored. *)
Definition load_dashboard_command (stored : Settings) : M unit :=
  loadDashboard (server_url stored) (access_token stored).

(** The backend at work on the commands a call awaits: [load_dashboard],
    unless [a] has it fail, runs the command above and is answered with its
    outcome; every other command is answered from [a] and leaves the page
    alone. *)
Definition backend (stored : Settings) (a : answers) (c : command) :
    world → (exn + reply c) * world :=
  match c with
  | load_dashboard => λ w,
      match on_load_dashboard a with
      | inr _ => load_dashboard_command stored w
      | inl e => (inl e, w)
      end
  | get_settings => λ w, (on_get_settings a, w)
  | save_settings _ => λ w, (on_save_settings a, w)
  | get_sensor_list => λ w, (on_get_sensor_list a, w)
  | toggle_sensor _ _ => λ w, (on_toggle_sensor a, w)
  | register_device => λ w, (on_register_device a, w)
  | get_my_public_ip => λ w, (on_get_my_public_ip a, w)
  end.

(** A backend that answers from [a] and leaves the page alone. *)
Definition answering_only (a : answers) (c : command) : world → (exn + reply c) * world :=
  λ w, (answer a c, w).

(** The call runs to its end, every command it awaits being served by
    [env] at once. *)
Fixpoint complete_by {A} (env : ∀ c : command, world → (exn + reply c) * world)
    (p : async A) : (exn + A) * world :=
  match p with
  | Done r w => (r, w)
  | Await c k w => let '(r, w') := env c w in complete_by env (k r w')
  end.

(** What invokes the bootstrap again once the application runs: a call of
    [loadDashboard] (and the [load] event that follows), saving the
    settings in the version with the [iframe], and closing or saving the
    settings in the version that asks the backend. *)
Inductive occasion : Type :=
| Direct (a : action)
| IframeSave (a : answers)
| Close (stored : Settings) (a : answers)
| SaveAndClose (stored : Settings) (a : answers).

Definition occur (w : world) (o : occasion) : world :=
  match o with
  | Direct a => act w a
  | IframeSave a => uncaught (complete a (Iframe.saveSettings w))
  | Close stored a => uncaught (complete_by (backend stored a) (closeSettings w))
  | SaveAndClose stored a => uncaught (complete_by (backend stored a) (saveSettings w))
  end.

Definition course (w : world) (l : list occasion) : world := fold_left occur l w.

(** From [w] the bootstrap was started over in [w1], for [baseUrl] and
    [token]: the view was sent to the blank page, its storage left as it
    was, and the listener waits; and the [load] event then runs the
    injection step and sends the view to [baseUrl]. *)
Definition starts_over (w w1 : world) (baseUrl token : string) : Prop :=
  events_since w w1 = [Navigate "about:blank"] ∧
  localStorage w1 = localStorage w ∧
  listener w1 = Some (onFirstLoad_closure baseUrl token) ∧
  events_since w1 (fire_load w1) = [LoadSignal; injection w baseUrl token; Navigate baseUrl] ∧
  localStorage (fire_load w1) = after_injection w baseUrl token ∧
  src <$> document (fire_load w1) !! "ha-dashboard" = Some baseUrl.

(** The trace of [w'] is that of [w] followed by whole blocks. *)
Definition grows (w w' : world) : Prop :=
  ∃ new, trace w' = (trace w ++ new)%list ∧ sequenced new.

(** A run of synchronous code, and a call served by [env], add whole
    blocks to the trace. *)
Definition leads {A} (m : M A) : Prop :=
  ∀ w, grows w (m w).2.

Definition leads_by {A} (env : ∀ c : command, world → (exn + reply c) * world)
    (m : Async A) : Prop :=
  ∀ w, grows w (complete_by env (m w)).2.

(** ** Start-up, seen from outside *)

(** The application starts: [initApp] runs, [get_settings] and whatever
    else it awaits being answered from [a]. *)
Definition start (a : answers) (w : world) : world :=
  uncaught (complete a (initApp w)).

Definition setup_screen_shown (w : world) : Prop :=
  ∃ e, document w !! "setup-screen" = Some e ∧ "hidden" ∉ classList e.

Definition dashboard_hidden (w : world) : Prop :=
  ∃ e, document w !! "dashboard-container" = Some e ∧ "hidden" ∈ classList e.

(** ** The settings dialogue, seen from outside *)

(** The user types [text] into the input [id]. *)
Definition typed (id text : string) (w : world) : world :=
  with_document (alter (with_value text) id (document w)) w.

(** The text has a minus sign in front, after white space. *)
Definition leading_minus (text : string) : bool :=
  match Js.strip_prefix "-" (Js.trimStart text) with
  | Some _ => true
  | None => false
  end.

(** The number is an integer that is at least 1. *)
Definition integer_at_least_one (x : Js.number) : Prop :=
  match x with
  | Js.Num n => 1 ≤ n
  | _ => False
  end.

(** The bound of the data model on what [saveSettings] submits. *)
Definition submits_interval_at_least_one (w : world) : Prop :=
  ∀ args, invokes (saveSettings w) (save_settings args) →
    integer_at_least_one (updateInterval args).

(** Answers of the backend: every command succeeds, [get_settings] with
    [s] and [get_sensor_list] with [sensors]. *)
Definition answering (s : Settings) (sensors : list Sensor) : answers :=
  mkAnswers (inr s) (inr tt) (inr sensors) (inr tt) (inr tt) (inr tt) (inr "203.0.113.7").

(** The settings of a fresh install, and those of a registered device. *)
Definition empty_settings : Settings :=
  mkSettings "" "" 60 "en" false "" "" false.

Definition registered_settings : Settings :=
  mkSettings "http://ha.local:8123/" "ey.abc" 60 "en" false
    "4f1c2a9e" "3b9d5e7c0a1f4d6e8b2c" true.

(** The operations of the settings dialogue.  [openSettings] and
    [saveSettings] run to their end, the commands they await being answered
    from [a]. *)
Inductive operation : Type :=
| OpenSettings (a : answers)
| TogglePassword (inputId : string)
| SaveSettings (a : answers).

Definition perform (w : world) (op : operation) : world :=
  match op with
  | OpenSettings a => uncaught (complete a (openSettings w))
  | TogglePassword inputId => uncaught (togglePassword inputId w)
  | SaveSettings a => uncaught (complete a (saveSettings w))
  end.

Definition session (w : world) (ops : list operation) : world :=
  fold_left perform ops w.

(** What the page shows: the text of an element, the value of an input
    that is not a password input, the labels and badges of the sensor rows. *)
Definition shows (e : element) (text : string) : Prop :=
  textContent e = text ∨
  (type e ≠ "password" ∧ value e = text) ∨
  ∃ r, r ∈ children e ∧ (label_text r = text ∨ badge_text r = text).

Definition displays (w : world) (text : string) : Prop :=
  ∃ id e, document w !! id = Some e ∧ shows e text.

(** What was logged or put into an alert contains [text]. *)
Definition logs (w : world) (text : string) : Prop :=
  (∃ en, en ∈ console w ∧
     (occurs text (entry_text en) ∨
      ∃ e, entry_value en = Some e ∧ occurs text (exn_to_string e))) ∨
  (∃ al, al ∈ alerts w ∧ occurs text al).

(** The invariant of the data model: the token handed out by
    [get_settings] is neither displayed in full nor logged. *)
Definition token_kept_secret (w : world) (ops : list operation) : Prop :=
  ∀ a s, In (OpenSettings a) ops → on_get_settings a = inr s →
    access_token s ≠ "" →
    ¬ displays (session w ops) (access_token s) ∧ ¬ logs (session w ops) (access_token s).

(** Two settings records, two answers, two operations that differ in the
    access token only. *)
Definition with_access_token (tok : string) (s : Settings) : Settings :=
  mkSettings (server_url s) tok (update_interval s) (language s) (autostart s)
    (device_id s) (webhook_id s) (is_registered s).

Definition same_result {A B} (R : A → B → Prop) (r1 : exn + A) (r2 : exn + B) : Prop :=
  match r1, r2 with
  | inl e1, inl e2 => e1 = e2
  | inr a, inr b => R a b
  | _, _ => False
  end.

Definition same_but_token (s1 s2 : Settings) : Prop :=
  with_access_token "" s1 = with_access_token "" s2.

Definition same_answers (a1 a2 : answers) : Prop :=
  same_result same_but_token (on_get_settings a1) (on_get_settings a2) ∧
  on_save_settings a1 = on_save_settings a2 ∧
  on_get_sensor_list a1 = on_get_sensor_list a2 ∧
  on_toggle_sensor a1 = on_toggle_sensor a2 ∧
  on_register_device a1 = on_register_device a2 ∧
  on_load_dashboard a1 = on_load_dashboard a2 ∧
  on_get_my_public_ip a1 = on_get_my_public_ip a2.

Definition same_operation (o1 o2 : operation) : Prop :=
  match o1, o2 with
  | OpenSettings a1, OpenSettings a2 => same_answers a1 a2
  | TogglePassword i1, TogglePassword i2 => i1 = i2
  | SaveSettings a1, SaveSettings a2 => same_answers a1 a2
  | _, _ => False
  end.

(** The world with the places that hold the token blanked: the value of
    the token field and the settings kept in [currentSettings]. *)
Definition blank (id : string) (e : element) : element :=
  if decide ("settings-token" = id) then with_value "" e else e.

Definition without_token (w : world) : world :=
  with_currentSettings None
    (with_document (alter (with_value "") "settings-token" (document w)) w).

(** The token field is a password input. *)
Definition token_masked (w : world) : Prop :=
  ∀ e, document w !! "settings-token" = Some e → type e = "password".

(** Two runs of synchronous code from worlds that differ in the token only
    end the same way, up to a relation [R] on the values returned, in
    worlds that differ in the token only. *)
Definition secure {A B} (R : A → B → Prop) (m1 : M A) (m2 : M B) : Prop :=
  ∀ w1 w2, without_token w1 = without_token w2 →
    same_result R (m1 w1).1 (m2 w2).1 ∧
    without_token (m1 w1).2 = without_token (m2 w2).2.

(** The same for a function that awaits commands, answered from [a1] in
    one run and from [a2] in the other. *)
Definition secure_async {A B} (a1 a2 : answers) (R : A → B → Prop)
    (m1 : Async A) (m2 : Async B) : Prop :=
  secure R (λ w, complete a1 (m1 w)) (λ w, complete a2 (m2 w)).

(** The property [F] of the element with the id [k], if the page has it. *)
Definition field {X} (k : string) (F : element → X) (w : world) : option X :=
  F <$> document w !! k.

(** A run of synchronous code, and a call of a function that awaits
    commands whatever the answers, leave the observation [f] of the world as
    it was. *)
Definition keeps {X A} (f : world → X) (m : M A) : Prop :=
  ∀ w, f (m w).2 = f w.

Definition keeps_async {X A} (f : world → X) (m : Async A) : Prop :=
  ∀ a w, f (complete a (m w)).2 = f w.

(** The call that has come to [p] ends, under the answers [a], in a world
    where the observation [f] is [x]. *)
Definition ends_with {X A} (f : world → X) (a : answers) (x : X) (p : async A) : Prop :=
  f (complete a p).2 = x.

(** [togglePassword] is called on the token field. *)
Definition toggles_token (op : operation) : bool :=
  match op with
  | TogglePassword inputId => bool_decide (inputId = "settings-token")
  | _ => false
  end.

(** The number of such calls in a session. *)
Fixpoint toggles (ops : list operation) : nat :=
  match ops with
  | [] => 0
  | op :: ops' => (if toggles_token op then 1 else 0) + toggles ops'
  end.

Definition opens (op : operation) : bool :=
  match op with
  | OpenSettings _ => true
  | _ => false
  end.

(** The dialogue has its URL field and its token field, the latter a
    password input. *)
Definition token_field_masked (w : world) : Prop :=
  is_Some (document w !! "settings-server-url") ∧
  field "settings-token" type w = Some "password".

(** ** The sensor list while commands are under way *)

(** A command that was invoked and is not yet answered, with the rest of
    the function that awaits it. *)
Record waiting : Type := mkWaiting {
  waiting_command : command;
  waiting_rest : exn + reply waiting_command → world → async unit
}.

(** The front end, the commands under way and the enablement of the
    sensors as the backend keeps it. *)
Record app : Type := mkApp {
  ui : world;
  under_way : list waiting;
  persisted : gmap string bool
}.

(** Modelled from the spec: the backend's side of [toggle_sensor], which is
    no part of the sources.  A toggle that succeeds persists the enablement
    of the sensor at once; one that fails persists nothing. *)
Definition persist (c : command) (stored : gmap string bool) : gmap string bool :=
  match c with
  | toggle_sensor sensorId enabled => <[sensorId := enabled]> stored
  | _ => stored
  end.

(** A listener ran up to [p]: it is over, or it awaits a command. *)
Definition carry_on (p : async unit) (s : app) : app :=
  match p with
  | Done r w => mkApp (uncaught (r, w)) (under_way s) (persisted s)
  | Await c k w => mkApp w (under_way s ++ [mkWaiting c k]) (persisted s)
  end.

(** The rows of the sensor list. *)
Definition rows (w : world) : list row :=
  match document w !! "sensor-list" with
  | Some l => children l
  | None => []
  end.

(** The user clicks a check box of the list: the browser flips its checked
    state and its [change] listener runs. *)
Definition click (checkbox : nat) (s : app) : app :=
  match created (ui s) !! checkbox with
  | Some c =>
      if bool_decide (checkbox ∈ row_checkbox <$> rows (ui s)) then
        let w := with_created
                   (<[checkbox := mkCheckbox (cb_id c) (negb (cb_checked c)) (cb_sensor c)]>
                      (created (ui s))) (ui s) in
        carry_on (on_change checkbox (cb_sensor c) w) s
      else s
  | None => s
  end.

(** The backend answers the [i]-th command under way, from [a]; the
    function that awaits it goes on. *)
Definition settle (i : nat) (a : answers) (s : app) : app :=
  match under_way s !! i with
  | Some (mkWaiting c k) =>
      let stored :=
        match answer a c with
        | inr _ => persist c (persisted s)
        | inl _ => persisted s
        end in
      carry_on (k (answer a c) (ui s)) (mkApp (ui s) (delete i (under_way s)) stored)
  | None => s
  end.

Inductive move : Type :=
| Click (checkbox : nat)
| Settle (i : nat) (a : answers).

Definition play (s : app) (m : move) : app :=
  match m with
  | Click checkbox => click checkbox s
  | Settle i a => settle i a s
  end.

Definition plays (s : app) (ms : list move) : app := fold_left play ms s.

(** The enablement on display: per row, the sensor and the checked state
    of its check box. *)
Definition displayed (w : world) : list (string * bool) :=
  omap (λ r, (λ c, (cb_sensor c, cb_checked c)) <$> created w !! row_checkbox r) (rows w).

Definition in_sync (s : app) : Prop :=
  ∀ sensorId enabled,
    (sensorId, enabled) ∈ displayed (ui s) → persisted s !! sensorId = Some enabled.

(** The claim on the sensor list: whatever happened, once no command is
    under way what is on display is what is persisted. *)
Definition in_sync_at_rest (s : app) : Prop :=
  ∀ ms, under_way (plays s ms) = [] → in_sync (plays s ms).

(** Every sensor has one check box among the rows. *)
Definition one_checkbox_per_sensor (w : world) : Prop :=
  ∀ r1 r2 c1 c2,
    r1 ∈ rows w → r2 ∈ rows w →
    created w !! row_checkbox r1 = Some c1 →
    created w !! row_checkbox r2 = Some c2 →
    cb_sensor c1 = cb_sensor c2 → row_checkbox r1 = row_checkbox r2.

(** The check box with its checked state flipped. *)
Definition flipped (c : checkbox) : checkbox :=
  mkCheckbox (cb_id c) (negb (cb_checked c)) (cb_sensor c).

(** What [populateSensorList] makes of a sensor: its check box and its
    row, [n] being the position of the check box among the created ones. *)
Definition checkbox_of (s : Sensor) : checkbox :=
  mkCheckbox ("sensor-" ++ sensor_id s) (sensor_enabled s) (sensor_id s).

Definition row_of (cur : string) (n : nat) (s : Sensor) : row :=
  mkRow "sensor-row" n ("sensor-" ++ sensor_id s)
    (Js.or_else (translate cur (sensor_id s)) (sensor_name s))
    ("sensor-badge " ++
       (if sensor_updates_at_interval s then "badge-dynamic" else "badge-static"))
    (translate cur
       (if sensor_updates_at_interval s then "updates_at_interval" else "static_sensor")).

Fixpoint rows_from (cur : string) (n : nat) (l : list Sensor) : list row :=
  match l with
  | [] => []
  | s :: l' => row_of cur n s :: rows_from cur (S n) l'
  end.

(** The application right after [populateSensorList] ran on the list
    [sensors] of the backend, which persists what it lists. *)
Definition populated (a : answers) (w : world) (sensors : list Sensor) : app :=
  mkApp (complete a (populateSensorList w)).2 []
    (list_to_map ((λ s, (sensor_id s, sensor_enabled s)) <$> sensors)).

(** A change that is answered before anything else happens. *)
Definition turn (s : app) (t : nat * answers) : app :=
  settle 0 (snd t) (click (fst t) s).

Definition turns (s : app) (ts : list (nat * answers)) : app := fold_left turn ts s.

(** Answers of the backend where [toggle_sensor] fails with [reason]. *)
Definition failing_toggle (reason : string) : answers :=
  mkAnswers (inr empty_settings) (inr tt) (inr []) (inl (Rejection reason))
    (inr tt) (inr tt) (inr "").

(** The settings dialogue opened on two sensors, as they are persisted. *)
Definition two_sensors : list Sensor :=
  [ mkSensor "cpu_usage" "CPU Usage" true true;
    mkSensor "os_version" "OS Version" false false ].

Definition panel : app :=
  mkApp (session fresh [OpenSettings (answering registered_settings two_sensors)])
    [] (list_to_map [("cpu_usage", true); ("os_version", false)]).

(** ** Further definitions for the properties beyond the data model *)

(** The names every object inherits from [Object.prototype].  For these
    [obj[key]] finds the inherited member; for every other key it finds an
    own property or nothing, which is what [prop] computes. *)
Definition inherited : list string :=
  [ "constructor"; "hasOwnProperty"; "isPrototypeOf"; "propertyIsEnumerable";
    "toLocaleString"; "toString"; "valueOf"; "__proto__";
    "__defineGetter__"; "__defineSetter__"; "__lookupGetter__"; "__lookupSetter__" ].

(** The languages [translations] has a table for. *)
Definition supported (lang : string) : bool :=
  bool_decide (lang ∈ translations.*1).

(** The first character of a positive number written in decimal is one of
    the digits 1 to 9. *)
Definition nonzero_digit (c : ascii) : bool :=
  let n := N_of_ascii c in ((49 <=? n) && (n <=? 57))%N.

(** The text [rest] does not continue the decimal number [z] it follows: it
    does not begin with a digit, nor, after a zero, with the [x] of a
    hexadecimal prefix. *)
Definition ends_number (z : Z) (rest : string) : bool :=
  match rest with
  | EmptyString => true
  | String c _ =>
      match Js.digit_value 10 c with
      | Some _ => false
      | None => negb (z =? 0) || negb (Ascii.eqb c "x" || Ascii.eqb c "X")
      end
  end.

(** An element that carries a [data-i18n] key, and the page with a labelled
    button in the settings dialogue. *)
Definition labelled (name key text : string) : element :=
  mkElement name (Some key) "" "" false text [] "" None [].

Definition fresh_labelled : world :=
  with_document (<["settings-save" := labelled "BUTTON" "save" "Save"]> index_html) fresh.

(** The set-up screen is hidden. *)
Definition setup_screen_hidden (w : world) : Prop :=
  ∃ e, document w !! "setup-screen" = Some e ∧ "hidden" ∈ classList e.

(** The error message [text] is on display in the set-up form. *)
Definition setup_error_shown (w : world) (text : string) : Prop :=
  ∃ e, document w !! "setup-error" = Some e ∧ textContent e = text ∧ "hidden" ∉ classList e.

(** Answers of the backend where [save_settings] fails, and where
    [register_device] fails, with [reason]. *)
Definition failing_save (reason : string) : answers :=
  mkAnswers (inr empty_settings) (inl (Rejection reason)) (inr []) (inr tt)
    (inr tt) (inr tt) (inr "").

Definition failing_registration (reason : string) : answers :=
  mkAnswers (inr empty_settings) (inr tt) (inr []) (inr tt)
    (inl (Rejection reason)) (inr tt) (inr "").

(** The elements with the ids [ids] are in the page. *)
Definition in_page (ids : list string) (w : world) : Prop :=
  Forall (λ id, is_Some (document w !! id)) ids.

(** The elements [openSettings] and [saveSettings] reach by their ids. *)
Definition settings_fields : list string :=
  [ "settings-server-url"; "settings-token"; "settings-interval"; "settings-language";
    "settings-autostart" ].

Definition settings_dialogue : list string :=
  settings_fields ++
  [ "info-device-id"; "info-webhook-id"; "info-status"; "info-my-ip"; "sensor-list";
    "settings-overlay" ].

(** The world [populateSensorList] leaves, [list] being the element of the
    sensor list before. *)
Definition sensor_list_populated (a : answers) (list : element) (w : world) : world :=
  match on_get_sensor_list a with
  | inr sensors =>
      with_document
        (<["sensor-list" :=
             with_children (rows_from (currentLanguage w) (length (created w)) sensors) list]>
           (document w))
        (with_created (created w ++ (checkbox_of <$> sensors)) w)
  | inl e =>
      with_console (console w ++ [mkEntry Error "Failed to load sensor list:" (Some e)]) w
  end.

(** The settings dialogue is on display. *)
Definition settings_shown (w : world) : Prop :=
  ∃ e, document w !! "settings-overlay" = Some e ∧ "hidden" ∉ classList e.

Definition settings_hidden (w : world) : Prop :=
  ∃ e, document w !! "settings-overlay" = Some e ∧ "hidden" ∈ classList e.

(** ** Changes of check boxes that overlap *)

(** What the listener of the check box [checkbox] does once its
    [toggle_sensor] is answered: the rest of [on_change] after the [await]. *)
Definition resume (checkbox : nat) : exn + unit → world → async unit :=
  λ r w,
    or_catch (Done r w)
      (λ err,
         sync (console_error "Failed to toggle sensor:" err;;
               c ← get_checked checkbox;
               set_checked checkbox (negb c))%js).

(** A command for the sensor [sensorId] is under way. *)
Definition busy (s : app) (sensorId : string) : Prop :=
  ∃ wt enabled, wt ∈ under_way s ∧ waiting_command wt = toggle_sensor sensorId enabled.

(** No check box is clicked while a command for its sensor is under way;
    the changes of different sensors may overlap, and the commands may be
    answered in any order. *)
Fixpoint spaced (s : app) (ms : list move) : Prop :=
  match ms with
  | [] => True
  | m :: ms' =>
      match m with
      | Click checkbox =>
          ∀ c, created (ui s) !! checkbox = Some c → ¬ busy s (cb_sensor c)
      | Settle _ _ => True
      end ∧ spaced (play s m) ms'
  end.

(** The listeners that wait belong to the check boxes [pend], one each: the
    box shows what its command asks for, the opposite of what is persisted;
    every other box of the list shows what is persisted. *)
Definition waits_for (s : app) (wt : waiting) (checkbox : nat) : Prop :=
  ∃ c, created (ui s) !! checkbox = Some c ∧
       checkbox ∈ row_checkbox <$> rows (ui s) ∧
       wt = mkWaiting (toggle_sensor (cb_sensor c) (cb_checked c)) (resume checkbox) ∧
       persisted s !! cb_sensor c = Some (negb (cb_checked c)).

Definition settled_but (s : app) (pend : list nat) : Prop :=
  one_checkbox_per_sensor (ui s) ∧
  Forall2 (waits_for s) (under_way s) pend ∧
  NoDup pend ∧
  ∀ r c, r ∈ rows (ui s) → created (ui s) !! row_checkbox r = Some c →
         row_checkbox r ∉ pend → persisted s !! cb_sensor c = Some (cb_checked c).

(** ** main.js, in the version that leaves the dashboard to the backend

    In this version the dashboard is a child webview that the backend
    opens on [load_dashboard]: the front end has no [loadDashboard], and
    [showSetupScreen] only shows the set-up screen. *)
Module ChildWebview.
Section MainJs.
Local Open Scope async_scope.

Definition showSetupScreen : M unit :=
  classList_remove "setup-screen" "hidden".

Definition hideSetupScreen : M unit :=
  classList_add "setup-screen" "hidden".

Definition handleSetup : Async unit :=
  serverUrl ← sync (v ← read "setup-server-url" "value" value; ret (Js.trim v))%js;
  token ← sync (v ← read "setup-token" "value" value; ret (Js.trim v))%js;
  sync (classList_add "setup-error" "hidden");;
  sync (classList_remove "setup-loading" "hidden");;
  finally
    (atry
       (lang ← sync (gets currentLanguage);
        invoke (save_settings (mkSaveArgs serverUrl token (Js.Num 60) lang false));;
        invoke register_device;;
        sync hideSetupScreen;;
        invoke load_dashboard)
       (λ err,
          sync (write "setup-error" "textContent" (with_textContent (exn_to_string err));;
                classList_remove "setup-error" "hidden")%js))
    (classList_add "setup-loading" "hidden").

Definition initApp : Async unit :=
  atry
    (settings ← invoke get_settings;
     sync (setLanguage (Js.or_else (language settings) "en"));;
     if negb (Js.truthy (server_url settings)) || negb (Js.truthy (access_token settings))
     then sync showSetupScreen
     else if negb (is_registered settings)
     then
       sync (showSetupScreen;;
             write "setup-server-url" "value" (with_value (server_url settings));;
             write "setup-token" "value" (with_value (access_token settings)))%js
     else (sync hideSetupScreen;; invoke load_dashboard))
    (λ err,
       sync (console_error "Failed to initialize app:" err;;
             showSetupScreen)%js).

End MainJs.

Arguments showSetupScreen w /.
Arguments hideSetupScreen w /.

End ChildWebview.

(** Answers of the backend where [load_dashboard] fails with [reason]. *)
Definition failing_dashboard (s : Settings) (reason : string) : answers :=
  mkAnswers (inr s) (inr tt) (inr []) (inr tt) (inr tt) (inl (Rejection reason)) (inr "").
(** * Proofs *)

(** ** The string functions on some inputs *)

Example replace_trailing_slashes_examples :
  map Js.replace_trailing_slashes
    ["http://ha.local:8123///"; "http://ha.local:8123"; "https://ha//lovelace/"; "///"; ""] =
  ["http://ha.local:8123"; "http://ha.local:8123"; "https://ha//lovelace"; ""; ""].
Proof. reflexivity. Qed.

Example trim_example :
  Js.trim ("  " ++ Js.bytes [9; 194; 160]%N ++ "ey.abc " ++ Js.bytes [13; 10]%N) = "ey.abc".
Proof. reflexivity. Qed.

Example parseInt_examples :
  map Js.parseInt ["60"; " 15 seconds"; "-5"; "+7"; "0x1F"; "12.7"; "1e3"; "0"; ""; "abc"; "-"] =
  [ Js.Num 60; Js.Num 15; Js.Num (-5); Js.Num 7; Js.Num 31; Js.Num 12; Js.Num 1; Js.Num 0;
    Js.NaN; Js.NaN; Js.NaN ].
Proof. reflexivity. Qed.

Example to_double_examples :
  map Js.to_double
    [ 2 ^ 53 - 1; 2 ^ 53; 2 ^ 53 + 1; 2 ^ 53 + 2; 2 ^ 53 + 3; - (2 ^ 53 + 1); 2 ^ 54 + 2;
      (2 ^ 53 - 1) * 2 ^ 971; 2 ^ 1024 - 2 ^ 970 - 1; 2 ^ 1024 - 2 ^ 970; - 10 ^ 400 ] =
  [ Js.Num (2 ^ 53 - 1); Js.Num (2 ^ 53); Js.Num (2 ^ 53); Js.Num (2 ^ 53 + 2);
    Js.Num (2 ^ 53 + 4); Js.Num (- 2 ^ 53); Js.Num (2 ^ 54);
    Js.Num ((2 ^ 53 - 1) * 2 ^ 971); Js.Num ((2 ^ 53 - 1) * 2 ^ 971); Js.PlusInfinity;
    Js.MinusInfinity ].
Proof. by vm_compute. Qed.

Example parseInt_rounds :
  map Js.parseInt ["9007199254740993"; "-9007199254740993"; "18014398509481985"] =
  [Js.Num 9007199254740992; Js.Num (-9007199254740992); Js.Num 18014398509481984].
Proof. by vm_compute. Qed.

Example double_or_examples :
  map (λ text, Js.double_or (Js.parseInt text) (Js.Num 60)) ["30"; "0"; "-0"; ""; "abc"; "-5"] =
  [Js.Num 30; Js.Num 60; Js.Num 60; Js.Num 60; Js.Num 60; Js.Num (-5)].
Proof. reflexivity. Qed.

Example JSON_stringify_example :
  let q := Js.dquote in
  Js.JSON_stringify [("hassUrl", "http://ha.local:8123"); ("token_type", "Bearer")] =
  "{" ++ q ++ "hassUrl" ++ q ++ ":" ++ q ++ "http://ha.local:8123" ++ q ++ "," ++
         q ++ "token_type" ++ q ++ ":" ++ q ++ "Bearer" ++ q ++ "}".
Proof. reflexivity. Qed.

Example quote_example :
  Js.quote_chars (Js.bytes [97; 34; 92; 10; 1; 98]%N) =
  Js.bytes [97; 92; 34; 92; 92; 92; 110; 92; 117; 48; 48; 48; 49; 98]%N.
Proof. reflexivity. Qed.

Example translate_examples :
  (translate "nl" "registered", translate "fr" "registered",
   translate "nl" "no_such_key", translate "en" "") =
  ("Geregistreerd", "Registered", "no_such_key", "").
Proof. reflexivity. Qed.

Lemma slashes_to_end_forallb s :
  Js.slashes_to_end s =
  Js.truthy s && forallb Js.is_slash (list_ascii_of_string s).
Proof.
  induction s as [|c r IH]; [done|].
  cbn [Js.slashes_to_end list_ascii_of_string forallb Js.truthy andb].
  destruct r as [|c' r']; [by rewrite andb_true_r|].
  rewrite IH. by cbn.
Qed.

Lemma drop_slashes_app a b :
  drop_slashes (a ++ b)%list =
  if forallb Js.is_slash a then drop_slashes b else (drop_slashes a ++ b)%list.
Proof.
  induction a as [|c a IH]; [done|].
  cbn. destruct (Js.is_slash c); [apply IH|done].
Qed.

Lemma forallb_rev {A} (p : A → bool) l : forallb p (rev l) = forallb p l.
Proof.
  induction l as [|x l IH]; [done|].
  cbn. rewrite forallb_app, IH. cbn. rewrite andb_true_r. apply andb_comm.
Qed.

Lemma drop_slashes_all l : forallb Js.is_slash l = true → drop_slashes l = [].
Proof.
  induction l as [|c l IH]; [done|]. cbn.
  destruct (Js.is_slash c); [apply IH|done].
Qed.

(** The replacement by the pattern is the removal of every trailing slash. *)
Lemma replace_trailing_slashes_spec s :
  Js.replace_trailing_slashes s = without_trailing_slashes s.
Proof.
  unfold without_trailing_slashes.
  induction s as [|c r IH]; [done|].
  cbn [Js.replace_trailing_slashes].
  rewrite slashes_to_end_forallb.
  cbn [Js.truthy andb list_ascii_of_string rev forallb].
  rewrite drop_slashes_app, forallb_rev.
  destruct (forallb Js.is_slash (list_ascii_of_string r)) eqn:Hr.
  - cbn [drop_slashes].
    destruct (Js.is_slash c) eqn:Hc; cbn [andb]; [done|].
    rewrite IH, drop_slashes_all by (by rewrite forallb_rev). done.
  - rewrite andb_false_r, IH, rev_app_distr. done.
Qed.

Lemma replace_trailing_slashes_id s :
  ends_with_slash s = false → Js.replace_trailing_slashes s = s.
Proof.
  rewrite replace_trailing_slashes_spec.
  unfold without_trailing_slashes, ends_with_slash. intros H.
  destruct (rev (list_ascii_of_string s)) as [|c l] eqn:E.
  - apply (f_equal (@rev _)) in E. rewrite rev_involutive in E. cbn in E.
    rewrite <- (string_of_list_ascii_of_string s), E. done.
  - cbn [drop_slashes]. rewrite H, <- E, rev_involutive.
    apply string_of_list_ascii_of_string.
Qed.

(** What is left has no trailing slash, and the input is what is left
    followed by slashes only. *)
Lemma replace_trailing_slashes_prefix s :
  ∃ z, s = Js.replace_trailing_slashes s ++ z ∧
       forallb Js.is_slash (list_ascii_of_string z) = true.
Proof.
  induction s as [|c r (z & Hz & Hall)]; [by exists ""|].
  cbn [Js.replace_trailing_slashes].
  destruct (Js.slashes_to_end (String c r)) eqn:E.
  - exists (String c r). split; [done|].
    rewrite slashes_to_end_forallb in E. by apply andb_prop in E as [_ ?].
  - exists z. split; [|done].
    change (String c r = String c (Js.replace_trailing_slashes r ++ z)).
    by rewrite <- Hz.
Qed.

Lemma replace_trailing_slashes_ends s :
  ends_with_slash (Js.replace_trailing_slashes s) = false.
Proof.
  rewrite replace_trailing_slashes_spec.
  unfold without_trailing_slashes, ends_with_slash.
  rewrite list_ascii_of_string_of_list_ascii, rev_involutive.
  induction (rev (list_ascii_of_string s)) as [|c l IH]; [done|].
  cbn. destruct (Js.is_slash c) eqn:E; [apply IH|done].
Qed.

(** ** Running the primitives *)

(** Symbolic execution: unfold the setters and resolve the look-ups of the
    elements known to be in the page. *)
Ltac js_step :=
  first
    [ progress cbn
    | rewrite lookup_insert_eq
    | rewrite lookup_insert_ne by done
    | rewrite insert_insert_eq
    | rewrite lookup_fmap
    | match goal with
      | H : ?m !! ?k = _ |- context [?m !! ?k] => rewrite H
      | H : ?x = _ |- context [match ?x with _ => _ end] => rewrite H
      end ].
Ltac js_run := repeat js_step.

Lemma truthy_true s : Js.truthy s = true ↔ s ≠ "".
Proof. by destruct s. Qed.

Lemma truthy_false s : Js.truthy s = false ↔ s = "".
Proof. by destruct s. Qed.

Lemma read_Some {A} id p (f : element → A) w e :
  document w !! id = Some e → read id p f w = (inr (f e), w).
Proof. intros H. unfold read. by rewrite H. Qed.

Lemma write_Some id p f w e :
  document w !! id = Some e →
  write id p f w = (inr tt, with_document (<[id := f e]> (document w)) w).
Proof. intros H. unfold write. by rewrite H. Qed.

Lemma loadDashboard_bootstraps serverUrl token w iframe :
  serverUrl ≠ "" → token ≠ "" →
  document w !! "ha-dashboard" = Some iframe →
  loadDashboard serverUrl token w = (inr tt, bootstrapping serverUrl token iframe w).
Proof.
  intros Hu%truthy_true Ht%truthy_true Hi.
  unfold loadDashboard, bootstrapping. rewrite Hu, Ht. cbn [negb orb].
  unfold set_src, bind. rewrite (write_Some _ _ _ _ _ Hi).
  cbn. unfold write. cbn. rewrite lookup_insert_eq. cbn.
  by rewrite insert_insert_eq.
Qed.

Lemma onFirstLoad_runs baseUrl token w iframe :
  document w !! "ha-dashboard" = Some iframe →
  ∃ r w',
    onFirstLoad baseUrl token w = (r, w') ∧
    trace w' = (trace w ++ [injection w baseUrl token; Navigate baseUrl])%list ∧
    localStorage w' = after_injection w baseUrl token ∧
    console w' = (console w ++ injection_warning w)%list ∧
    document w' !! "ha-dashboard" = Some (with_src baseUrl (with_onload None iframe)) ∧
    (is_Some (document w !! "dashboard-container") → r = inr tt).
Proof.
  intros Hi.
  unfold onFirstLoad, injection, injection_warning, after_injection, hassTokens_text.
  destruct (localStorage w) as [e|items] eqn:Hs;
    destruct (document w !! "dashboard-container") as [c|] eqn:Hc;
    js_run; eexists _, _; (split; [reflexivity|]); js_run;
    rewrite <- ?app_assoc, ?app_nil_r; repeat split; try done;
    by intros [? ?].
Qed.

(** The [load] event in a world where the listener of [loadDashboard]
    waits. *)
Lemma fire_load_listening baseUrl token w iframe :
  document w !! "ha-dashboard" = Some iframe →
  onload iframe = Some (onFirstLoad_closure baseUrl token) →
  trace (fire_load w) =
    (trace w ++ [LoadSignal; injection w baseUrl token; Navigate baseUrl])%list ∧
  localStorage (fire_load w) = after_injection w baseUrl token ∧
  (∃ tail, console (fire_load w) = (console w ++ injection_warning w ++ tail)%list ∧
           (is_Some (document w !! "dashboard-container") → tail = [])) ∧
  document (fire_load w) !! "ha-dashboard" = Some (with_src baseUrl (with_onload None iframe)).
Proof.
  intros Hi Hl. unfold fire_load. cbn. rewrite Hi, Hl. cbn [call].
  set (w1 := mkWorld _ _ _ _ _ _ _ _).
  destruct (onFirstLoad_runs baseUrl token w1 iframe Hi)
    as (r & w' & -> & Ht & Hs & Hc & Hd & Hr).
  destruct r as [e|[]]; cbn; rewrite ?Ht, ?Hs, ?Hc; subst w1; cbn;
    rewrite <- ?app_assoc; (split; [done|]); (split; [done|]); (split; [|done]).
  - eexists [_]. split; [done|]. intros Hx. by specialize (Hr Hx).
  - exists []. by rewrite app_nil_r.
Qed.

Lemma loadDashboard_trace serverUrl token w :
  trace (snd (loadDashboard serverUrl token w)) = trace w ∨
  (serverUrl ≠ "" ∧ token ≠ "" ∧
   ∃ iframe, document w !! "ha-dashboard" = Some iframe ∧
     snd (loadDashboard serverUrl token w) = bootstrapping serverUrl token iframe w).
Proof.
  destruct (Js.truthy serverUrl) eqn:Hu; [destruct (Js.truthy token) eqn:Ht|].
  - apply truthy_true in Hu, Ht.
    destruct (document w !! "ha-dashboard") as [iframe|] eqn:Hi.
    + right. do 2 (split; [done|]). exists iframe. split; [done|].
      by rewrite (loadDashboard_bootstraps _ _ _ _ Hu Ht Hi).
    + left. apply truthy_true in Hu, Ht.
      unfold loadDashboard. rewrite Hu, Ht. by js_run.
  - left. unfold loadDashboard. rewrite Hu, Ht.
    destruct (document w !! "dashboard-container") eqn:Hc; by js_run.
  - left. unfold loadDashboard. rewrite Hu.
    destruct (document w !! "dashboard-container") eqn:Hc; by js_run.
Qed.

Lemma fire_load_idle w :
  (∀ iframe, document w !! "ha-dashboard" = Some iframe → onload iframe = None) →
  fire_load w = with_trace (trace w ++ [LoadSignal]) w.
Proof.
  intros H. unfold fire_load. cbn.
  destruct (document w !! "ha-dashboard") as [iframe|] eqn:Hi; [|done].
  by rewrite (H _ eq_refl).
Qed.

Lemma events_since_app w w' new :
  trace w' = (trace w ++ new)%list → events_since w w' = new.
Proof. intros H. unfold events_since. by rewrite H, drop_app_length. Qed.

Lemma act_block w a : ∃ b, trace (act w a) = (trace w ++ b)%list ∧ block b.
Proof.
  destruct a as [serverUrl token|]; cbn [act].
  - destruct (loadDashboard_trace serverUrl token w)
      as [->|(_ & _ & iframe & _ & ->)].
    + exists []. split; [by rewrite app_nil_r|by left].
    + eexists. split; [done|]. right. by left.
  - destruct (document w !! "ha-dashboard") as [iframe|] eqn:Hi.
    + destruct (onload iframe) as [[baseUrl token]|] eqn:Hl.
      * destruct (fire_load_listening _ _ _ _ Hi Hl) as (-> & _).
        eexists. split; [done|]. do 3 right. eexists _, _. split; [|done].
        unfold injection. by destruct (localStorage w).
      * rewrite fire_load_idle by (intros ? ?; congruence).
        eexists. split; [done|]. do 2 right. by left.
    + rewrite fire_load_idle by (intros ? ?; congruence).
      eexists. split; [done|]. do 2 right. by left.
Qed.

Lemma run_sequenced w l :
  ∃ new, trace (run w l) = (trace w ++ new)%list ∧ sequenced new.
Proof.
  revert w. induction l as [|a l IH] using rev_ind; intros w.
  - exists []. split; [by rewrite app_nil_r|constructor].
  - unfold run. rewrite fold_left_app. cbn [fold_left]. fold (run w l).
    destruct (IH w) as (new & Hn & Hs).
    destruct (act_block (run w l) a) as (b & -> & Hb).
    exists (new ++ b)%list. rewrite Hn, <- app_assoc. split; [done|].
    by constructor.
Qed.

(** In a sequenced trace a navigation away from the blank page comes right
    after the end of an injection step, that right after a load signal. *)
Lemma sequenced_navigation tr i url :
  sequenced tr →
  tr !! i = Some (Navigate url) → url ≠ "about:blank" →
  ∃ j o, i = S (S j) ∧ tr !! j = Some LoadSignal ∧
         tr !! S j = Some o ∧ injection_outcome o.
Proof.
  intros Hs. revert i. induction Hs as [|tr b Hs IH Hb]; intros i Hi Hu.
  - by rewrite lookup_nil in Hi.
  - destruct (decide (i < length tr)%nat) as [Hlt|Hge].
    + rewrite lookup_app_l in Hi by done.
      destruct (IH _ Hi Hu) as (j & o & -> & H1 & H2 & H3).
      exists j, o. rewrite !lookup_app_l by lia. done.
    + rewrite lookup_app_r in Hi by lia.
      destruct Hb as [->|[->|[->|(o & u & Ho & ->)]]].
      * by rewrite lookup_nil in Hi.
      * destruct (i - length tr)%nat as [|[|]]; cbn in Hi; congruence.
      * destruct (i - length tr)%nat as [|[|]]; cbn in Hi; congruence.
      * destruct (i - length tr)%nat as [|[|[|]]] eqn:E; cbn in Hi;
          [congruence|by injection Hi as ->| |by rewrite ?lookup_nil in Hi].
        exists (length tr), o.
        split; [lia|]. rewrite !lookup_app_r by lia.
        replace (length tr - length tr)%nat with 0%nat by lia.
        replace (S (length tr) - length tr)%nat with 1%nat by lia.
        done.
Qed.

(** ** The dashboard bootstrap: what the claims say *)

Lemma events_since_bootstrapping serverUrl token iframe w :
  events_since w (bootstrapping serverUrl token iframe w) = [Navigate "about:blank"].
Proof. unfold events_since, bootstrapping. cbn. by rewrite drop_app_length. Qed.

Lemma bootstrapping_listens serverUrl token iframe w :
  document (bootstrapping serverUrl token iframe w) !! "ha-dashboard" =
  Some (with_onload (Some (onFirstLoad_closure (Js.replace_trailing_slashes serverUrl) token))
          (with_src "about:blank" iframe)).
Proof. unfold bootstrapping. cbn. by rewrite lookup_insert_eq. Qed.

(** A call of [loadDashboard] followed by the [load] event. *)
Lemma bootstrap_then_load serverUrl token w iframe :
  serverUrl ≠ "" → token ≠ "" →
  document w !! "ha-dashboard" = Some iframe →
  let baseUrl := Js.replace_trailing_slashes serverUrl in
  let w' := run w [Bootstrap serverUrl token; LoadFires] in
  events_since w w' =
    [Navigate "about:blank"; LoadSignal; injection w baseUrl token; Navigate baseUrl] ∧
  localStorage w' = after_injection w baseUrl token ∧
  (∃ tail, console w' = (console w ++ injection_warning w ++ tail)%list ∧
           (is_Some (document w !! "dashboard-container") → tail = [])) ∧
  document w' !! "ha-dashboard" = Some (with_src baseUrl (with_onload None iframe)).
Proof.
  intros Hu Ht Hi baseUrl w'. subst w'. cbn [run fold_left act].
  rewrite (loadDashboard_bootstraps _ _ _ _ Hu Ht Hi). cbn [snd].
  pose proof (bootstrapping_listens serverUrl token iframe w) as Hb.
  destruct (fire_load_listening baseUrl token _ _ Hb eq_refl) as (H1 & H2 & H3 & H4).
  split; [|split; [|split]].
  - unfold events_since. rewrite H1. unfold bootstrapping at 2. cbn.
    rewrite <- app_assoc, drop_app_length. done.
  - by rewrite H2.
  - destruct H3 as (tail & H3 & H3'). exists tail. split; [by rewrite H3|].
    intros Hc. apply H3'. unfold bootstrapping. cbn.
    by rewrite lookup_insert_ne.
  - rewrite H4. cbn. done.
Qed.

(** C4.  When the write into the storage of the view throws, the failure is
    logged by [console.warn] and the view is still sent to the dashboard:
    the trace of the bootstrap ends with the failed injection followed by
    the navigation to the base URL, which the view then holds. *)
Theorem injection_failure_still_navigates serverUrl token w iframe e :
  serverUrl ≠ "" → token ≠ "" →
  document w !! "ha-dashboard" = Some iframe →
  localStorage w = inl e →
  let baseUrl := Js.replace_trailing_slashes serverUrl in
  let w' := run w [Bootstrap serverUrl token; LoadFires] in
  events_since w w' =
    [Navigate "about:blank"; LoadSignal; InjectionFailed e; Navigate baseUrl] ∧
  (∃ tail, console w' =
     (console w ++
      [mkEntry Warn "Could not inject tokens into iframe localStorage:" (Some e)] ++ tail)%list) ∧
  src <$> document w' !! "ha-dashboard" = Some baseUrl.
Proof.
  intros Hu Ht Hi Hs baseUrl w'.
  destruct (bootstrap_then_load _ _ _ _ Hu Ht Hi) as (H1 & _ & (tail & H3 & _) & H4).
  fold w' in H1, H3, H4. unfold injection, injection_warning in *.
  rewrite Hs in *. split; [done|]. split; [by exists tail|].
  by rewrite H4.
Qed.

Lemma injection_failure_still_navigates_witness :
  let w' := run fresh_blocked [Bootstrap "http://ha.local:8123/" "abc"; LoadFires] in
  events_since fresh_blocked w' =
    [ Navigate "about:blank"; LoadSignal;
      InjectionFailed (DOMException "SecurityError" "The operation is insecure.");
      Navigate "http://ha.local:8123" ] ∧
  src <$> document w' !! "ha-dashboard" = Some "http://ha.local:8123".
Proof.
  destruct (injection_failure_still_navigates "http://ha.local:8123/" "abc"
              fresh_blocked (tag "IFRAME")
              (DOMException "SecurityError" "The operation is insecure."))
    as (H1 & _ & H3); [done|done|reflexivity|reflexivity|].
  split; [exact H1|exact H3].
Defined.

(** C7, as the code has it.  With a storage that can be written, the
    bootstrap puts one item into it, under the key [hassTokens]: the JSON
    text of an object with exactly the members [hassUrl] (the base URL),
    [access_token] (the token) and [token_type] (the text Bearer). *)
Theorem credential_written serverUrl token w iframe items :
  serverUrl ≠ "" → token ≠ "" →
  document w !! "ha-dashboard" = Some iframe →
  localStorage w = inr items →
  localStorage (run w [Bootstrap serverUrl token; LoadFires]) =
  inr (<["hassTokens" :=
           Js.JSON_stringify
             [ ("hassUrl", Js.replace_trailing_slashes serverUrl);
               ("access_token", token);
               ("token_type", "Bearer") ]]> items).
Proof.
  intros Hu Ht Hi Hs.
  destruct (bootstrap_then_load _ _ _ _ Hu Ht Hi) as (_ & H2 & _).
  rewrite H2. unfold after_injection. by rewrite Hs.
Qed.

Lemma credential_written_witness :
  localStorage (run fresh [Bootstrap "http://ha.local:8123/" "abc"; LoadFires]) =
  inr (<["hassTokens" :=
           Js.JSON_stringify
             [ ("hassUrl", "http://ha.local:8123");
               ("access_token", "abc");
               ("token_type", "Bearer") ]]> ∅).
Proof.
  apply (credential_written "http://ha.local:8123/" "abc" fresh (tag "IFRAME") ∅);
    [done|done|reflexivity|reflexivity].
Defined.

(** C7, as worded, fails: the object written has no member [base_url];
    the base URL is stored under [hassUrl]. *)
Lemma credential_has_no_base_url :
  ∃ items,
    localStorage (run fresh [Bootstrap "http://ha.local:8123/" "abc"; LoadFires]) = inr items ∧
    items !! "hassTokens" ≠ Some (credential_text "http://ha.local:8123" "abc") ∧
    items !! "hassTokens" = Some (hassTokens_text "http://ha.local:8123" "abc").
Proof.
  exists {["hassTokens" := hassTokens_text "http://ha.local:8123" "abc"]}.
  split; [by vm_compute|].
  rewrite lookup_singleton_eq. split; [|reflexivity].
  vm_compute. discriminate.
Qed.

(** C6.  The base URL of the bootstrap is the server URL with every
    trailing slash removed, and the server URL itself when it does not end
    in a slash; it is this URL that the injection stores and that the view
    is sent to. *)
Theorem base_url_strips_trailing_slashes serverUrl token w iframe :
  serverUrl ≠ "" → token ≠ "" →
  document w !! "ha-dashboard" = Some iframe →
  let baseUrl := without_trailing_slashes serverUrl in
  Js.replace_trailing_slashes serverUrl = baseUrl ∧
  ends_with_slash baseUrl = false ∧
  (ends_with_slash serverUrl = false → baseUrl = serverUrl) ∧
  events_since w (run w [Bootstrap serverUrl token; LoadFires]) =
    [Navigate "about:blank"; LoadSignal; injection w baseUrl token; Navigate baseUrl] ∧
  localStorage (run w [Bootstrap serverUrl token; LoadFires]) =
    after_injection w baseUrl token.
Proof.
  intros Hu Ht Hi baseUrl. subst baseUrl.
  rewrite <- replace_trailing_slashes_spec.
  split; [done|]. split; [apply replace_trailing_slashes_ends|].
  split; [apply replace_trailing_slashes_id|].
  destruct (bootstrap_then_load _ _ _ _ Hu Ht Hi) as (H1 & H2 & _).
  by split.
Qed.

Lemma base_url_strips_trailing_slashes_witness :
  Js.replace_trailing_slashes "http://ha.local:8123///" = "http://ha.local:8123" ∧
  events_since fresh (run fresh [Bootstrap "http://ha.local:8123///" "abc"; LoadFires]) =
    [ Navigate "about:blank"; LoadSignal;
      Injected "hassTokens" (hassTokens_text "http://ha.local:8123" "abc");
      Navigate "http://ha.local:8123" ].
Proof.
  destruct (base_url_strips_trailing_slashes "http://ha.local:8123///" "abc"
              fresh (tag "IFRAME"))
    as (H1 & _ & _ & H4 & _); [done|done|reflexivity|].
  split; [exact H1|exact H4].
Defined.

(** C1, as the code has it.  In every run of bootstrap calls and load
    events, a navigation of the view away from the blank page comes
    immediately after the end of an injection step (the write returned, or it
    threw and the exception was caught), and that step immediately after a
    load signal. *)
Theorem navigation_follows_injection_step w l i url :
  events_since w (run w l) !! i = Some (Navigate url) →
  url ≠ "about:blank" →
  ∃ j o, i = S (S j) ∧
         events_since w (run w l) !! j = Some LoadSignal ∧
         events_since w (run w l) !! S j = Some o ∧
         injection_outcome o.
Proof.
  destruct (run_sequenced w l) as (new & Hn & Hs).
  rewrite (events_since_app _ _ _ Hn).
  by apply sequenced_navigation.
Qed.

Lemma navigation_follows_injection_step_witness :
  ∃ j o, 3%nat = S (S j) ∧
    events_since fresh (run fresh [Bootstrap "http://ha.local:8123/" "abc"; LoadFires]) !! j
      = Some LoadSignal ∧
    events_since fresh (run fresh [Bootstrap "http://ha.local:8123/" "abc"; LoadFires]) !! S j
      = Some o ∧
    injection_outcome o.
Proof.
  apply (navigation_follows_injection_step fresh
           [Bootstrap "http://ha.local:8123/" "abc"; LoadFires] 3 "http://ha.local:8123");
    [by vm_compute|done].
Defined.

(** C1, as worded, fails: when the storage of the view refuses the write,
    the view is sent to the dashboard although no injection returned. *)
Lemma navigation_without_successful_injection :
  ¬ navigates_after_successful_injection
      (events_since fresh_blocked
         (run fresh_blocked [Bootstrap "http://ha.local:8123/" "abc"; LoadFires])).
Proof.
  intros H.
  destruct (H 3%nat "http://ha.local:8123") as (j & key & text & Hj & Hev);
    [by vm_compute|done|].
  vm_compute in Hev.
  destruct j as [|[|[|j]]]; [discriminate..|lia].
Qed.

(** ** The addresses the view is sent to *)

Lemma loadDashboard_listener serverUrl token w :
  (trace (snd (loadDashboard serverUrl token w)) = trace w ∧
   listener (snd (loadDashboard serverUrl token w)) = listener w) ∨
  (trace (snd (loadDashboard serverUrl token w)) = (trace w ++ [Navigate "about:blank"])%list ∧
   listener (snd (loadDashboard serverUrl token w)) =
     Some (onFirstLoad_closure (Js.replace_trailing_slashes serverUrl) token)).
Proof.
  destruct (Js.truthy serverUrl) eqn:Hu; [destruct (Js.truthy token) eqn:Ht|].
  - apply truthy_true in Hu, Ht.
    destruct (document w !! "ha-dashboard") as [iframe|] eqn:Hi.
    + right. rewrite (loadDashboard_bootstraps _ _ _ _ Hu Ht Hi). cbn [snd].
      split; [done|]. unfold listener. by rewrite bootstrapping_listens.
    + left. apply truthy_true in Hu, Ht.
      unfold loadDashboard. rewrite Hu, Ht. by js_run.
  - left. unfold loadDashboard, listener. rewrite Hu, Ht.
    destruct (document w !! "dashboard-container") eqn:Hc; by js_run.
  - left. unfold loadDashboard, listener. rewrite Hu.
    destruct (document w !! "dashboard-container") eqn:Hc; by js_run.
Qed.

Lemma fire_load_listener w :
  listener (fire_load w) = None ∧
  ((listener w = None ∧ trace (fire_load w) = (trace w ++ [LoadSignal])%list) ∨
   (∃ baseUrl token,
      listener w = Some (onFirstLoad_closure baseUrl token) ∧
      trace (fire_load w) =
        (trace w ++ [LoadSignal; injection w baseUrl token; Navigate baseUrl])%list)).
Proof.
  unfold listener at 2 3.
  destruct (document w !! "ha-dashboard") as [iframe|] eqn:Hi; cbn.
  - destruct (onload iframe) as [[baseUrl token]|] eqn:Hl.
    + destruct (fire_load_listening _ _ _ _ Hi Hl) as (H1 & _ & _ & H4).
      split; [unfold listener; by rewrite H4|].
      right. by exists baseUrl, token.
    + rewrite fire_load_idle by (intros ? ?; congruence).
      split; [unfold listener; cbn; by rewrite Hi|]. by left.
  - rewrite fire_load_idle by (intros ? ?; congruence).
    split; [unfold listener; cbn; by rewrite Hi|]. by left.
Qed.

(** Every address the view is sent to in a run is the blank page or a base
    URL in [S], when [S] holds the base URL of the listener that waits at
    the start and of every bootstrap call of the run. *)
Lemma run_navigations (S : string → Prop) l : ∀ w,
  (∀ baseUrl token, listener w = Some (onFirstLoad_closure baseUrl token) → S baseUrl) →
  (∀ serverUrl token, In (Bootstrap serverUrl token) l →
     S (Js.replace_trailing_slashes serverUrl)) →
  ∀ url, In (Navigate url) (events_since w (run w l)) →
         url = "about:blank" ∨ S url.
Proof.
  induction l as [|a l IH]; intros w Hw Hl url Hin.
  - unfold events_since in Hin. cbn in Hin. by rewrite drop_all in Hin.
  - cbn [run fold_left] in Hin. fold (run (act w a) l) in Hin.
    destruct (run_sequenced (act w a) l) as (new & Hn & _).
    assert (∃ b, trace (act w a) = (trace w ++ b)%list ∧
                 (∀ u, In (Navigate u) b → u = "about:blank" ∨ S u) ∧
                 (∀ baseUrl token,
                    listener (act w a) = Some (onFirstLoad_closure baseUrl token) →
                    S baseUrl)) as (b & Hb & Hnav & Hlis).
    { destruct a as [serverUrl token|]; cbn [act].
      - destruct (loadDashboard_listener serverUrl token w) as [[-> ->]|[-> ->]].
        + exists []. split; [by rewrite app_nil_r|]. split; [by intros ? []|done].
        + eexists. split; [done|]. split.
          * intros u [[= <-]|[]]. by left.
          * intros ? ? [= <- <-]. eapply Hl. by left.
      - destruct (fire_load_listener w) as [-> [[_ ->]|(baseUrl & token & Hlw & ->)]].
        + eexists. split; [done|]. split; [|done].
          by intros u [|[]].
        + eexists. split; [done|]. split; [|done].
          intros u [|[Hi|[[= <-]|[]]]]; [done| |right; eauto].
          unfold injection in Hi. by destruct (localStorage w). }
    rewrite (events_since_app w _ (b ++ new)) in Hin
      by (by rewrite Hn, Hb, <- app_assoc).
    apply in_app_or in Hin as [Hin|Hin]; [by apply Hnav|].
    apply (IH (act w a)); [done| |].
    + intros ? ? ?. eapply Hl. by right.
    + by rewrite (events_since_app _ _ new).
Qed.

Lemma append_assoc a b c : (a ++ b) ++ c = a ++ b ++ c.
Proof.
  induction a as [|x a IH]; [done|].
  change (String x ((a ++ b) ++ c) = String x (a ++ b ++ c)). by rewrite IH.
Qed.

Lemma occurs_in_prefix needle s z : occurs needle s → occurs needle (s ++ z).
Proof.
  intros (a & b & ->). exists a, (b ++ z).
  by rewrite !append_assoc.
Qed.

(** C3.  In every run of bootstrap calls and load events, each address
    assigned to the view is the blank page or the base URL of a bootstrap
    call (or of the listener that was waiting when the run began), a URL
    made from the server URL alone; hence a token that occurs neither in
    the server URLs nor in the address of the blank page occurs in no
    address the view is sent to. *)
Theorem token_never_in_view_address w l :
  (∀ url, In (Navigate url) (events_since w (run w l)) →
     url = "about:blank" ∨
     (∃ serverUrl token,
        In (Bootstrap serverUrl token) l ∧ url = Js.replace_trailing_slashes serverUrl) ∨
     (∃ token, listener w = Some (onFirstLoad_closure url token))) ∧
  (∀ secret,
     listener w = None →
     ¬ occurs secret "about:blank" →
     (∀ serverUrl token, In (Bootstrap serverUrl token) l → ¬ occurs secret serverUrl) →
     ∀ url, In (Navigate url) (events_since w (run w l)) → ¬ occurs secret url).
Proof.
  assert (∀ url, In (Navigate url) (events_since w (run w l)) →
     url = "about:blank" ∨
     (∃ serverUrl token,
        In (Bootstrap serverUrl token) l ∧ url = Js.replace_trailing_slashes serverUrl) ∨
     (∃ token, listener w = Some (onFirstLoad_closure url token))) as H.
  { apply (run_navigations
             (λ url, (∃ serverUrl token, In (Bootstrap serverUrl token) l ∧
                        url = Js.replace_trailing_slashes serverUrl) ∨
                     (∃ token, listener w = Some (onFirstLoad_closure url token)))).
    - intros baseUrl token Hw. right. by exists token.
    - intros serverUrl token Hin. left. by exists serverUrl, token. }
  split; [exact H|].
  intros secret Hw Hblank Hurls url Hin Hocc.
  destruct (H url Hin) as [->|[(serverUrl & token & Hb & ->)|(token & Hl)]].
  - done.
  - destruct (replace_trailing_slashes_prefix serverUrl) as (z & Hz & _).
    apply (Hurls _ _ Hb). rewrite Hz. by apply occurs_in_prefix.
  - congruence.
Qed.

Lemma strip_prefix_app p s : Js.strip_prefix p (p ++ s) = Some s.
Proof.
  induction p as [|c p IH]; [done|].
  change (String c p ++ s) with (String c (p ++ s)).
  cbn [Js.strip_prefix]. by rewrite Ascii.eqb_refl.
Qed.

Lemma contains_prefix needle s : contains needle (needle ++ s) = true.
Proof.
  destruct (needle ++ s) eqn:E; cbn [contains]; rewrite <- E, strip_prefix_app; done.
Qed.

Lemma occurs_contains needle hay : occurs needle hay → contains needle hay = true.
Proof.
  intros (a & b & ->). induction a as [|c a IH].
  - change ("" ++ needle ++ b) with (needle ++ b). apply contains_prefix.
  - change (String c a ++ needle ++ b) with (String c (a ++ needle ++ b)).
    cbn [contains]. by destruct (Js.strip_prefix _ _).
Qed.

Lemma token_never_in_view_address_witness :
  ¬ occurs "ey.abc" "http://ha.local:8123".
Proof.
  apply (proj2 (token_never_in_view_address fresh
                  [Bootstrap "http://ha.local:8123/" "ey.abc"; LoadFires]) "ey.abc").
  - reflexivity.
  - intros H%occurs_contains. by vm_compute in H.
  - intros serverUrl token [[= <- <-]|[|[]]]; [|done].
    intros H%occurs_contains. by vm_compute in H.
  - vm_compute. tauto.
Defined.

(** ** Start-up *)

Lemma setLanguage_runs lang w :
  ∃ cur extra,
    setLanguage lang w =
    (inr tt,
     mkWorld (relabel cur <$> document w) (created w) (localStorage w)
       (console w ++ extra) (alerts w) cur (currentSettings w) (trace w)).
Proof.
  unfold setLanguage, updateUITranslations.
  destruct (prop lang translations); js_run.
  - exists lang, []. by rewrite app_nil_r.
  - by eexists "en", [_].
Qed.

Lemma onload_relabel cur e : onload (relabel cur e) = onload e.
Proof. unfold relabel. by repeat case_match. Qed.

Lemma elem_of_add_token c l : c ∈ add_token c l.
Proof. unfold add_token. case_bool_decide; [done|]. apply elem_of_app. right. by left. Qed.

Lemma not_elem_of_remove_token c l : c ∉ remove_token c l.
Proof. unfold remove_token. rewrite list_elem_of_filter. by intros [? _]. Qed.

Lemma listener_relabel cur w :
  (relabel cur <$> document w) !! "ha-dashboard" ≫= onload = listener w.
Proof.
  unfold listener. rewrite lookup_fmap.
  destruct (document w !! "ha-dashboard"); [|done]. cbn. apply onload_relabel.
Qed.

Ltac start_run a s w Ha :=
  unfold start, initApp; cbn -[setLanguage loadDashboard];
  rewrite Ha; cbn -[setLanguage loadDashboard];
  let cur := fresh "cur" in
  let extra := fresh "extra" in
  destruct (setLanguage_runs (Js.or_else (language s) "en") w) as (cur & extra & ->);
  cbn -[setLanguage loadDashboard].


(** Case analysis on the elements the page may lack. *)
Ltac js_cases :=
  repeat (js_run;
          match goal with
          | |- context [document ?w !! ?k] =>
              is_var w;
              lazymatch goal with
              | H : document w !! k = _ |- _ => fail
              | _ => let E := fresh "E" in destruct (document w !! k) eqn:E
              end
          end); js_run.

(** When [initApp] does not reach [loadDashboard] the view is left alone and
    the set-up screen is on display. *)
Lemma start_without_dashboard a s w screen container :
  on_get_settings a = inr s →
  document w !! "setup-screen" = Some screen →
  document w !! "dashboard-container" = Some container →
  Js.truthy (server_url s) && Js.truthy (access_token s) && is_registered s = false →
  setup_screen_shown (start a w) ∧ dashboard_hidden (start a w) ∧
  trace (start a w) = trace w ∧ listener (start a w) = listener w.
Proof.
  intros Ha Hs Hc Hno.
  unfold setup_screen_shown, dashboard_hidden, listener in *.
  start_run a s w Ha.
  destruct (Js.truthy (server_url s)) eqn:E1;
    destruct (Js.truthy (access_token s)) eqn:E2;
    destruct (is_registered s) eqn:E3; try discriminate Hno;
    cbn -[setLanguage loadDashboard]; js_cases.
  all: rewrite ?onload_relabel.
  all: (split; [eexists; split; [done|apply not_elem_of_remove_token]|]).
  all: (split; [eexists; split; [done|apply elem_of_add_token]|]).
  all: done.
Qed.

Lemma start_with_dashboard a s w iframe :
  on_get_settings a = inr s →
  document w !! "ha-dashboard" = Some iframe →
  server_url s ≠ "" → access_token s ≠ "" → is_registered s = true →
  trace (start a w) = (trace w ++ [Navigate "about:blank"])%list ∧
  listener (start a w) =
    Some (onFirstLoad_closure (Js.replace_trailing_slashes (server_url s)) (access_token s)).
Proof.
  intros Ha Hi Hu Ht Hr.
  start_run a s w Ha.
  rewrite (proj2 (truthy_true _) Hu), (proj2 (truthy_true _) Ht), Hr.
  cbn -[setLanguage loadDashboard].
  erewrite (loadDashboard_bootstraps _ _ _ (relabel cur iframe) Hu Ht)
    by (cbn; by rewrite lookup_fmap, Hi).
  cbn -[bootstrapping]. split; [done|].
  unfold listener. by rewrite bootstrapping_listens.
Qed.

(** C5.  On start, with the page in place: when [get_settings] answers with
    an empty server URL or an empty token, [initApp] puts the set-up screen
    on display, hides the dashboard and leaves the embedded view alone; the
    view is sent anywhere only when both are non-empty and the device is
    registered, and in that case the bootstrap is started at once. *)
Theorem start_gates_dashboard a s w screen container iframe :
  on_get_settings a = inr s →
  document w !! "setup-screen" = Some screen →
  document w !! "dashboard-container" = Some container →
  document w !! "ha-dashboard" = Some iframe →
  let w' := start a w in
  (server_url s = "" ∨ access_token s = "" →
     setup_screen_shown w' ∧ dashboard_hidden w' ∧
     events_since w w' = [] ∧ listener w' = listener w) ∧
  (events_since w w' ≠ [] ∨ listener w' ≠ listener w →
     server_url s ≠ "" ∧ access_token s ≠ "" ∧ is_registered s = true) ∧
  (server_url s ≠ "" → access_token s ≠ "" → is_registered s = true →
     events_since w w' = [Navigate "about:blank"] ∧
     listener w' =
       Some (onFirstLoad_closure (Js.replace_trailing_slashes (server_url s))
               (access_token s))).
Proof.
  intros Ha Hs Hc Hi w'. subst w'.
  assert (∀ w', trace w' = trace w → events_since w w' = []) as Hnil.
  { intros w' H. apply events_since_app. by rewrite app_nil_r. }
  split; [|split].
  - intros Hempty.
    destruct (start_without_dashboard a s w screen container Ha Hs Hc)
      as (H1 & H2 & H3 & H4).
    { destruct Hempty as [->%truthy_false| ->%truthy_false]; [done|].
      by rewrite andb_false_r. }
    auto.
  - intros Hnav.
    destruct (Js.truthy (server_url s) && Js.truthy (access_token s) && is_registered s)
      eqn:E.
    + apply andb_prop in E as [[Hu Ht]%andb_prop Hr].
      by rewrite <- !truthy_true.
    + destruct (start_without_dashboard a s w screen container Ha Hs Hc E)
        as (_ & _ & H3 & H4).
      destruct Hnav as [Hnav|Hnav]; [by rewrite Hnil in Hnav|done].
  - intros Hu Ht Hr.
    destruct (start_with_dashboard a s w iframe Ha Hi Hu Ht Hr) as (H1 & H2).
    split; [by apply events_since_app|done].
Qed.

(** ** The commands a function invokes *)

Lemma invokes_Done {A} (r : exn + A) w c : ¬ invokes (Done r w) c.
Proof. intros H. inversion H. Qed.

Lemma invokes_Await {A} c (k : exn + reply c → world → async A) w c' :
  invokes (Await c k w) c' → c' = c ∨ ∃ r w', invokes (k r w') c'.
Proof.
  intros H.
  refine (match H in invokes p c0
                return match p with
                       | Done _ _ => False
                       | Await c k w => c0 = c ∨ ∃ r w', invokes (k r w') c0
                       end
          with
          | invokes_now c k w => or_introl eq_refl
          | invokes_later c k w r w' c' H' => or_intror (ex_intro _ r (ex_intro _ w' H'))
          end).
Qed.

Lemma invokes_and_then {A B} (p : async A) (f : A → Async B) c :
  invokes (and_then p f) c → invokes p c ∨ ∃ a w, invokes (f a w) c.
Proof.
  induction p as [[e|a] w|c0 k IH w]; cbn; intros H.
  - by apply invokes_Done in H.
  - right. by exists a, w.
  - apply invokes_Await in H as [->|(r & w' & H)]; [left; constructor|].
    destruct (IH _ _ H) as [H'|H']; [left; by econstructor|by right].
Qed.

Lemma invokes_or_catch {A} (p : async A) (h : exn → Async A) c :
  invokes (or_catch p h) c → invokes p c ∨ ∃ e w, invokes (h e w) c.
Proof.
  induction p as [[e|a] w|c0 k IH w]; cbn; intros H.
  - right. by exists e, w.
  - by apply invokes_Done in H.
  - apply invokes_Await in H as [->|(r & w' & H)]; [left; constructor|].
    destruct (IH _ _ H) as [H'|H']; [left; by econstructor|by right].
Qed.

Lemma invokes_and_finally {A} (p : async A) (f : M unit) c :
  invokes (and_finally p f) c → invokes p c.
Proof.
  induction p as [r w|c0 k IH w]; cbn; intros H.
  - destruct (f w) as [[e|[]] w']; by apply invokes_Done in H.
  - apply invokes_Await in H as [->|(r & w' & H)]; [constructor|].
    econstructor. by apply IH.
Qed.

Lemma invokes_sync {A} (m : M A) w c : ¬ invokes (sync m w) c.
Proof. cbn. destruct (m w). apply invokes_Done. Qed.

Lemma invokes_invoke c0 w c : invokes (invoke c0 w) c → c = c0.
Proof.
  intros H. apply invokes_Await in H as [->|(r & w' & H)]; [done|].
  by apply invokes_Done in H.
Qed.

(** Splitting the invocations of a function along its statements. *)
Ltac invocations H :=
  repeat first
    [ apply invokes_sync in H; destruct H
    | apply invokes_Done in H; destruct H
    | match type of H with
      | invokes (invoke ?c0 ?w) ?c => apply (invokes_invoke c0 w c) in H
      end
    | apply invokes_and_finally in H
    | let a := fresh "a" in let w := fresh "w" in
      apply invokes_and_then in H as [H|(a & w & H)]
    | let e := fresh "e" in let w := fresh "w" in
      apply invokes_or_catch in H as [H|(e & w & H)]
    | progress cbv beta in H ].

Lemma closeSettings_only_loads w c : invokes (closeSettings w) c → c = load_dashboard.
Proof. unfold closeSettings, abind, atry. intros H. invocations H. done. Qed.

Lemma handleSetup_submits w c :
  invokes (handleSetup w) c →
  c = register_device ∨
  ∃ serverUrl token lang,
    c = save_settings (mkSaveArgs serverUrl token (Js.Num 60) lang false).
Proof.
  unfold handleSetup, abind, atry, finally. intros H. invocations H.
  - right. eauto.
  - by left.
Qed.

Lemma saveSettings_invokes w c :
  invokes (saveSettings w) c →
  c = load_dashboard ∨
  ∃ url tok interval lang auto,
    document w !! "settings-server-url" = Some url ∧
    document w !! "settings-token" = Some tok ∧
    document w !! "settings-interval" = Some interval ∧
    document w !! "settings-language" = Some lang ∧
    document w !! "settings-autostart" = Some auto ∧
    c = save_settings
          (mkSaveArgs (Js.trim (value url)) (Js.trim (value tok))
             (Js.double_or (Js.parseInt (value interval)) (Js.Num 60))
             (value lang) (checked auto)).
Proof.
  unfold saveSettings. js_cases; intros H; try (by apply invokes_Done in H).
  apply invokes_Await in H as [->|(r & w' & H)].
  - right. by eexists _, _, _, _, _.
  - left. destruct r as [err|[]]; cbn -[setLanguage closeSettings] in H.
    + by apply invokes_Done in H.
    + destruct (setLanguage_runs (value e2) w') as (cur & extra & Hl).
      rewrite Hl in H. cbn -[closeSettings] in H.
      by invocations H.
Qed.

Lemma saveSettings_submits w url tok interval lang auto :
  document w !! "settings-server-url" = Some url →
  document w !! "settings-token" = Some tok →
  document w !! "settings-interval" = Some interval →
  document w !! "settings-language" = Some lang →
  document w !! "settings-autostart" = Some auto →
  ∃ k,
    saveSettings w =
    Await (save_settings
             (mkSaveArgs (Js.trim (value url)) (Js.trim (value tok))
                (Js.double_or (Js.parseInt (value interval)) (Js.Num 60))
                (value lang) (checked auto))) k w.
Proof.
  intros. unfold saveSettings. js_run. by eexists.
Qed.

(** ** The update interval *)

Lemma digit_value_nonneg radix c d : Js.digit_value radix c = Some d → 0 ≤ d.
Proof.
  unfold Js.digit_value. intros H.
  repeat case_match; simplify_eq; lia.
Qed.

Lemma leading_digits_nonneg radix s acc n :
  0 ≤ radix → 0 ≤ default 0 acc →
  Js.leading_digits radix s acc = Some n → 0 ≤ n.
Proof.
  intros Hr. revert acc. induction s as [|c s IH]; intros acc Ha H; cbn in H.
  - by subst.
  - destruct (Js.digit_value radix c) as [d|] eqn:Hd; [|by subst].
    apply (IH _) in H; [done|]. cbn.
    apply digit_value_nonneg in Hd. nia.
Qed.

Lemma integer_read_nonneg text n :
  leading_minus text = false → Js.integer_read text = Some n → 0 ≤ n.
Proof.
  unfold leading_minus, Js.integer_read. intros Hm H.
  destruct (Js.strip_prefix "-" (Js.trimStart text)); [done|].
  repeat case_match; simplify_eq;
    match goal with
    | H : Js.leading_digits _ _ _ = Some ?m |- _ =>
        apply leading_digits_nonneg in H; [lia|lia|cbn; lia]
    end.
Qed.

(** Below 2^53 a double holds the integer itself. *)
Lemma to_double_exact n : Z.abs n < 2 ^ 53 → Js.to_double n = Js.Num n.
Proof. intros H. unfold Js.to_double. by rewrite (proj2 (Z.ltb_lt _ _) H). Qed.

(** The double nearest to a positive integer is positive, or the positive
    infinity. *)
Lemma to_double_positive n :
  0 < n →
  (∃ v, Js.to_double n = Js.Num v ∧ 1 ≤ v) ∨ Js.to_double n = Js.PlusInfinity.
Proof.
  intros Hn. unfold Js.to_double.
  destruct (Z.ltb_spec (Z.abs n) (2 ^ 53)) as [Hsmall|Hbig].
  { left. exists n. split; [done|lia]. }
  cbv zeta.
  match goal with
  | |- context [2 ^ 1024 <=? ?v] => destruct (Z.leb_spec (2 ^ 1024) v) as [Hinf|Hfin]
  end.
  { right. by rewrite (proj2 (Z.ltb_ge _ _)) by lia. }
  left. eexists. split; [reflexivity|].
  rewrite Z.abs_eq in * by lia. rewrite Z.sgn_pos by done.
  assert (53 ≤ Z.log2 n) as Hlog by (apply Z.log2_le_pow2; lia).
  set (e := Z.log2 n - 52) in *.
  assert (0 < 2 ^ e) as Hpow by (apply Z.pow_pos_nonneg; lia).
  assert (1 ≤ Z.shiftr n e) as Hq.
  { rewrite Z.shiftr_div_pow2 by lia.
    apply Z.div_le_lower_bound; [done|].
    destruct (Z.log2_spec n Hn) as [Hlo _].
    assert (2 ^ e ≤ 2 ^ Z.log2 n) by (apply Z.pow_le_mono_r; lia). lia. }
  rewrite Z.shiftl_mul_pow2 by lia.
  repeat case_match; nia.
Qed.

Lemma double_or_not_falsy n : Js.double_or n (Js.Num 60) ≠ Js.Num 0 ∧
                              Js.double_or n (Js.Num 60) ≠ Js.NaN.
Proof.
  unfold Js.double_or. destruct n as [|z| |]; try done.
  destruct (Z.eqb_spec z 0); split; congruence.
Qed.

Lemma double_or_at_least_one text :
  leading_minus text = false →
  integer_at_least_one (Js.double_or (Js.parseInt text) (Js.Num 60)) ∨
  Js.double_or (Js.parseInt text) (Js.Num 60) = Js.PlusInfinity.
Proof.
  intros Hm. unfold Js.parseInt.
  destruct (Js.integer_read text) as [n|] eqn:E; [|left; cbn; lia].
  apply (integer_read_nonneg _ _ Hm) in E.
  destruct (decide (n = 0)) as [->|Hn];
    [left; rewrite to_double_exact by (cbn; lia); cbn; lia|].
  destruct (to_double_positive n) as [(v & -> & Hv)| ->]; [lia| |by right].
  left. cbn. destruct (Z.eqb_spec v 0); cbn; lia.
Qed.

Lemma parseInt_exact text n :
  Js.integer_read text = Some n → Z.abs n < 2 ^ 53 → Js.parseInt text = Js.Num n.
Proof. intros H Hn. unfold Js.parseInt. rewrite H. by apply to_double_exact. Qed.

Lemma handleSetup_reaches w url tok error loading :
  document w !! "setup-server-url" = Some url →
  document w !! "setup-token" = Some tok →
  document w !! "setup-error" = Some error →
  document w !! "setup-loading" = Some loading →
  ∃ args, invokes (handleSetup w) (save_settings args).
Proof.
  intros H1 H2 H3 H4. unfold handleSetup.
  destruct (decide ("setup-error" = "setup-loading")) as [?|Hne]; [done|].
  js_run. eexists. constructor.
Qed.

(** C8, as the code has it.  [saveSettings] submits the number that
    [parseInt] reads in the interval field: the integer written at the start
    of the field, as a double (the integer itself when its magnitude is
    below 2^53, else the nearest double, an infinity beyond the doubles);
    and it submits 60 when [parseInt] gives [NaN] or zero.  What is
    submitted is never zero nor [NaN]; unless the text has a minus sign in
    front it is an integer that is at least 1, or the positive infinity;
    with a minus sign the negative number read is submitted.  [handleSetup]
    always submits 60.  With the page in place both functions do submit. *)
Theorem interval_submitted :
  (∀ w args,
     invokes (saveSettings w) (save_settings args) →
     ∃ field,
       document w !! "settings-interval" = Some field ∧
       updateInterval args = Js.double_or (Js.parseInt (value field)) (Js.Num 60) ∧
       updateInterval args ≠ Js.Num 0 ∧ updateInterval args ≠ Js.NaN ∧
       (Js.parseInt (value field) = Js.NaN ∨ Js.parseInt (value field) = Js.Num 0 →
          updateInterval args = Js.Num 60) ∧
       (∀ n, Js.integer_read (value field) = Some n → n ≠ 0 → Z.abs n < 2 ^ 53 →
          updateInterval args = Js.Num n) ∧
       (leading_minus (value field) = false →
          integer_at_least_one (updateInterval args) ∨
          updateInterval args = Js.PlusInfinity)) ∧
  (∀ w url tok interval lang auto,
     document w !! "settings-server-url" = Some url →
     document w !! "settings-token" = Some tok →
     document w !! "settings-interval" = Some interval →
     document w !! "settings-language" = Some lang →
     document w !! "settings-autostart" = Some auto →
     ∃ args, invokes (saveSettings w) (save_settings args)) ∧
  (∀ w args,
     invokes (handleSetup w) (save_settings args) → updateInterval args = Js.Num 60) ∧
  (∀ w url tok error loading,
     document w !! "setup-server-url" = Some url →
     document w !! "setup-token" = Some tok →
     document w !! "setup-error" = Some error →
     document w !! "setup-loading" = Some loading →
     ∃ args, invokes (handleSetup w) (save_settings args)).
Proof.
  split; [|split; [|split]]; [| | |apply handleSetup_reaches].
  - intros w args H.
    apply saveSettings_invokes in H
      as [?|(url & tok & interval & lang & auto & _ & _ & Hi & _ & _ & [= ->])]; [done|].
    exists interval. split; [done|]. cbn [updateInterval]. split; [done|].
    split; [apply double_or_not_falsy|]. split; [apply double_or_not_falsy|].
    split; [by intros [->| ->]|]. split; [|apply double_or_at_least_one].
    intros n Hr Hn Hsmall. rewrite (parseInt_exact _ _ Hr Hsmall). cbn.
    by destruct (Z.eqb_spec n 0).
  - intros w url tok interval lang auto H1 H2 H3 H4 H5.
    destruct (saveSettings_submits w _ _ _ _ _ H1 H2 H3 H4 H5) as (k & ->).
    eexists. constructor.
  - intros w args H.
    apply handleSetup_submits in H as [?|(? & ? & ? & [= ->])]; done.
Qed.

Lemma interval_submitted_witness :
  ∃ field,
    document (typed "settings-interval" "-5" fresh) !! "settings-interval" = Some field ∧
    Js.Num (-5) = Js.double_or (Js.parseInt (value field)) (Js.Num 60).
Proof.
  destruct (proj1 interval_submitted (typed "settings-interval" "-5" fresh)
              (mkSaveArgs "" "" (Js.Num (-5)) "" false))
    as (field & H1 & H2 & _).
  - vm_compute. constructor.
  - exists field. split; [exact H1|exact H2].
Defined.

(** C8, as worded, fails: a negative number in the interval field is
    submitted as it is. *)
Lemma negative_interval_submitted :
  ¬ submits_interval_at_least_one (typed "settings-interval" "-5" fresh).
Proof.
  intros H.
  assert (integer_at_least_one (updateInterval (mkSaveArgs "" "" (Js.Num (-5)) "" false)))
    as Hle by (apply H; vm_compute; constructor).
  cbn in Hle. lia.
Qed.

Lemma start_gates_dashboard_witness :
  (setup_screen_shown (start (answering empty_settings []) fresh) ∧
   dashboard_hidden (start (answering empty_settings []) fresh) ∧
   events_since fresh (start (answering empty_settings []) fresh) = []) ∧
  events_since fresh (start (answering registered_settings []) fresh) =
    [Navigate "about:blank"].
Proof.
  split.
  - destruct (start_gates_dashboard (answering empty_settings []) empty_settings fresh
                (hidden (tag "DIV")) (hidden (tag "DIV")) (tag "IFRAME"))
      as (H & _ & _); [reflexivity..|].
    destruct H as (H1 & H2 & H3 & _); [by left|].
    split; [exact H1|]. split; [exact H2|exact H3].
  - destruct (start_gates_dashboard (answering registered_settings []) registered_settings
                fresh (hidden (tag "DIV")) (hidden (tag "DIV")) (tag "IFRAME"))
      as (_ & _ & H); [reflexivity..|].
    destruct H as (H1 & _); [done..|]. exact H1.
Defined.

(** ** The token in the settings dialogue *)

Lemma without_token_eq w1 w2 :
  without_token w1 = without_token w2 ↔
  (∀ id, blank id <$> document w1 !! id = blank id <$> document w2 !! id) ∧
  created w1 = created w2 ∧ localStorage w1 = localStorage w2 ∧
  console w1 = console w2 ∧ alerts w1 = alerts w2 ∧
  currentLanguage w1 = currentLanguage w2 ∧ trace w1 = trace w2.
Proof.
  unfold without_token. cbn. split.
  - intros [= Hd -> -> -> -> -> ->]. split; [|done].
    intros id. apply (f_equal (.!! id)) in Hd. rewrite !lookup_alter in Hd.
    unfold blank. destruct (decide ("settings-token" = id)) as [<-|]; [exact Hd|by rewrite Hd].
  - intros (Hd & -> & -> & -> & -> & -> & ->). f_equal.
    apply map_eq. intros id. rewrite !lookup_alter. specialize (Hd id).
    unfold blank in Hd. destruct (decide ("settings-token" = id)) as [<-|]; [exact Hd|].
    destruct (document w1 !! id), (document w2 !! id); by simplify_eq/=.
Qed.

Lemma secure_ret {A B} (R : A → B → Prop) a b : R a b → secure R (ret a) (ret b).
Proof. by intros H w1 w2 Hw. Qed.

Lemma secure_bind {A1 A2 B1 B2} (R : A1 → A2 → Prop) (S : B1 → B2 → Prop)
    (m1 : M A1) (m2 : M A2) (f1 : A1 → M B1) (f2 : A2 → M B2) :
  secure R m1 m2 →
  (∀ a1 a2, R a1 a2 → secure S (f1 a1) (f2 a2)) →
  secure S (bind m1 f1) (bind m2 f2).
Proof.
  intros Hm Hf w1 w2 Hw. unfold bind.
  destruct (Hm w1 w2 Hw) as [Hr Hw'].
  destruct (m1 w1) as [[e1|a1] w1'], (m2 w2) as [[e2|a2] w2']; cbn in *; try done.
  by apply Hf.
Qed.

Lemma secure_try_catch {A B} (R : A → B → Prop) (m1 : M A) (m2 : M B) h1 h2 :
  secure R m1 m2 →
  (∀ e, secure R (h1 e) (h2 e)) →
  secure R (try_catch m1 h1) (try_catch m2 h2).
Proof.
  intros Hm Hh w1 w2 Hw. unfold try_catch.
  destruct (Hm w1 w2 Hw) as [Hr Hw'].
  destruct (m1 w1) as [[e1|a1] w1'], (m2 w2) as [[e2|a2] w2']; cbn in *; try done.
  subst. by apply Hh.
Qed.

Lemma secure_gets {A} (f : world → A) :
  (∀ w1 w2, without_token w1 = without_token w2 → f w1 = f w2) →
  secure eq (gets f) (gets f).
Proof. intros Hf w1 w2 Hw. split; [by apply Hf|done]. Qed.

Lemma secure_modify (f1 f2 : world → world) :
  (∀ w1 w2, without_token w1 = without_token w2 →
            without_token (f1 w1) = without_token (f2 w2)) →
  secure eq (modify f1) (modify f2).
Proof. intros Hf w1 w2 Hw. split; [done|by apply Hf]. Qed.

Lemma secure_read {A B} (R : A → B → Prop) id prop (f1 : element → A) (f2 : element → B) :
  (∀ e1 e2, blank id e1 = blank id e2 → R (f1 e1) (f2 e2)) →
  secure R (read id prop f1) (read id prop f2).
Proof.
  intros Hf w1 w2 Hw. pose proof Hw as (Hd & _)%without_token_eq. specialize (Hd id).
  unfold read.
  destruct (document w1 !! id), (document w2 !! id); cbn in Hd; [|done..].
  injection Hd as Hd. split; [by apply Hf|done].
Qed.

Lemma secure_write id prop (g1 g2 : element → element) :
  (∀ e1 e2, blank id e1 = blank id e2 → blank id (g1 e1) = blank id (g2 e2)) →
  secure eq (write id prop g1) (write id prop g2).
Proof.
  intros Hg w1 w2 Hw. pose proof Hw as (Hd & Hrest)%without_token_eq.
  unfold write. pose proof (Hd id) as Hid.
  destruct (document w1 !! id) as [e1|] eqn:E1, (document w2 !! id) as [e2|] eqn:E2;
    cbn in Hid; [|done..].
  injection Hid as Hid. split; [done|].
  apply without_token_eq. cbn. split; [|done].
  intros j. destruct (decide (id = j)) as [<-|Hne].
  - rewrite !lookup_insert_eq. cbn. f_equal. by apply Hg.
  - rewrite !lookup_insert_ne by done. apply Hd.
Qed.

Lemma blank_eq id e1 e2 :
  blank id e1 = blank id e2 ↔
  tagName e1 = tagName e2 ∧ data_i18n e1 = data_i18n e2 ∧ type e1 = type e2 ∧
  checked e1 = checked e2 ∧ textContent e1 = textContent e2 ∧
  classList e1 = classList e2 ∧ src e1 = src e2 ∧ onload e1 = onload e2 ∧
  children e1 = children e2 ∧ ("settings-token" ≠ id → value e1 = value e2).
Proof.
  unfold blank. destruct e1, e2. case_decide; cbn; split.
  - intros [=]. by repeat split.
  - intros (-> & -> & -> & -> & -> & -> & -> & -> & -> & _). done.
  - intros [=]. by repeat split.
  - intros (-> & -> & -> & -> & -> & -> & -> & -> & -> & Hv). by rewrite Hv.
Qed.

Ltac blank_solve :=
  let e1 := fresh "e1" in
  let e2 := fresh "e2" in
  let He := fresh "He" in
  intros e1 e2 He; apply blank_eq in He;
  destruct He as (? & ? & ? & ? & ? & ? & ? & ? & ? & ?);
  try (match goal with
       | |- blank _ _ = blank _ _ => apply blank_eq; cbn; repeat split
       end); try congruence; try done;
  try (intros; congruence); try (intros; exfalso; congruence);
  try (match goal with H : _ ≠ _ → _ |- _ => apply H; discriminate end).

Lemma complete_and_then {A B} a (p : async A) (f : A → Async B) :
  complete a (and_then p f) =
  match complete a p with
  | (inr x, w) => complete a (f x w)
  | (inl e, w) => (inl e, w)
  end.
Proof. induction p as [[e|x] w|c k IH w]; cbn; auto. Qed.

Lemma complete_or_catch {A} a (p : async A) (h : exn → Async A) :
  complete a (or_catch p h) =
  match complete a p with
  | (inr x, w) => (inr x, w)
  | (inl e, w) => complete a (h e w)
  end.
Proof. induction p as [[e|x] w|c k IH w]; cbn; auto. Qed.

Lemma secure_async_sync {A B} a1 a2 (R : A → B → Prop) m1 m2 :
  secure R m1 m2 → secure_async a1 a2 R (sync m1) (sync m2).
Proof.
  intros Hm w1 w2 Hw. destruct (Hm w1 w2 Hw) as [Hr Hw']. cbn.
  by destruct (m1 w1), (m2 w2).
Qed.

Lemma secure_async_abind {A1 A2 B1 B2} a1 a2 (R : A1 → A2 → Prop) (S : B1 → B2 → Prop)
    (m1 : Async A1) (m2 : Async A2) (f1 : A1 → Async B1) (f2 : A2 → Async B2) :
  secure_async a1 a2 R m1 m2 →
  (∀ x1 x2, R x1 x2 → secure_async a1 a2 S (f1 x1) (f2 x2)) →
  secure_async a1 a2 S (abind m1 f1) (abind m2 f2).
Proof.
  intros Hm Hf w1 w2 Hw. unfold abind. rewrite !complete_and_then.
  destruct (Hm w1 w2 Hw) as [Hr Hw']. cbn in Hr, Hw'.
  destruct (complete a1 (m1 w1)) as [[e1|x1] w1'],
           (complete a2 (m2 w2)) as [[e2|x2] w2']; cbn in *; try done.
  by apply Hf.
Qed.

Lemma secure_async_atry {A B} a1 a2 (R : A → B → Prop)
    (m1 : Async A) (m2 : Async B) h1 h2 :
  secure_async a1 a2 R m1 m2 →
  (∀ e, secure_async a1 a2 R (h1 e) (h2 e)) →
  secure_async a1 a2 R (atry m1 h1) (atry m2 h2).
Proof.
  intros Hm Hh w1 w2 Hw. unfold atry. rewrite !complete_or_catch.
  destruct (Hm w1 w2 Hw) as [Hr Hw']. cbn in Hr, Hw'.
  destruct (complete a1 (m1 w1)) as [[e1|x1] w1'],
           (complete a2 (m2 w2)) as [[e2|x2] w2']; cbn in *; try done.
  subst. by apply Hh.
Qed.

Lemma secure_async_invoke a1 a2 c1 c2 (R : reply c1 → reply c2 → Prop) :
  same_result R (answer a1 c1) (answer a2 c2) →
  secure_async a1 a2 R (invoke c1) (invoke c2).
Proof. intros Hr w1 w2 Hw. by cbn. Qed.

Ltac world_solve :=
  let w1 := fresh "w1" in
  let w2 := fresh "w2" in
  let Hw := fresh "Hw" in
  intros w1 w2 Hw; apply without_token_eq in Hw;
  destruct Hw as (? & ? & ? & ? & ? & ? & ?);
  try (match goal with
       | |- without_token _ = without_token _ =>
           apply without_token_eq; cbn; repeat split
       end); try congruence; try done.

Lemma secure_log lv text v : secure eq (log lv text v) (log lv text v).
Proof. apply secure_modify. world_solve. Qed.

Lemma secure_alert text : secure eq (alert text) (alert text).
Proof. apply secure_modify. world_solve. Qed.

Lemma blank_relabel id cur e : blank id (relabel cur e) = relabel cur (blank id e).
Proof.
  unfold blank, relabel. case_decide; [|done].
  destruct e as [? [key|] ? ? ? ? ? ? ? ?]; cbn; [|done].
  by repeat case_match.
Qed.

Lemma secure_updateUITranslations : secure eq updateUITranslations updateUITranslations.
Proof.
  apply secure_modify. world_solve.
  intros id. rewrite !lookup_fmap.
  match goal with H : ∀ id, _ = _ |- _ => specialize (H id) end.
  destruct (document w1 !! id), (document w2 !! id); simplify_eq/=; [|done].
  f_equal. rewrite !blank_relabel. congruence.
Qed.

Lemma secure_setLanguage lang : secure eq (setLanguage lang) (setLanguage lang).
Proof.
  unfold setLanguage.
  eapply (secure_bind eq).
  { destruct (prop lang translations).
    - by apply secure_ret.
    - eapply secure_bind; [apply secure_log|intros; by apply secure_ret]. }
  intros ? ? <-.
  eapply secure_bind; [apply secure_modify; world_solve|].
  intros. apply secure_updateUITranslations.
Qed.

Lemma secure_t key : secure eq (t key) (t key).
Proof.
  unfold t. eapply secure_bind; [apply secure_gets; world_solve|].
  intros ? ? <-. by apply secure_ret.
Qed.

Lemma secure_togglePassword inputId :
  secure eq (togglePassword inputId) (togglePassword inputId).
Proof.
  unfold togglePassword.
  eapply secure_bind; [apply (secure_read eq); blank_solve|].
  intros ? ? <-. apply secure_write. blank_solve.
Qed.

Lemma secure_append_row sensor : secure eq (append_row sensor) (append_row sensor).
Proof.
  unfold append_row.
  eapply secure_bind; [apply secure_gets; world_solve|]. intros ? ? <-.
  eapply secure_bind; [apply secure_modify; world_solve|]. intros _ _ _.
  eapply secure_bind; [apply secure_t|]. intros ? ? <-.
  eapply secure_bind; [destruct (sensor_updates_at_interval sensor); apply secure_t|].
  intros ? ? <-. apply secure_write. blank_solve.
Qed.

Lemma secure_for_of {A} (l : list A) body :
  (∀ x, secure eq (body x) (body x)) → secure eq (for_of l body) (for_of l body).
Proof.
  intros Hb. induction l as [|x l IH]; cbn [for_of].
  - by apply secure_ret.
  - eapply secure_bind; [apply Hb|intros; apply IH].
Qed.

Lemma secure_console_error text e : secure eq (console_error text e) (console_error text e).
Proof. apply secure_log. Qed.

Lemma secure_classList_add id c : secure eq (classList_add id c) (classList_add id c).
Proof.
  unfold classList_add.
  eapply secure_bind; [apply (secure_read eq); blank_solve|].
  intros ? ? <-. apply secure_write. blank_solve.
Qed.

Lemma secure_classList_remove id c :
  secure eq (classList_remove id c) (classList_remove id c).
Proof.
  unfold classList_remove.
  eapply secure_bind; [apply (secure_read eq); blank_solve|].
  intros ? ? <-. apply secure_write. blank_solve.
Qed.

Section Answers.
Context (a1 a2 : answers) (Ha : same_answers a1 a2).

(** One statement of an [async] function, synchronous and without a
    value, then the rest. *)
Ltac statement tac :=
  eapply (secure_async_abind a1 a2 eq);
  [apply secure_async_sync; tac|intros _ _ _].

Lemma secure_populateSensorList :
  secure_async a1 a2 eq populateSensorList populateSensorList.
Proof.
  unfold populateSensorList.
  apply secure_async_atry;
    [|intros e; apply secure_async_sync, secure_console_error].
  eapply (secure_async_abind a1 a2 eq).
  { apply (secure_async_invoke a1 a2 get_sensor_list get_sensor_list).
    cbn. destruct Ha as (_ & _ & <- & _).
    by destruct (on_get_sensor_list a1). }
  intros sensors ? <-.
  statement ltac:(apply secure_write; blank_solve).
  apply secure_async_sync, secure_for_of. apply secure_append_row.
Qed.

Lemma secure_closeSettings : secure_async a1 a2 eq closeSettings closeSettings.
Proof.
  unfold closeSettings.
  statement ltac:(apply secure_classList_add).
  apply secure_async_atry;
    [|intros e; apply secure_async_sync, secure_console_error].
  apply (secure_async_invoke a1 a2 load_dashboard load_dashboard).
  cbn. destruct Ha as (_ & _ & _ & _ & _ & <- & _).
  by destruct (on_load_dashboard a1).
Qed.

Lemma secure_openSettings : secure_async a1 a2 eq openSettings openSettings.
Proof.
  unfold openSettings.
  apply secure_async_atry;
    [|intros e; apply secure_async_sync, secure_console_error].
  eapply (secure_async_abind a1 a2 same_but_token).
  { apply (secure_async_invoke a1 a2 get_settings get_settings). apply Ha. }
  intros [u1 t1 i1 l1 s1 d1 h1 r1] [u2 t2 i2 l2 s2 d2 h2 r2] [= -> -> -> -> -> -> ->].
  cbn [server_url access_token update_interval language autostart device_id
       webhook_id is_registered].
  statement ltac:(apply secure_modify; world_solve).
  statement ltac:(apply secure_write; blank_solve).
  statement ltac:(apply secure_write; blank_solve).
  statement ltac:(apply secure_write; blank_solve).
  statement ltac:(apply secure_write; blank_solve).
  statement ltac:(apply secure_write; blank_solve).
  statement ltac:(apply secure_write; blank_solve).
  statement ltac:(apply secure_write; blank_solve).
  statement ltac:(eapply (secure_bind eq);
                  [destruct r2; apply secure_t
                  |intros ? ? <-; apply secure_write; blank_solve]).
  statement ltac:(apply secure_write; blank_solve).
  statement ltac:(apply secure_write; blank_solve).
  eapply (secure_async_abind a1 a2 eq); [apply secure_populateSensorList|intros _ _ _].
  apply secure_async_sync, secure_classList_remove.
Qed.

Lemma secure_saveSettings : secure_async a1 a2 eq saveSettings saveSettings.
Proof.
  unfold saveSettings.
  eapply (secure_async_abind a1 a2 eq).
  { apply secure_async_sync. eapply (secure_bind eq).
    - apply (secure_read eq). blank_solve.
    - intros ? ? <-. by apply secure_ret. }
  intros serverUrl ? <-.
  eapply (secure_async_abind a1 a2 (λ _ _, True)).
  { apply secure_async_sync. eapply (secure_bind (λ _ _, True)).
    - by apply secure_read.
    - intros. by apply secure_ret. }
  intros token1 token2 _.
  eapply (secure_async_abind a1 a2 eq).
  { apply secure_async_sync. eapply (secure_bind eq).
    - apply (secure_read eq). blank_solve.
    - intros ? ? <-. by apply secure_ret. }
  intros interval ? <-.
  eapply (secure_async_abind a1 a2 eq).
  { apply secure_async_sync. apply (secure_read eq). blank_solve. }
  intros lang ? <-.
  eapply (secure_async_abind a1 a2 eq).
  { apply secure_async_sync. apply (secure_read eq). blank_solve. }
  intros auto ? <-.
  apply secure_async_atry.
  - eapply (secure_async_abind a1 a2 (λ _ _, True)).
    { apply (secure_async_invoke a1 a2 (save_settings _) (save_settings _)).
      cbn. destruct Ha as (_ & <- & _).
      by destruct (on_save_settings a1). }
    intros _ _ _.
    statement ltac:(apply secure_setLanguage).
    apply secure_closeSettings.
  - intros e. apply secure_async_sync.
    eapply secure_bind; [apply secure_console_error|intros; apply secure_alert].
Qed.

End Answers.

Lemma uncaught_secure (r1 r2 : (exn + unit) * world) :
  same_result (@eq unit) r1.1 r2.1 → without_token r1.2 = without_token r2.2 →
  without_token (uncaught r1) = without_token (uncaught r2).
Proof.
  destruct r1 as [[e1|[]] w1], r2 as [[e2|[]] w2]; cbn; try done.
  intros -> Hw. revert w1 w2 Hw. world_solve.
Qed.

Lemma perform_secure w1 w2 o1 o2 :
  same_operation o1 o2 →
  without_token w1 = without_token w2 →
  without_token (perform w1 o1) = without_token (perform w2 o2).
Proof.
  intros Ho Hw.
  destruct o1 as [a1|i1|a1], o2 as [a2|i2|a2]; try done; cbn in Ho; cbn [perform].
  - destruct (secure_openSettings a1 a2 Ho w1 w2 Hw). by apply uncaught_secure.
  - subst. destruct (secure_togglePassword i2 w1 w2 Hw). by apply uncaught_secure.
  - destruct (secure_saveSettings a1 a2 Ho w1 w2 Hw). by apply uncaught_secure.
Qed.

Lemma session_secure ops1 ops2 : ∀ w1 w2,
  Forall2 same_operation ops1 ops2 →
  without_token w1 = without_token w2 →
  without_token (session w1 ops1) = without_token (session w2 ops2).
Proof.
  intros w1 w2 H. revert w1 w2.
  induction H as [|o1 o2 ops1 ops2 Ho _ IH]; intros w1 w2 Hw; [done|].
  cbn [session fold_left]. apply IH. by apply perform_secure.
Qed.

Lemma shows_blank e1 e2 text :
  blank "settings-token" e1 = blank "settings-token" e2 →
  type e1 = "password" → shows e1 text → shows e2 text.
Proof.
  intros (? & ? & Ht & ? & Hx & ? & ? & ? & Hc & _)%blank_eq Hp.
  unfold shows. rewrite <- Ht, <- Hx, <- Hc. intros [?|[[? _]|?]]; auto. done.
Qed.

Lemma displays_secure w1 w2 text :
  without_token w1 = without_token w2 →
  token_masked w1 → displays w1 text → displays w2 text.
Proof.
  intros (Hd & _)%without_token_eq Hm (id & e1 & He1 & Hs).
  specialize (Hd id). rewrite He1 in Hd.
  destruct (document w2 !! id) as [e2|] eqn:He2; [|done].
  injection Hd as Hd. exists id, e2. split; [done|].
  destruct (decide ("settings-token" = id)) as [<-|Hne].
  - eapply shows_blank; [exact Hd|by apply Hm|done].
  - unfold blank in Hd. rewrite !decide_False in Hd by done. by subst.
Qed.

(** ** What the functions of the dialogue leave alone *)

Lemma keeps_ret {X A} (f : world → X) (a : A) : keeps f (ret a).
Proof. by intros w. Qed.

Lemma keeps_throw {X A} (f : world → X) e : keeps f (@throw A e).
Proof. by intros w. Qed.

Lemma keeps_bind {X A B} (f : world → X) (m : M A) (k : A → M B) :
  keeps f m → (∀ a, keeps f (k a)) → keeps f (bind m k).
Proof.
  intros Hm Hk w. unfold bind. specialize (Hm w).
  destruct (m w) as [[e|a] w']; cbn in *; [done|]. by rewrite Hk.
Qed.

Lemma keeps_try_catch {X A} (f : world → X) (m : M A) h :
  keeps f m → (∀ e, keeps f (h e)) → keeps f (try_catch m h).
Proof.
  intros Hm Hh w. unfold try_catch. specialize (Hm w).
  destruct (m w) as [[e|a] w']; cbn in *; [|done]. by rewrite Hh.
Qed.

Lemma keeps_gets {X A} (f : world → X) (g : world → A) : keeps f (gets g).
Proof. by intros w. Qed.

Lemma keeps_modify {X} (f : world → X) g : (∀ w, f (g w) = f w) → keeps f (modify g).
Proof. intros H w. apply H. Qed.

Lemma keeps_read {X A} (f : world → X) id p (g : element → A) : keeps f (read id p g).
Proof. intros w. unfold read. by destruct (document w !! id). Qed.

Lemma keeps_write {X} k (F : element → X) id p g :
  (id = k → ∀ e, F (g e) = F e) → keeps (field k F) (write id p g).
Proof.
  intros H w. unfold write, field. destruct (document w !! id) as [e|] eqn:E; [|done].
  cbn. destruct (decide (id = k)) as [<-|Hne].
  - rewrite lookup_insert_eq, E. cbn. by rewrite H.
  - by rewrite lookup_insert_ne.
Qed.

Lemma ends_with_Done {X A} (f : world → X) a x (r : exn + A) w :
  f w = x → ends_with f a x (Done r w).
Proof. done. Qed.

Lemma ends_with_sync {X A} (f : world → X) a x (m : M A) w :
  keeps f m → f w = x → ends_with f a x (sync m w).
Proof. intros Hm <-. unfold ends_with. cbn. specialize (Hm w). by destruct (m w). Qed.

Lemma ends_with_invoke {X} (f : world → X) a x c w :
  f w = x → ends_with f a x (invoke c w).
Proof. done. Qed.

Lemma ends_with_and_then {X A B} (f : world → X) a x (p : async A) (k : A → Async B) :
  ends_with f a x p → (∀ v w, f w = x → ends_with f a x (k v w)) →
  ends_with f a x (and_then p k).
Proof.
  unfold ends_with. intros Hp Hk. rewrite complete_and_then.
  destruct (complete a p) as [[e|v] w]; cbn in *; [done|]. by apply Hk.
Qed.

Lemma ends_with_or_catch {X A} (f : world → X) a x (p : async A) h :
  ends_with f a x p → (∀ e w, f w = x → ends_with f a x (h e w)) →
  ends_with f a x (or_catch p h).
Proof.
  unfold ends_with. intros Hp Hh. rewrite complete_or_catch.
  destruct (complete a p) as [[e|v] w]; cbn in *; [|done]. by apply Hh.
Qed.

Lemma keeps_async_ends_with {X A} (f : world → X) (m : Async A) :
  keeps_async f m ↔ ∀ a x w, f w = x → ends_with f a x (m w).
Proof.
  unfold keeps_async, ends_with. split.
  - intros H a x w <-. apply H.
  - intros H a w. by apply H.
Qed.

Lemma keeps_async_sync {X A} (f : world → X) (m : M A) : keeps f m → keeps_async f (sync m).
Proof. intros Hm a w. cbn. specialize (Hm w). by destruct (m w). Qed.

Lemma keeps_async_invoke {X} (f : world → X) c : keeps_async f (invoke c).
Proof. by intros a w. Qed.

Lemma keeps_async_abind {X A B} (f : world → X) (m : Async A) (k : A → Async B) :
  keeps_async f m → (∀ v, keeps_async f (k v)) → keeps_async f (abind m k).
Proof.
  intros Hm Hk a w. unfold abind. rewrite complete_and_then. specialize (Hm a w).
  destruct (complete a (m w)) as [[e|v] w']; cbn in *; [done|]. by rewrite Hk.
Qed.

Lemma keeps_async_atry {X A} (f : world → X) (m : Async A) h :
  keeps_async f m → (∀ e, keeps_async f (h e)) → keeps_async f (atry m h).
Proof.
  intros Hm Hh a w. unfold atry. rewrite complete_or_catch. specialize (Hm a w).
  destruct (complete a (m w)) as [[e|v] w']; cbn in *; [|done]. by rewrite Hh.
Qed.

Lemma keeps_for_of {X A} (f : world → X) (l : list A) body :
  (∀ x, keeps f (body x)) → keeps f (for_of l body).
Proof.
  intros Hb. induction l as [|x l IH]; cbn [for_of]; [apply keeps_ret|].
  apply keeps_bind; [apply Hb|by intros].
Qed.

Lemma type_relabel cur e : type (relabel cur e) = type e.
Proof. unfold relabel. by repeat case_match. Qed.

Lemma value_relabel cur e : value (relabel cur e) = value e.
Proof. unfold relabel. by repeat case_match. Qed.

Lemma field_uncaught {X} k (F : element → X) r :
  field k F (uncaught r) = field k F r.2.
Proof. by destruct r as [[e|[]] w]. Qed.

(** A write leaves the property [F] of the element [k] alone: it goes to
    another element, or to a property that [F] does not look at. *)
Ltac blind :=
  let Hid := fresh in
  intros Hid; try discriminate Hid; intros;
  first [ reflexivity | apply type_relabel | apply value_relabel ].

Ltac frame_modify :=
  let w := fresh "w" in
  intros w; unfold field; cbn; rewrite ?lookup_fmap;
  first
    [ reflexivity
    | destruct (document w !! _); cbn;
      [f_equal; first [apply type_relabel|apply value_relabel|done]|done] ].

Ltac frame :=
  repeat first
    [ apply keeps_async_sync
    | match goal with
      | |- keeps_async ?f (invoke ?c) => apply (keeps_async_invoke f c)
      end
    | apply keeps_async_abind; [|intros ?]
    | apply keeps_async_atry; [|intros ?]
    | apply keeps_ret
    | apply keeps_gets
    | apply keeps_read
    | apply keeps_bind; [|intros ?]
    | apply keeps_try_catch; [|intros ?]
    | apply keeps_for_of; intros ?
    | apply keeps_write; blind
    | apply keeps_modify; frame_modify
    | match goal with
      | |- keeps _ (if ?b then _ else _) => destruct b
      | |- keeps _ (match ?x with _ => _ end) => destruct x
      | |- keeps_async _ (if ?b then _ else _) => destruct b
      end
    | progress unfold classList_add, classList_remove, log, console_warn, console_error,
        alert, t, setLanguage, updateUITranslations, append_row, populateSensorList,
        closeSettings, saveSettings, togglePassword, with_className ].

Lemma keeps_saveSettings_value : keeps_async (field "settings-token" value) saveSettings.
Proof. frame. Qed.

Lemma keeps_saveSettings_type : keeps_async (field "settings-token" type) saveSettings.
Proof. frame. Qed.

Lemma keeps_saveSettings_presence k : keeps_async (field k (λ _, tt)) saveSettings.
Proof. frame. Qed.

Lemma keeps_openSettings_type : keeps_async (field "settings-token" type) openSettings.
Proof. unfold openSettings. frame. Qed.

Lemma keeps_openSettings_presence k : keeps_async (field k (λ _, tt)) openSettings.
Proof. unfold openSettings. frame. Qed.

Lemma keeps_togglePassword_value inputId :
  keeps (field "settings-token" value) (togglePassword inputId).
Proof. frame. Qed.

Lemma keeps_togglePassword_presence k inputId :
  keeps (field k (λ _, tt)) (togglePassword inputId).
Proof. frame. Qed.

Lemma keeps_togglePassword_type inputId :
  inputId ≠ "settings-token" → keeps (field "settings-token" type) (togglePassword inputId).
Proof.
  intros Hne. unfold togglePassword. apply keeps_bind; [apply keeps_read|intros ty].
  apply keeps_write. by intros ?.
Qed.

Lemma ends_with_invoke_then {X B} (f : world → X) a x c (r : reply c) w
    (k : reply c → Async B) :
  answer a c = inr r → ends_with f a x (k r w) → ends_with f a x (abind (invoke c) k w).
Proof. intros Ha H. unfold ends_with in *. cbn. by rewrite Ha. Qed.

Lemma ends_with_sync_then {X A B} (f : world → X) a x (m : M A) v w w' (k : A → Async B) :
  m w = (inr v, w') → ends_with f a x (k v w') → ends_with f a x (abind (sync m) k w).
Proof. intros Hm H. unfold ends_with in *. cbn. by rewrite Hm. Qed.

Lemma or_else_empty s : Js.or_else s "" = s.
Proof. by destruct s. Qed.

Lemma perform_presence k w op :
  field k (λ _, tt) (perform w op) = field k (λ _, tt) w.
Proof.
  destruct op as [a|inputId|a]; cbn [perform]; rewrite field_uncaught.
  - apply keeps_openSettings_presence.
  - apply keeps_togglePassword_presence.
  - apply keeps_saveSettings_presence.
Qed.

Lemma perform_token_type w op :
  toggles_token op = false →
  field "settings-token" type (perform w op) = field "settings-token" type w.
Proof.
  intros Hop. destruct op as [a|inputId|a]; cbn [perform]; rewrite field_uncaught.
  - apply keeps_openSettings_type.
  - apply keeps_togglePassword_type. cbn in Hop. by apply bool_decide_eq_false in Hop.
  - apply keeps_saveSettings_type.
Qed.

Lemma perform_toggle_type w :
  field "settings-token" type (perform w (TogglePassword "settings-token")) =
  (λ ty, if bool_decide (ty = "password") then "text" else "password") <$>
    field "settings-token" type w.
Proof.
  cbn [perform]. rewrite field_uncaught. unfold togglePassword, field.
  destruct (document w !! "settings-token") as [e|] eqn:E; js_run; done.
Qed.

Lemma perform_token_value w op :
  opens op = false →
  field "settings-token" value (perform w op) = field "settings-token" value w.
Proof.
  intros Hop. destruct op as [a|inputId|a]; [done|..]; cbn [perform];
    rewrite field_uncaught.
  - apply keeps_togglePassword_value.
  - apply keeps_saveSettings_value.
Qed.

(** [openSettings] puts the token [get_settings] answers with into the
    token field. *)
Lemma perform_open_value a s w :
  on_get_settings a = inr s →
  is_Some (document w !! "settings-server-url") →
  is_Some (document w !! "settings-token") →
  field "settings-token" value (perform w (OpenSettings a)) = Some (access_token s).
Proof.
  intros Ha [url Hurl] [tok Htok]. cbn [perform]. rewrite field_uncaught.
  change (ends_with (field "settings-token" value) a (Some (access_token s)) (openSettings w)).
  unfold openSettings, atry. apply ends_with_or_catch;
    [|intros e w' Hw'; apply ends_with_sync; [frame|done]].
  apply (ends_with_invoke_then _ a _ get_settings s); [done|].
  eapply ends_with_sync_then; [reflexivity|].
  eapply ends_with_sync_then; [by apply write_Some|].
  eapply ends_with_sync_then; [apply write_Some; cbn; by rewrite lookup_insert_ne|].
  apply keeps_async_ends_with; [frame|].
  unfold field. cbn. rewrite lookup_insert_eq. cbn. by rewrite or_else_empty.
Qed.

Lemma session_presence k ops : ∀ w,
  field k (λ _, tt) (session w ops) = field k (λ _, tt) w.
Proof.
  induction ops as [|op ops IH]; intros w; [done|].
  cbn [session fold_left]. fold (session (perform w op) ops).
  by rewrite IH, perform_presence.
Qed.

Lemma is_Some_presence k w : is_Some (document w !! k) ↔ field k (λ _, tt) w = Some tt.
Proof.
  unfold field. destruct (document w !! k); cbn; split; intros H;
    first [done|by eexists|by destruct H].
Qed.

(** The type of the token field in a session: it changes with the calls of
    [togglePassword] on it, and with nothing else. *)
Lemma session_type ops : ∀ w ty,
  ty = "password" ∨ ty = "text" →
  field "settings-token" type w = Some ty →
  field "settings-token" type (session w ops) =
  Some (if Nat.even (toggles ops) then ty
        else if bool_decide (ty = "password") then "text" else "password").
Proof.
  induction ops as [|op ops IH]; intros w ty Hty Hw; [done|].
  cbn [session fold_left toggles]. fold (session (perform w op) ops).
  destruct (toggles_token op) eqn:Hop.
  - destruct op as [|inputId|]; try done. cbn in Hop. apply bool_decide_eq_true in Hop as ->.
    assert (field "settings-token" type (perform w (TogglePassword "settings-token")) =
            Some (if bool_decide (ty = "password") then "text" else "password")) as Ht
      by (by rewrite perform_toggle_type, Hw).
    assert ((if bool_decide (ty = "password") then "text" else "password") = "password" ∨
            (if bool_decide (ty = "password") then "text" else "password") = "text") as Hty'
      by (destruct Hty as [->| ->]; cbn; auto).
    rewrite (IH _ _ Hty' Ht).
    change (1 + toggles ops)%nat with (S (toggles ops)). rewrite Nat.even_succ.
    rewrite <- Nat.negb_even. destruct (Nat.even (toggles ops)); cbn; [done|].
    by destruct Hty as [->| ->].
  - rewrite (IH _ ty Hty) by (by rewrite perform_token_type). done.
Qed.

Lemma session_value ops : ∀ w,
  forallb (λ op, negb (opens op)) ops = true →
  field "settings-token" value (session w ops) = field "settings-token" value w.
Proof.
  induction ops as [|op ops IH]; intros w Hops; [done|].
  cbn in Hops. apply andb_prop in Hops as [Hop%negb_true_iff Hops].
  cbn [session fold_left]. fold (session (perform w op) ops).
  by rewrite IH, perform_token_value.
Qed.

Lemma session_app w ops1 ops2 : session w (ops1 ++ ops2) = session (session w ops1) ops2.
Proof. apply fold_left_app. Qed.




(** ** The occasions on which the bootstrap is invoked again *)

Lemma complete_by_and_then {A B} env (p : async A) (f : A → Async B) :
  complete_by env (and_then p f) =
  match complete_by env p with
  | (inr x, w) => complete_by env (f x w)
  | (inl e, w) => (inl e, w)
  end.
Proof.
  induction p as [[e|x] w|c k IH w]; cbn; auto.
  destruct (env c w) as [r w']. apply IH.
Qed.

Lemma complete_by_or_catch {A} env (p : async A) (h : exn → Async A) :
  complete_by env (or_catch p h) =
  match complete_by env p with
  | (inr x, w) => (inr x, w)
  | (inl e, w) => complete_by env (h e w)
  end.
Proof.
  induction p as [[e|x] w|c k IH w]; cbn; auto.
  destruct (env c w) as [r w']. apply IH.
Qed.

Lemma complete_answering_only {A} a (p : async A) :
  complete a p = complete_by (answering_only a) p.
Proof. induction p as [r w|c k IH w]; cbn; auto. Qed.

Lemma sequenced_append tr new : sequenced tr → sequenced new → sequenced (tr ++ new).
Proof.
  intros Ht Hn. induction Hn as [|new b Hn IH Hb]; [by rewrite app_nil_r|].
  rewrite app_assoc. by constructor.
Qed.

Lemma sequenced_block b : block b → sequenced b.
Proof. intros Hb. by apply (sequenced_app [] b); [constructor|]. Qed.

Lemma grows_same w w' : trace w' = trace w → grows w w'.
Proof. intros H. exists []. split; [by rewrite app_nil_r|constructor]. Qed.

Lemma grows_trans w1 w2 w3 : grows w1 w2 → grows w2 w3 → grows w1 w3.
Proof.
  intros (n1 & H1 & S1) (n2 & H2 & S2). exists (n1 ++ n2)%list.
  split; [by rewrite H2, H1, <- app_assoc|by apply sequenced_append].
Qed.

Lemma grows_uncaught w r : grows w r.2 → grows w (uncaught r).
Proof. by destruct r as [[e|[]] w']. Qed.

Lemma leads_keeps {A} (m : M A) : keeps trace m → leads m.
Proof. intros H w. apply grows_same, H. Qed.

Lemma leads_bind {A B} (m : M A) (k : A → M B) :
  leads m → (∀ a, leads (k a)) → leads (bind m k).
Proof.
  intros Hm Hk w. unfold bind. specialize (Hm w).
  destruct (m w) as [[e|a] w']; cbn in *; [done|].
  eapply grows_trans; [exact Hm|apply Hk].
Qed.

Lemma leads_loadDashboard serverUrl token : leads (loadDashboard serverUrl token).
Proof.
  intros w. destruct (loadDashboard_trace serverUrl token w)
    as [H|(_ & _ & iframe & _ & H)].
  - by apply grows_same.
  - rewrite H. eexists. split; [done|]. apply sequenced_block. right. by left.
Qed.

Lemma leads_by_sync {A} env (m : M A) : leads m → leads_by env (sync m).
Proof. intros Hm w. unfold sync. specialize (Hm w). by destruct (m w). Qed.

Lemma leads_by_invoke env c :
  (∀ w, grows w (env c w).2) → leads_by env (invoke c).
Proof. intros H w. cbn. specialize (H w). by destruct (env c w). Qed.

Lemma leads_by_abind {A B} env (m : Async A) (k : A → Async B) :
  leads_by env m → (∀ v, leads_by env (k v)) → leads_by env (abind m k).
Proof.
  intros Hm Hk w. unfold abind. rewrite complete_by_and_then. specialize (Hm w).
  destruct (complete_by env (m w)) as [[e|v] w']; cbn in *; [done|].
  eapply grows_trans; [exact Hm|apply Hk].
Qed.

Lemma leads_by_atry {A} env (m : Async A) h :
  leads_by env m → (∀ e, leads_by env (h e)) → leads_by env (atry m h).
Proof.
  intros Hm Hh w. unfold atry. rewrite complete_by_or_catch. specialize (Hm w).
  destruct (complete_by env (m w)) as [[e|v] w']; cbn in *; [|done].
  eapply grows_trans; [exact Hm|apply Hh].
Qed.

Lemma keeps_write_trace id p g : keeps trace (write id p g).
Proof. intros w. unfold write. by destruct (document w !! id). Qed.

Lemma backend_grows stored a c w : grows w (backend stored a c w).2.
Proof.
  destruct c; cbn; try by apply grows_same.
  destruct (on_load_dashboard a); [by apply grows_same|apply leads_loadDashboard].
Qed.

Lemma answering_only_grows a c w : grows w (answering_only a c w).2.
Proof. by apply grows_same. Qed.

(** The code of the dialogue never touches the trace. *)
Ltac quiet :=
  repeat first
    [ apply keeps_ret
    | apply keeps_gets
    | apply keeps_read
    | apply keeps_write_trace
    | apply keeps_bind; [|intros ?]
    | apply keeps_try_catch; [|intros ?]
    | apply keeps_for_of; intros ?
    | apply keeps_modify; intros ?; reflexivity
    | match goal with
      | |- keeps _ (if ?b then _ else _) => destruct b
      | |- keeps _ (match ?x with _ => _ end) => destruct x
      end
    | progress unfold classList_add, classList_remove, log, console_warn, console_error,
        alert, t, setLanguage, updateUITranslations, Iframe.closeSettings, with_className ].

Ltac grow :=
  repeat first
    [ apply leads_by_abind; [|intros ?]
    | apply leads_by_atry; [|intros ?]
    | match goal with
      | |- leads_by ?env (invoke ?c) =>
          apply (leads_by_invoke env c);
          first [apply backend_grows|apply answering_only_grows]
      | |- leads_by _ (sync _) => apply leads_by_sync
      end
    | apply leads_loadDashboard
    | apply leads_bind; [|intros ?]
    | match goal with
      | |- leads (if ?b then _ else _) => destruct b
      | |- leads (match ?x with _ => _ end) => destruct x
      end
    | apply leads_keeps; quiet
    | progress unfold closeSettings, saveSettings, Iframe.saveSettings ].

Lemma closeSettings_grows stored a : leads_by (backend stored a) closeSettings.
Proof. grow. Qed.

Lemma saveSettings_grows stored a : leads_by (backend stored a) saveSettings.
Proof. grow. Qed.

Lemma Iframe_saveSettings_grows a : leads_by (answering_only a) Iframe.saveSettings.
Proof. grow. Qed.

Lemma occur_grows w o : grows w (occur w o).
Proof.
  destruct o as [act|a|stored a|stored a]; cbn [occur].
  - destruct (act_block w act) as (b & H & Hb).
    exists b. split; [done|by apply sequenced_block].
  - rewrite complete_answering_only. apply grows_uncaught, Iframe_saveSettings_grows.
  - apply grows_uncaught, closeSettings_grows.
  - apply grows_uncaught, saveSettings_grows.
Qed.

Lemma course_grows l : ∀ w, grows w (course w l).
Proof.
  induction l as [|o l IH]; intros w; [by apply grows_same|].
  cbn. eapply grows_trans; [apply occur_grows|apply IH].
Qed.

Lemma starts_over_listening w w1 baseUrl token :
  trace w1 = (trace w ++ [Navigate "about:blank"])%list →
  localStorage w1 = localStorage w →
  listener w1 = Some (onFirstLoad_closure baseUrl token) →
  starts_over w w1 baseUrl token.
Proof.
  intros Ht Hs Hl. pose proof Hl as Hl'. unfold listener in Hl'.
  destruct (document w1 !! "ha-dashboard") as [iframe|] eqn:Hi; [|done]. cbn in Hl'.
  destruct (fire_load_listening baseUrl token w1 iframe Hi Hl') as (H1 & H2 & _ & H4).
  assert (injection w1 baseUrl token = injection w baseUrl token) as Hinj
    by (unfold injection; by rewrite Hs).
  unfold starts_over. split; [by apply events_since_app|]. split; [done|].
  split; [done|].
  split; [rewrite <- Hinj; by apply events_since_app|].
  split; [rewrite H2; unfold after_injection; by rewrite Hs|]. by rewrite H4.
Qed.

Lemma call_starts_over serverUrl token w iframe :
  serverUrl ≠ "" → token ≠ "" →
  document w !! "ha-dashboard" = Some iframe →
  starts_over w (act w (Bootstrap serverUrl token))
    (Js.replace_trailing_slashes serverUrl) token.
Proof.
  intros Hu Ht Hi. cbn [act].
  rewrite (loadDashboard_bootstraps _ _ _ _ Hu Ht Hi). cbn [snd].
  apply starts_over_listening; [done|done|].
  unfold listener. by rewrite bootstrapping_listens.
Qed.

Lemma close_starts_over stored a w overlay iframe :
  document w !! "settings-overlay" = Some overlay →
  document w !! "ha-dashboard" = Some iframe →
  server_url stored ≠ "" → access_token stored ≠ "" →
  on_load_dashboard a = inr tt →
  starts_over w (occur w (Close stored a))
    (Js.replace_trailing_slashes (server_url stored)) (access_token stored).
Proof.
  intros Ho Hi Hu Ht Ha. cbn [occur].
  unfold closeSettings, classList_add, load_dashboard_command.
  repeat first [rewrite Ho|rewrite Ha|progress cbn -[loadDashboard]].
  unfold load_dashboard_command.
  erewrite (loadDashboard_bootstraps _ _ _ iframe Hu Ht);
    [|by cbn; rewrite lookup_insert_ne].
  cbn -[bootstrapping].
  apply starts_over_listening; [done|done|].
  unfold listener. by rewrite bootstrapping_listens.
Qed.

Lemma hiding_keeps_listener w :
  trace (Iframe.closeSettings w).2 = trace w ∧
  localStorage (Iframe.closeSettings w).2 = localStorage w ∧
  listener (Iframe.closeSettings w).2 = listener w.
Proof.
  unfold Iframe.closeSettings, classList_add, listener, read, write, bind.
  destruct (document w !! "settings-overlay") as [o|] eqn:Eo; cbn; [|done].
  rewrite ?Eo. cbn. by rewrite lookup_insert_ne.
Qed.

Lemma save_starts_over a w s url tok interval lang auto iframe :
  currentSettings w = Some s →
  document w !! "settings-server-url" = Some url →
  document w !! "settings-token" = Some tok →
  document w !! "settings-interval" = Some interval →
  document w !! "settings-language" = Some lang →
  document w !! "settings-autostart" = Some auto →
  document w !! "ha-dashboard" = Some iframe →
  Js.trim (value url) ≠ server_url s →
  Js.trim (value url) ≠ "" → Js.trim (value tok) ≠ "" →
  on_save_settings a = inr tt →
  starts_over w (occur w (IframeSave a))
    (Js.replace_trailing_slashes (Js.trim (value url))) (Js.trim (value tok)).
Proof.
  intros Hc H1 H2 H3 H4 H5 Hi Hne Hu Ht Ha. cbn [occur].
  unfold Iframe.saveSettings.
  repeat first
    [ rewrite H1 | rewrite H2 | rewrite H3 | rewrite H4 | rewrite H5 | rewrite Ha
    | progress cbn -[setLanguage loadDashboard Iframe.closeSettings] ].
  destruct (setLanguage_runs (value lang) w) as (cur & extra & ->).
  cbn -[setLanguage loadDashboard Iframe.closeSettings].
  rewrite Hc. rewrite (bool_decide_true _ Hne).
  erewrite (loadDashboard_bootstraps _ _ _ (relabel cur iframe) Hu Ht);
    [|by cbn; rewrite lookup_fmap, Hi].
  set (w1 := bootstrapping _ _ _ _).
  assert (trace w1 = (trace w ++ [Navigate "about:blank"])%list) as T1 by done.
  assert (localStorage w1 = localStorage w) as T2 by done.
  assert (listener w1 = Some (onFirstLoad_closure
            (Js.replace_trailing_slashes (Js.trim (value url))) (Js.trim (value tok)))) as T3
    by (unfold listener; subst w1; by rewrite bootstrapping_listens).
  clearbody w1. cbn -[Iframe.closeSettings].
  destruct (hiding_keeps_listener w1) as (K1 & K2 & K3).
  destruct (Iframe.closeSettings w1) as [[e|[]] w2]; cbn [snd] in K1, K2, K3;
    cbn; apply starts_over_listening; unfold listener in *; cbn; congruence.
Qed.

Lemma field_element {X} k (F : element → X) w x :
  field k F w = Some x → ∃ e, document w !! k = Some e ∧ F e = x.
Proof.
  unfold field. destruct (document w !! k) as [e|]; [|done].
  intros [= <-]. by exists e.
Qed.

(** C9.  Whatever the state of the view is (whatever its storage holds and
    whatever was loaded before), every occasion that invokes the bootstrap
    again starts it over: the view is sent to the blank page and only the
    listener is installed, the storage being left as it is, and the [load]
    event then runs the injection step and the navigation to the base URL.
    This is so for a call of [loadDashboard], for saving the settings with
    another server URL (settings.js in the version with the [iframe], which
    calls [loadDashboard] itself), and for closing the settings dialogue
    (settings.js in the version that invokes [load_dashboard], the backend
    running the bootstrap on the stored settings).  And in every course of
    such occasions and [load] events, no navigation away from the blank
    page comes but right after a load signal and the end of an injection
    step. *)
Theorem bootstrap_repeats_in_full :
  (∀ serverUrl token w,
     serverUrl ≠ "" → token ≠ "" →
     is_Some (document w !! "ha-dashboard") →
     starts_over w (occur w (Direct (Bootstrap serverUrl token)))
       (Js.replace_trailing_slashes serverUrl) token) ∧
  (∀ a w s url token,
     currentSettings w = Some s →
     field "settings-server-url" value w = Some url →
     field "settings-token" value w = Some token →
     is_Some (document w !! "settings-interval") →
     is_Some (document w !! "settings-language") →
     is_Some (document w !! "settings-autostart") →
     is_Some (document w !! "ha-dashboard") →
     Js.trim url ≠ server_url s →
     Js.trim url ≠ "" → Js.trim token ≠ "" →
     on_save_settings a = inr tt →
     starts_over w (occur w (IframeSave a))
       (Js.replace_trailing_slashes (Js.trim url)) (Js.trim token)) ∧
  (∀ stored a w,
     is_Some (document w !! "settings-overlay") →
     is_Some (document w !! "ha-dashboard") →
     server_url stored ≠ "" → access_token stored ≠ "" →
     on_load_dashboard a = inr tt →
     starts_over w (occur w (Close stored a))
       (Js.replace_trailing_slashes (server_url stored)) (access_token stored)) ∧
  (∀ w l i url,
     events_since w (course w l) !! i = Some (Navigate url) →
     url ≠ "about:blank" →
     ∃ j o, i = S (S j) ∧
            events_since w (course w l) !! j = Some LoadSignal ∧
            events_since w (course w l) !! S j = Some o ∧ injection_outcome o).
Proof.
  split; [|split; [|split]].
  - intros serverUrl token w Hu Ht [iframe Hi]. by apply (call_starts_over _ _ _ iframe).
  - intros a w s url token Hc (eu & H1 & <-)%field_element (et & H2 & <-)%field_element
      [ei H3] [el H4] [ea H5] [iframe Hi] Hne Hu Ht Ha.
    by apply (save_starts_over a w s eu et ei el ea iframe).
  - intros stored a w [overlay Ho] [iframe Hi] Hu Ht Ha.
    by apply (close_starts_over stored a w overlay iframe).
  - intros w l i url Hi Hu.
    destruct (course_grows l w) as (new & Hn & Hs).
    rewrite (events_since_app _ _ _ Hn) in *.
    by apply (sequenced_navigation new i url).
Qed.

Lemma bootstrap_repeats_in_full_witness :
  let stored := registered_settings in
  let closed := occur dashboard_shown (Close stored (answering stored [])) in
  events_since dashboard_shown closed = [Navigate "about:blank"] ∧
  localStorage closed = localStorage dashboard_shown ∧
  events_since closed (fire_load closed) =
    [ LoadSignal;
      Injected "hassTokens" (hassTokens_text "http://ha.local:8123" "ey.abc");
      Navigate "http://ha.local:8123" ].
Proof.
  intros stored closed.
  destruct bootstrap_repeats_in_full as (_ & _ & Hclose & _).
  destruct (Hclose stored (answering stored []) dashboard_shown)
    as (H1 & H2 & _ & H3 & _);
    [by vm_compute; eexists|by vm_compute; eexists|done|done|done|].
  split; [exact H1|]. split; [exact H2|]. exact H3.
Defined.

Example saving_another_url_starts_over :
  let a := answering registered_settings [] in
  let w := typed "settings-server-url" " http://ha.example:8123/ "
             (session fresh [OpenSettings a]) in
  let w1 := occur w (IframeSave a) in
  events_since w w1 = [Navigate "about:blank"] ∧
  listener w1 = Some (onFirstLoad_closure "http://ha.example:8123" "ey.abc") ∧
  events_since w1 (fire_load w1) =
    [ LoadSignal;
      Injected "hassTokens" (hassTokens_text "http://ha.example:8123" "ey.abc");
      Navigate "http://ha.example:8123" ].
Proof. by vm_compute. Qed.

Example saving_same_url_leaves_view :
  let a := answering registered_settings [] in
  let w := session fresh [OpenSettings a] in
  let w1 := occur w (IframeSave a) in
  events_since w w1 = [] ∧ listener w1 = listener w.
Proof. by vm_compute. Qed.

(** ** The check boxes of the sensor list *)

Lemma turn_effect s checkbox a c :
  under_way s = [] →
  created (ui s) !! checkbox = Some c →
  checkbox ∈ row_checkbox <$> rows (ui s) →
  turn s (checkbox, a) =
  match on_toggle_sensor a with
  | inr _ =>
      mkApp (with_created (<[checkbox := flipped c]> (created (ui s))) (ui s)) []
        (<[cb_sensor c := negb (cb_checked c)]> (persisted s))
  | inl e =>
      mkApp (with_console
               (console (ui s) ++ [mkEntry Error "Failed to toggle sensor:" (Some e)])
               (ui s)) []
        (persisted s)
  end.
Proof.
  intros Hu Hc Hin.
  assert (checkbox < length (created (ui s)))%nat as Hlt by (by eapply lookup_lt_Some).
  unfold turn, click. cbn [fst snd]. rewrite Hc, bool_decide_true by done.
  unfold on_change, get_checked, set_checked. cbn.
  rewrite list_lookup_insert_eq by done. cbn. rewrite Hu. cbn.
  destruct (on_toggle_sensor a) as [e|[]]; cbn.
  - repeat (rewrite list_lookup_insert_eq by done; cbn).
    rewrite list_insert_insert_eq. rewrite negb_involutive.
    destruct s as [w u p], w, c. cbn in *. rewrite list_insert_id by done. done.
  - done.
Qed.

Lemma turn_idle s t :
  under_way s = [] →
  created (ui s) !! t.1 = None ∨ t.1 ∉ row_checkbox <$> rows (ui s) →
  turn s t = s.
Proof.
  intros Hu H. unfold turn, click.
  destruct (created (ui s) !! t.1) as [c|] eqn:Hc.
  - destruct H as [|H]; [done|]. rewrite bool_decide_false by done.
    unfold settle. by rewrite Hu.
  - unfold settle. by rewrite Hu.
Qed.

Lemma displayed_elem w sensorId enabled :
  (sensorId, enabled) ∈ displayed w ↔
  ∃ r c, r ∈ rows w ∧ created w !! row_checkbox r = Some c ∧
         cb_sensor c = sensorId ∧ cb_checked c = enabled.
Proof.
  unfold displayed. rewrite list_elem_of_omap. split.
  - intros (r & Hr & Hf). destruct (created w !! row_checkbox r) as [c|] eqn:Hc; [|done].
    injection Hf as <- <-. by exists r, c.
  - intros (r & c & Hr & Hc & <- & <-). exists r. by rewrite Hc.
Qed.

(** A failed toggle, answered before anything else happens, leaves the
    check boxes and what is persisted as they were before the change. *)
Lemma failed_turn_reverts s checkbox a e :
  under_way s = [] →
  on_toggle_sensor a = inl e →
  created (ui (turn s (checkbox, a))) = created (ui s) ∧
  rows (ui (turn s (checkbox, a))) = rows (ui s) ∧
  persisted (turn s (checkbox, a)) = persisted s ∧
  under_way (turn s (checkbox, a)) = [].
Proof.
  intros Hu Ha.
  destruct (created (ui s) !! checkbox) as [c|] eqn:Hc;
    [destruct (decide (checkbox ∈ row_checkbox <$> rows (ui s))) as [Hin|Hin]|].
  - rewrite (turn_effect s checkbox a c Hu Hc Hin), Ha. done.
  - rewrite turn_idle by (cbn; auto). done.
  - rewrite turn_idle by (cbn; auto). done.
Qed.

Lemma turn_keeps_in_sync s t :
  under_way s = [] → in_sync s → one_checkbox_per_sensor (ui s) →
  under_way (turn s t) = [] ∧ in_sync (turn s t) ∧ one_checkbox_per_sensor (ui (turn s t)).
Proof.
  intros Hu Hs Ho. destruct t as [checkbox a].
  destruct (created (ui s) !! checkbox) as [c|] eqn:Hc;
    [destruct (decide (checkbox ∈ row_checkbox <$> rows (ui s))) as [Hin|Hin]|];
    [|by rewrite turn_idle by (cbn; auto)..].
  rewrite (turn_effect s checkbox a c Hu Hc Hin).
  destruct (on_toggle_sensor a) as [e|[]]; [done|].
  assert (checkbox < length (created (ui s)))%nat as Hlt by (by eapply lookup_lt_Some).
  apply list_elem_of_fmap in Hin as (r0 & Hr0 & Hin).
  split; [done|]. split.
  - intros sensorId enabled (r & c' & Hr & Hc' & <- & <-)%displayed_elem.
    cbn in Hr, Hc'. cbn [persisted].
    destruct (decide (row_checkbox r = checkbox)) as [Heq|Hne].
    + rewrite Heq, list_lookup_insert_eq in Hc' by done.
      injection Hc' as <-. cbn. by rewrite lookup_insert_eq.
    + rewrite list_lookup_insert_ne in Hc' by done.
      rewrite lookup_insert_ne.
      * apply Hs, displayed_elem. by exists r, c'.
      * intros Heq. apply Hne. rewrite Hr0.
        apply (Ho r r0 c' c); try done. by rewrite <- Hr0.
  - intros r1 r2 c1 c2 Hr1 Hr2 H1 H2 Hsame. cbn in Hr1, Hr2, H1, H2.
    assert (∀ i c', <[checkbox:=flipped c]> (created (ui s)) !! i = Some c' →
                    ∃ c0, created (ui s) !! i = Some c0 ∧ cb_sensor c0 = cb_sensor c')
      as Hback.
    { intros i c' Hi. destruct (decide (i = checkbox)) as [->|Hne].
      - rewrite list_lookup_insert_eq in Hi by done. injection Hi as <-. by exists c.
      - rewrite list_lookup_insert_ne in Hi by done. by exists c'. }
    destruct (Hback _ _ H1) as (c1' & H1' & E1), (Hback _ _ H2) as (c2' & H2' & E2).
    apply (Ho r1 r2 c1' c2'); try done. congruence.
Qed.

Lemma turns_keep_in_sync ts : ∀ s,
  under_way s = [] → in_sync s → one_checkbox_per_sensor (ui s) →
  under_way (turns s ts) = [] ∧ in_sync (turns s ts) ∧
  one_checkbox_per_sensor (ui (turns s ts)).
Proof.
  induction ts as [|t ts IH]; intros s Hu Hs Ho; [done|].
  cbn [turns fold_left].
  destruct (turn_keeps_in_sync s t Hu Hs Ho) as (? & ? & ?). by apply IH.
Qed.

Lemma append_row_runs s w e :
  document w !! "sensor-list" = Some e →
  append_row s w =
  (inr tt,
   with_document
     (<["sensor-list" :=
          with_children (children e ++ [row_of (currentLanguage w) (length (created w)) s]) e]>
        (document w))
     (with_created (created w ++ [checkbox_of s]) w)).
Proof.
  intros He. unfold append_row, t, row_of, checkbox_of. js_run.
  destruct (sensor_updates_at_interval s); js_run; done.
Qed.


Lemma for_of_append_row l : ∀ w e,
  document w !! "sensor-list" = Some e →
  ∃ w',
    for_of l append_row w = (inr tt, w') ∧
    created w' = (created w ++ (checkbox_of <$> l))%list ∧
    rows w' = (children e ++ rows_from (currentLanguage w) (length (created w)) l)%list.
Proof.
  induction l as [|s l IH]; intros w e He.
  - exists w. unfold rows. rewrite He, !app_nil_r. done.
  - cbn [for_of]. unfold bind. rewrite (append_row_runs s w e He).
    match goal with
    | |- context [for_of l append_row ?w1] =>
        edestruct (IH w1) as (w' & Hf & Hc & Hr); [cbn; apply lookup_insert_eq|]
    end.
    rewrite Hf. exists w'. split; [done|]. rewrite Hc, Hr. cbn.
    rewrite <- !app_assoc, length_app. cbn.
    by rewrite Nat.add_1_r.
Qed.

Lemma displayed_rows_from cur l : ∀ pre rest w,
  created w = (pre ++ (checkbox_of <$> l) ++ rest)%list →
  omap (λ r, (λ c, (cb_sensor c, cb_checked c)) <$> created w !! row_checkbox r)
       (rows_from cur (length pre) l) =
  (λ s, (sensor_id s, sensor_enabled s)) <$> l.
Proof.
  induction l as [|s l IH]; intros pre rest w Hc; [done|].
  cbn [rows_from omap list_omap fmap list_fmap row_of row_checkbox].
  rewrite Hc at 1. rewrite lookup_app_r by lia. rewrite Nat.sub_diag. cbn.
  f_equal. specialize (IH (pre ++ [checkbox_of s])%list rest w).
  rewrite length_app, Nat.add_1_r in IH. apply IH.
  rewrite Hc, <- app_assoc. done.
Qed.

Lemma populateSensorList_runs a w e sensors :
  on_get_sensor_list a = inr sensors →
  document w !! "sensor-list" = Some e →
  ∃ w',
    complete a (populateSensorList w) = (inr tt, w') ∧
    created w' = (created w ++ (checkbox_of <$> sensors))%list ∧
    rows w' = rows_from (currentLanguage w) (length (created w)) sensors.
Proof.
  intros Ha He. unfold populateSensorList. cbn -[for_of]. rewrite Ha. js_run.
  match goal with
  | |- context [for_of sensors append_row ?w1] =>
      edestruct (for_of_append_row sensors w1) as (w' & Hf & Hc & Hr);
        [cbn; apply lookup_insert_eq|]
  end.
  rewrite Hf. cbn. exists w'. split; [done|]. by rewrite Hc, Hr.
Qed.

Lemma rows_from_elem cur r l : ∀ n,
  r ∈ rows_from cur n l →
  ∃ i s, l !! i = Some s ∧ row_checkbox r = (n + i)%nat.
Proof.
  induction l as [|s l IH]; intros n Hr; [by apply elem_of_nil in Hr|].
  cbn [rows_from] in Hr. apply elem_of_cons in Hr as [->|Hr].
  - exists 0%nat, s. split; [done|]. cbn. lia.
  - destruct (IH _ Hr) as (i & s' & Hi & ->). exists (S i), s'. split; [done|]. lia.
Qed.

(** After [populateSensorList] the list displays the sensors as the backend
    answered them, and sensors with distinct ids have a check box each. *)
Lemma populated_displays a w e sensors :
  on_get_sensor_list a = inr sensors →
  document w !! "sensor-list" = Some e →
  let w' := (complete a (populateSensorList w)).2 in
  displayed w' = (λ s, (sensor_id s, sensor_enabled s)) <$> sensors ∧
  (NoDup (sensor_id <$> sensors) → one_checkbox_per_sensor w').
Proof.
  intros Ha He w'. subst w'.
  destruct (populateSensorList_runs a w e sensors Ha He) as (w' & -> & Hc & Hr).
  cbn [snd]. split.
  - unfold displayed. rewrite Hr.
    apply (displayed_rows_from _ _ _ []). by rewrite app_nil_r.
  - intros Hnd r1 r2 c1 c2 Hr1 Hr2 H1 H2 Hs. rewrite Hr in Hr1, Hr2.
    apply rows_from_elem in Hr1 as (i1 & s1 & Hi1 & E1).
    apply rows_from_elem in Hr2 as (i2 & s2 & Hi2 & E2).
    rewrite E1, E2 in *. rewrite Hc in H1, H2.
    rewrite lookup_app_r in H1, H2 by lia.
    replace (length (created w) + i1 - length (created w))%nat with i1 in H1 by lia.
    replace (length (created w) + i2 - length (created w))%nat with i2 in H2 by lia.
    rewrite list_lookup_fmap in H1, H2. rewrite Hi1 in H1. rewrite Hi2 in H2.
    injection H1 as <-. injection H2 as <-. cbn in Hs.
    f_equal. eapply NoDup_lookup; [exact Hnd|..];
      rewrite list_lookup_fmap; [by rewrite Hi1|by rewrite Hi2, Hs].
Qed.

Lemma populated_in_sync a w e sensors :
  on_get_sensor_list a = inr sensors →
  document w !! "sensor-list" = Some e →
  NoDup (sensor_id <$> sensors) →
  under_way (populated a w sensors) = [] ∧
  in_sync (populated a w sensors) ∧
  one_checkbox_per_sensor (ui (populated a w sensors)).
Proof.
  intros Ha He Hnd. destruct (populated_displays a w e sensors Ha He) as (Hd & Ho).
  split; [done|]. split; [|by apply Ho].
  intros sensorId enabled Hin. unfold populated in *. cbn [ui persisted] in *.
  rewrite Hd in Hin.
  apply elem_of_list_to_map_1; [|done].
  by rewrite <- list_fmap_compose.
Qed.

(** X22.  Start with no command under way, what is displayed matching what
    is persisted and every sensor having one check box, as it is right after
    [populateSensorList] ([populated_in_sync]).
    When every change of a check box is answered before anything else
    happens, then after any number of changes no command is under way and
    the displayed enablement of every sensor is the persisted one; and a
    change whose [toggle_sensor] fails leaves the check boxes, and what is
    persisted, as they were before the change. *)
Theorem sequential_toggles_stay_in_sync s ts :
  under_way s = [] → in_sync s → one_checkbox_per_sensor (ui s) →
  let s' := turns s ts in
  under_way s' = [] ∧ in_sync s' ∧
  ∀ checkbox a e,
    on_toggle_sensor a = inl e →
    created (ui (turn s' (checkbox, a))) = created (ui s') ∧
    displayed (ui (turn s' (checkbox, a))) = displayed (ui s') ∧
    persisted (turn s' (checkbox, a)) = persisted s' ∧
    under_way (turn s' (checkbox, a)) = [].
Proof.
  intros Hu Hs Ho s'.
  destruct (turns_keep_in_sync ts s Hu Hs Ho) as (Hu' & Hs' & _).
  split; [done|]. split; [done|].
  intros checkbox a e Ha.
  destruct (failed_turn_reverts s' checkbox a e Hu' Ha) as (H1 & H2 & H3 & H4).
  repeat split; try done. unfold displayed. by rewrite H1, H2.
Qed.

Lemma panel_in_sync : in_sync panel.
Proof.
  intros sensorId enabled. vm_compute. intros H.
  repeat (apply elem_of_cons in H as [[= -> ->]|H]; [reflexivity|]).
  by apply elem_of_nil in H.
Qed.

Lemma panel_one_checkbox_per_sensor : one_checkbox_per_sensor (ui panel).
Proof.
  intros r1 r2 c1 c2. vm_compute. intros Hr1 Hr2.
  apply elem_of_cons in Hr1 as [->|Hr1];
    [|apply elem_of_cons in Hr1 as [->|Hr1]; [|by apply elem_of_nil in Hr1]];
    (apply elem_of_cons in Hr2 as [->|Hr2];
     [|apply elem_of_cons in Hr2 as [->|Hr2]; [|by apply elem_of_nil in Hr2]]);
    intros [= <-] [= <-]; congruence.
Qed.

Lemma sequential_toggles_stay_in_sync_witness :
  let s' := turns panel
              [ (0%nat, answering registered_settings two_sensors);
                (1%nat, failing_toggle "disk full");
                (0%nat, failing_toggle "disk full") ] in
  under_way s' = [] ∧ in_sync s'.
Proof.
  destruct (sequential_toggles_stay_in_sync panel
              [ (0%nat, answering registered_settings two_sensors);
                (1%nat, failing_toggle "disk full");
                (0%nat, failing_toggle "disk full") ])
    as (H1 & H2 & _).
  - reflexivity.
  - exact panel_in_sync.
  - exact panel_one_checkbox_per_sensor.
  - split; [exact H1|exact H2].
Defined.

(** C10.  The listener of a check box does not restore the state the box
    had before a change whose [toggle_sensor] fails: it flips the state the
    box has when the failure arrives.  On the panel, where [cpu_usage] is
    enabled, the box of [cpu_usage] is unchecked and, before the first
    command is answered, checked again; then the first command fails and the
    second succeeds.  When the failure arrives the box, checked by the
    second change, gets unchecked; and with both commands answered and
    nothing under way the box shows the sensor disabled while it is
    persisted as enabled. *)
Theorem overlapping_toggle_not_reverted :
  let changes := [Click 0; Click 0] in
  let failed := (changes ++ [Settle 0 (failing_toggle "disk full")])%list in
  let answered := (failed ++ [Settle 0 (answering registered_settings two_sensors)])%list in
  displayed (ui panel) = [("cpu_usage", true); ("os_version", false)] ∧
  persisted panel !! "cpu_usage" = Some true ∧
  displayed (ui (plays panel [Click 0])) = [("cpu_usage", false); ("os_version", false)] ∧
  displayed (ui (plays panel changes)) = [("cpu_usage", true); ("os_version", false)] ∧
  displayed (ui (plays panel failed)) = [("cpu_usage", false); ("os_version", false)] ∧
  under_way (plays panel answered) = [] ∧
  displayed (ui (plays panel answered)) = [("cpu_usage", false); ("os_version", false)] ∧
  persisted (plays panel answered) !! "cpu_usage" = Some true ∧
  ¬ in_sync (plays panel answered) ∧
  ¬ in_sync_at_rest panel.
Proof.
  intros changes failed answered.
  assert (¬ in_sync (plays panel answered)) as Hout.
  { intros H. specialize (H "cpu_usage" false).
    assert (Some true = Some false) as [=]. apply H. vm_compute. constructor. }
  repeat (split; [first [exact Hout|by vm_compute]|]).
  intros H. apply Hout, H. by vm_compute.
Qed.

(** * Further properties of the scripts *)

(** ** Numbers as texts *)

Lemma digit_value_pretty_N_char d :
  (d < 10)%N → Js.digit_value 10 (pretty_N_char d) = Some (Z.of_N d).
Proof.
  intros H.
  assert (d = 0 ∨ d = 1 ∨ d = 2 ∨ d = 3 ∨ d = 4 ∨ d = 5 ∨ d = 6 ∨ d = 7 ∨ d = 8 ∨ d = 9)%N
    as Hd by lia.
  repeat destruct Hd as [->|Hd]; try subst d; reflexivity.
Qed.

Lemma leading_digits_pretty_N_go x : ∀ s,
  Js.leading_digits 10 (pretty_N_go x s) None =
  Js.leading_digits 10 s (if decide (x = 0%N) then None else Some (Z.of_N x)).
Proof.
  induction (N.lt_wf_0 x) as [x _ IH]. intros s.
  destruct (decide (x = 0%N)) as [->|Hx]; [done|].
  rewrite pretty_N_go_step by lia.
  rewrite IH by (apply N.div_lt; lia).
  cbn [Js.leading_digits].
  rewrite digit_value_pretty_N_char by (apply N.mod_lt; lia).
  f_equal. f_equal.
  pose proof (N.div_mod x 10 ltac:(lia)) as Hdm.
  destruct (decide (x `div` 10 = 0)%N) as [E|E]; cbn [default]; unfold id; lia.
Qed.

Lemma pretty_N_go_head x : ∀ s,
  (0 < x)%N → ∃ c r, pretty_N_go x s = String c r ∧ nonzero_digit c = true.
Proof.
  induction (N.lt_wf_0 x) as [x _ IH]. intros s Hx.
  rewrite pretty_N_go_step by done.
  destruct (decide (x `div` 10 = 0)%N) as [E|E].
  - rewrite E, pretty_N_go_0. eexists _, _. split; [done|].
    assert (x < 10)%N
      by (pose proof (N.div_mod x 10 ltac:(lia)); pose proof (N.mod_lt x 10 ltac:(lia)); lia).
    rewrite N.mod_small by done.
    assert (x = 1 ∨ x = 2 ∨ x = 3 ∨ x = 4 ∨ x = 5 ∨ x = 6 ∨ x = 7 ∨ x = 8 ∨ x = 9)%N
      as Hd by lia.
    repeat destruct Hd as [->|Hd]; try subst x; reflexivity.
  - apply IH; [apply N.div_lt; lia|by apply N.neq_0_lt_0].
Qed.

Lemma nonzero_digit_cases c :
  nonzero_digit c = true →
  c ∈ map ascii_of_N [49; 50; 51; 52; 53; 54; 55; 56; 57]%N.
Proof.
  intros Hc. unfold nonzero_digit in Hc.
  apply andb_prop in Hc as [?%N.leb_le ?%N.leb_le].
  rewrite <- (ascii_N_embedding c).
  assert (N_of_ascii c = 49 ∨ N_of_ascii c = 50 ∨ N_of_ascii c = 51 ∨ N_of_ascii c = 52 ∨
          N_of_ascii c = 53 ∨ N_of_ascii c = 54 ∨ N_of_ascii c = 55 ∨ N_of_ascii c = 56 ∨
          N_of_ascii c = 57)%N as Hd by lia.
  repeat destruct Hd as [->|Hd]; try rewrite Hd; cbn [map]; set_solver.
Qed.

Ltac parseInt_head r :=
  unfold Js.integer_read, Js.trimStart; cbn [String.length Js.drop_leading];
  match goal with
  | |- context [Js.first_stripped Js.white_space ?s] =>
      change (Js.first_stripped Js.white_space s) with (@None string)
  end;
  cbn;
  match goal with
  | |- match ?X with _ => _ end = _ => destruct X as [?|]; [cbn; f_equal; lia|done]
  end.

Lemma parseInt_nonzero_digit c r :
  nonzero_digit c = true →
  Js.integer_read (String c r) = Js.leading_digits 10 (String c r) None.
Proof.
  intros Hc%nonzero_digit_cases. cbn [map] in Hc.
  repeat (apply elem_of_cons in Hc as [->|Hc]; [parseInt_head r|]).
  by apply elem_of_nil in Hc.
Qed.

Lemma parseInt_minus_nonzero_digit c r :
  nonzero_digit c = true →
  Js.integer_read (String "-" (String c r)) = Z.opp <$> Js.leading_digits 10 (String c r) None.
Proof.
  intros Hc%nonzero_digit_cases. cbn [map] in Hc.
  repeat (apply elem_of_cons in Hc as [->|Hc]; [parseInt_head r|]).
  by apply elem_of_nil in Hc.
Qed.

Lemma pretty_N_go_app x : ∀ s rest, pretty_N_go x s ++ rest = pretty_N_go x (s ++ rest).
Proof.
  induction (N.lt_wf_0 x) as [x _ IH]. intros s rest.
  destruct (decide (x = 0%N)) as [->|Hx]; [by rewrite !pretty_N_go_0|].
  rewrite (pretty_N_go_step x s), (pretty_N_go_step x (s ++ rest)) by lia.
  by rewrite IH by (apply N.div_lt; lia).
Qed.

Lemma leading_digits_stop z rest :
  ends_number z rest = true → Js.leading_digits 10 rest (Some z) = Some z.
Proof.
  destruct rest as [|c r]; [done|]. cbn.
  by destruct (Js.digit_value 10 c).
Qed.

(** [parseInt] reads back a number written in decimal, whatever follows it
    that is no part of a number. *)
Lemma parseInt_pretty_app z rest :
  ends_number z rest = true → Js.integer_read (pretty z ++ rest) = Some z.
Proof.
  intros Hrest.
  assert (∀ p, ends_number (Zpos p) rest = true →
            ∃ c r, pretty (Npos p) ++ rest = String c r ∧ nonzero_digit c = true ∧
                   Js.leading_digits 10 (String c r) None = Some (Zpos p)) as Hpos.
  { intros p Hp. unfold pretty, pretty_N. rewrite decide_False by done.
    rewrite pretty_N_go_app. change ("" ++ rest) with rest.
    destruct (pretty_N_go_head (Npos p) rest) as (c & r & E & Hc); [done|].
    exists c, r. split; [done|]. split; [done|].
    rewrite <- E, leading_digits_pretty_N_go, decide_False by done.
    by apply leading_digits_stop. }
  destruct z as [|p|p].
  - change (pretty 0 ++ rest) with (String "0" rest).
    destruct rest as [|c r]; [done|].
    cbn in Hrest. destruct (Js.digit_value 10 c) eqn:Hd; [done|].
    unfold Js.integer_read, Js.trimStart. cbn [String.length Js.drop_leading].
    change (Js.first_stripped Js.white_space (String "0" (String c r))) with (@None string).
    apply negb_true_iff, orb_false_elim in Hrest as [Hx HX].
    rewrite Ascii.eqb_sym in Hx, HX.
    cbn -[Js.digit_value Ascii.eqb].
    change (Ascii.eqb "-" "0") with false. change (Ascii.eqb "+" "0") with false.
    change (Ascii.eqb "0" "0") with true.
    cbn -[Js.digit_value Ascii.eqb]. rewrite Hx, HX.
    cbn -[Js.digit_value]. by rewrite Hd.
  - destruct (Hpos p Hrest) as (c & r & E & Hc & Hv).
    change (pretty (Zpos p)) with (pretty (Npos p)).
    by rewrite E, parseInt_nonzero_digit.
  - destruct (Hpos p) as (c & r & E & Hc & Hv).
    { destruct rest as [|c r]; [done|]. cbn in *. by destruct (Js.digit_value 10 c). }
    change (pretty (Zneg p)) with ("-" +:+ pretty (Npos p)).
    change (("-" +:+ pretty (Npos p)) ++ rest) with (String "-" (pretty (Npos p) ++ rest)).
    rewrite E. by rewrite parseInt_minus_nonzero_digit, Hv.
Qed.

Lemma append_nil_r s : s ++ "" = s.
Proof.
  induction s as [|c s IH]; [done|].
  change (String c (s ++ "") = String c s). by rewrite IH.
Qed.

Lemma parseInt_pretty z : Js.integer_read (pretty z) = Some z.
Proof. rewrite <- (append_nil_r (pretty z)). by apply parseInt_pretty_app. Qed.

(** ** i18n.js *)

Lemma prop_Some_elem {A} key (obj : list (string * A)) v :
  prop key obj = Some v → (key, v) ∈ obj.
Proof.
  induction obj as [|[k x] obj IH]; [done|]. cbn.
  destruct (String.eqb_spec k key) as [->|_].
  - intros [= ->]. by left.
  - intros H. right. by apply IH.
Qed.

Lemma prop_is_Some {A} key (obj : list (string * A)) :
  is_Some (prop key obj) ↔ key ∈ obj.*1.
Proof.
  induction obj as [|[k x] obj IH]; cbn.
  - split; [by intros [? ?]|by intros ?%elem_of_nil].
  - destruct (String.eqb_spec k key) as [->|Hne].
    + split; [intros _; by left|by eexists].
    + rewrite IH. split; [by right|]. by intros [->|?]%elem_of_cons.
Qed.

Lemma tables_same_keys : en.*1 = nl.*1.
Proof. reflexivity. Qed.

Lemma tables_no_empty_text key text :
  (key, text) ∈ (en ++ nl)%list → text ≠ "".
Proof.
  assert (∀ kv : string * string, In kv (en ++ nl)%list → Js.truthy kv.2 = true) as H
    by (apply forallb_forall; by vm_compute).
  intros Hin%list_elem_of_In. apply truthy_true. exact (H _ Hin).
Qed.

Lemma translate_Some cur table key text :
  prop cur translations = Some table → prop key table = Some text → text ≠ "" →
  translate cur key = text.
Proof.
  intros Hc Hk Ht%truthy_true. unfold translate. rewrite Hc. cbv zeta. cbn [default]. unfold id. rewrite Hk. cbn.
  unfold Js.or_else. by rewrite Ht.
Qed.

(** X1.  The two tables translate the same keys and hold no empty text;
    hence, for a key of the tables, [t] answers with the text of the current
    language, English or Dutch, and never falls back. *)
Theorem tables_agree key :
  (is_Some (prop key en) ↔ is_Some (prop key nl)) ∧
  (∀ text, prop key en = Some text → text ≠ "" ∧ translate "en" key = text) ∧
  (∀ text, prop key nl = Some text → text ≠ "" ∧ translate "nl" key = text).
Proof.
  split; [by rewrite !prop_is_Some, tables_same_keys|].
  split; intros text Hk.
  - assert (text ≠ "") as Ht.
    { apply (tables_no_empty_text key), elem_of_app. left. by apply prop_Some_elem. }
    split; [done|]. by apply (translate_Some "en" en).
  - assert (text ≠ "") as Ht.
    { apply (tables_no_empty_text key), elem_of_app. right. by apply prop_Some_elem. }
    split; [done|]. by apply (translate_Some "nl" nl).
Qed.

Lemma supported_cases cur :
  (prop cur translations = Some en ∧ cur = "en") ∨
  (prop cur translations = Some nl ∧ cur = "nl") ∨
  (prop cur translations = None ∧ cur ≠ "en" ∧ cur ≠ "nl").
Proof.
  unfold translations. cbn [prop].
  destruct (String.eqb_spec "en" cur) as [<-|?]; [by left|].
  destruct (String.eqb_spec "nl" cur) as [<-|?]; [right; by left|].
  right. right. by repeat split.
Qed.

Lemma translate_unsupported cur key :
  prop cur translations = None → translate cur key = translate "en" key.
Proof. intros H. unfold translate. by rewrite H. Qed.

Lemma translate_unknown cur key : prop key en = None → translate cur key = key.
Proof.
  intros He.
  assert (prop key nl = None) as Hn.
  { apply eq_None_not_Some. rewrite prop_is_Some, <- tables_same_keys, <- prop_is_Some.
    rewrite He. by intros [? ?]. }
  unfold translate.
  destruct (supported_cases cur) as [[-> _]|[[-> _]|[-> _]]]; cbv zeta; cbn [default]; unfold id;
    by rewrite ?He, ?Hn.
Qed.

Lemma translate_not_empty cur key : key ≠ "" → translate cur key ≠ "".
Proof.
  intros Hkey.
  assert (∀ table, table = en ∨ table = nl →
            or_undefined (prop key table) (or_undefined (prop key en) key) ≠ "") as H.
  { intros table Htable.
    assert (∀ text, prop key en = Some text → text ≠ "") as Hen.
    { intros text Hk. apply (tables_no_empty_text key), elem_of_app.
      left. by apply prop_Some_elem. }
    assert (or_undefined (prop key en) key ≠ "") as Hfall.
    { destruct (prop key en) as [text|] eqn:E; cbn; [|done].
      pose proof (Hen _ eq_refl) as Hne.
      unfold Js.or_else. by rewrite (proj2 (truthy_true text) Hne). }
    destruct (prop key table) as [text|] eqn:E; cbn; [|done].
    unfold Js.or_else. destruct (Js.truthy text) eqn:Ht; [by apply truthy_true|done]. }
  unfold translate.
  destruct (supported_cases cur) as [[-> _]|[[-> _]|[-> _]]]; cbv zeta; cbn [default]; unfold id;
    apply H; auto.
Qed.

(** X2.  For a language and a key whose names no object inherits: under a
    language without a table [t] answers as under English; for a key
    without an English text it answers with the key itself; and its answer
    to a key that is not empty is never empty. *)
Theorem t_falls_back cur key :
  cur ∉ inherited → key ∉ inherited →
  (prop cur translations = None → translate cur key = translate "en" key) ∧
  (prop key en = None → translate cur key = key) ∧
  (key ≠ "" → translate cur key ≠ "").
Proof.
  intros _ _. split; [apply translate_unsupported|].
  split; [apply translate_unknown|apply translate_not_empty].
Qed.

(** A text is none of the texts of a list that is written out. *)
Ltac not_among :=
  let H := fresh in
  intros H; repeat (apply elem_of_cons in H as [?|H]; [done|]); by apply elem_of_nil in H.

Lemma t_falls_back_witness :
  translate "fr" "disk_io" = translate "en" "disk_io" ∧
  translate "fr" "disk_io" = "disk_io" ∧
  translate "fr" "disk_io" ≠ "".
Proof.
  destruct (t_falls_back "fr" "disk_io") as (H1 & H2 & H3);
    [not_among..|].
  split; [by apply H1|]. split; [by apply H2|by apply H3].
Defined.

Lemma relabel_relabel a b e : relabel b (relabel a e) = relabel b e.
Proof.
  unfold relabel. destruct e as [tg [key|] ty v c tx cl s o ch]; cbn; [|done].
  destruct (bool_decide (tg = "INPUT") && negb (bool_decide (ty = "checkbox"))) eqn:E1;
    cbn; rewrite ?E1; [done|].
  destruct (bool_decide (tg ∈ relabelled_tags)) eqn:E2; cbn; rewrite ?E1, ?E2; done.
Qed.

(** What [updateUITranslations] makes of an element: only its text may
    change, and it does for the labelled elements of the eight tags. *)
Lemma relabel_effect cur e :
  relabel cur e = with_textContent (textContent (relabel cur e)) e ∧
  (∀ key, data_i18n e = Some key → tagName e ∈ relabelled_tags →
     textContent (relabel cur e) = translate cur key) ∧
  (data_i18n e = None ∨ tagName e ∉ relabelled_tags → relabel cur e = e).
Proof.
  unfold relabel. destruct e as [tg [key|] ty v c tx cl s o ch]; cbn.
  - destruct (decide (tg ∈ relabelled_tags)) as [Hin|Hout].
    + assert (bool_decide (tg = "INPUT") = false) as ->.
      { apply bool_decide_eq_false. intros ->. revert Hin. not_among. }
      cbn [andb]. rewrite (bool_decide_true _ Hin). cbn.
      split; [done|]. split; [by intros ? [= ->]|]. by intros [|].
    + rewrite (bool_decide_false _ Hout).
      destruct (bool_decide (tg = "INPUT") && negb (bool_decide (ty = "checkbox"))); cbn;
        (split; [done|]); (split; [by intros|done]).
  - split; [done|]. split; [done|done].
Qed.

Lemma setLanguage_world lang w :
  setLanguage lang w =
  (inr tt,
   let lang' := if supported lang then lang else "en" in
   mkWorld (relabel lang' <$> document w) (created w) (localStorage w)
     (console w ++
        (if supported lang then []
         else [mkEntry Warn ("Language '" ++ lang ++ "' not supported, falling back to 'en'")
                 None]))
     (alerts w) lang' (currentSettings w) (trace w)).
Proof.
  unfold setLanguage, updateUITranslations, supported.
  destruct (prop lang translations) as [table|] eqn:E.
  - rewrite bool_decide_true by (apply prop_is_Some; by eexists).
    cbn. by rewrite app_nil_r.
  - rewrite bool_decide_false; [done|].
    rewrite <- prop_is_Some, E. by intros [? ?].
Qed.

(** X3.  For a language name no object inherits, [setLanguage] returns
    without an exception, makes the language current when [translations]
    has a table for it and English otherwise (logging one warning), and
    changes of the page only the text of the elements that carry a
    [data-i18n] key and whose tag is one of the eight relabelled ones: their
    text becomes the translation of the key (for a key whose name no object
    inherits).  No [input] is touched, and nothing else of the state
    changes. *)
Theorem setLanguage_relabels lang w :
  lang ∉ inherited →
  ∃ w',
    setLanguage lang w = (inr tt, w') ∧
    currentLanguage w' = (if supported lang then lang else "en") ∧
    (supported lang = true → console w' = console w) ∧
    (supported lang = false → ∃ warning, console w' = (console w ++ [warning])%list ∧
                                         entry_level warning = Warn) ∧
    (∀ id, document w !! id = None → document w' !! id = None) ∧
    (∀ id e, document w !! id = Some e →
       ∃ e', document w' !! id = Some e' ∧
             e' = with_textContent (textContent e') e ∧
             (∀ key, data_i18n e = Some key → key ∉ inherited →
                tagName e ∈ relabelled_tags →
                textContent e' = translate (currentLanguage w') key) ∧
             (data_i18n e = None ∨ tagName e ∉ relabelled_tags → e' = e) ∧
             (tagName e = "INPUT" → e' = e)) ∧
    created w' = created w ∧ localStorage w' = localStorage w ∧
    alerts w' = alerts w ∧ currentSettings w' = currentSettings w ∧ trace w' = trace w.
Proof.
  intros _. rewrite setLanguage_world. eexists. split; [done|]. cbn.
  split; [done|].
  split; [intros ->; by rewrite app_nil_r|].
  split; [intros ->; by eexists|].
  split; [intros id H; by rewrite lookup_fmap, H|].
  split; [|done].
  intros id e He. rewrite lookup_fmap, He. cbn. eexists. split; [done|].
  destruct (relabel_effect (if supported lang then lang else "en") e) as (H1 & H2 & H3).
  split; [done|]. split; [by intros key Hk _; apply H2|]. split; [done|].
  intros Hinput. apply H3. right. rewrite Hinput. not_among.
Qed.

Lemma setLanguage_relabels_witness :
  ∃ w',
    setLanguage "nl" fresh_labelled = (inr tt, w') ∧
    currentLanguage w' = "nl" ∧
    ∃ e', document w' !! "settings-save" = Some e' ∧
          textContent e' = translate (currentLanguage w') "save".
Proof.
  destruct (setLanguage_relabels "nl" fresh_labelled)
    as (w' & Hrun & Hcur & _ & _ & _ & Hdoc & _); [not_among|].
  exists w'. split; [exact Hrun|]. split; [exact Hcur|].
  destruct (Hdoc "settings-save" (labelled "BUTTON" "save" "Save") eq_refl)
    as (e' & He' & _ & Htext & _).
  exists e'. split; [exact He'|]. apply Htext; [reflexivity|not_among|].
  apply list_elem_of_In. vm_compute. tauto.
Defined.

(** X4.  The last language set wins: setting a language with a table and
    then a second language (of a name no object inherits) leaves the same
    state as setting the second one at once; in particular setting a
    language twice is setting it once. *)
Theorem last_language_wins a b w :
  supported a = true → b ∉ inherited →
  (setLanguage a;; setLanguage b) w = setLanguage b w.
Proof.
  intros Ha _. cbn [bind]. unfold bind. rewrite (setLanguage_world a w), Ha.
  rewrite !setLanguage_world. cbn. f_equal. f_equal.
  - rewrite <- map_fmap_compose. apply map_fmap_ext. intros id e _. cbn.
    apply relabel_relabel.
  - by rewrite app_nil_r.
Qed.

Lemma last_language_wins_witness :
  (setLanguage "nl";; setLanguage "en") fresh = setLanguage "en" fresh.
Proof. apply (last_language_wins "nl" "en" fresh); [reflexivity|not_among]. Defined.

(** ** main.js: the load listener and repeated calls *)

Lemma idle_loads n : ∀ w,
  listener w = None →
  run w (replicate n LoadFires) = with_trace (trace w ++ replicate n LoadSignal) w.
Proof.
  induction n as [|n IH]; intros w Hw.
  - cbn [replicate run fold_left]. rewrite app_nil_r. by destruct w.
  - cbn [replicate run fold_left act]. fold (run (fire_load w) (replicate n LoadFires)).
    assert (fire_load w = with_trace (trace w ++ [LoadSignal]) w) as ->.
    { apply fire_load_idle. intros iframe Hi. unfold listener in Hw.
      by rewrite Hi in Hw. }
    rewrite IH by done. cbn. by rewrite <- app_assoc.
Qed.

(** X5.  The listener of the bootstrap runs once: after a [load] event of
    the view, whatever it did, any number of further [load] events add
    their signals to the trace and change nothing else; no second write
    into the storage and no further navigation follow. *)
Theorem load_listener_runs_once w n :
  listener (fire_load w) = None ∧
  run (fire_load w) (replicate n LoadFires) =
  with_trace (trace (fire_load w) ++ replicate n LoadSignal) (fire_load w).
Proof.
  destruct (fire_load_listener w) as [Hl _]. split; [done|]. by apply idle_loads.
Qed.

(** X6.  A call of [loadDashboard] made while an earlier one still waits
    for the [load] event replaces it: the one listener that runs is that of
    the later call, so only the later URL and token are written into the
    storage and navigated to. *)
Theorem later_bootstrap_supersedes url1 token1 url2 token2 w iframe :
  url1 ≠ "" → token1 ≠ "" → url2 ≠ "" → token2 ≠ "" →
  document w !! "ha-dashboard" = Some iframe →
  let baseUrl := Js.replace_trailing_slashes url2 in
  let w' := run w [Bootstrap url1 token1; Bootstrap url2 token2; LoadFires] in
  events_since w w' =
    [ Navigate "about:blank"; Navigate "about:blank"; LoadSignal;
      injection w baseUrl token2; Navigate baseUrl ] ∧
  localStorage w' = after_injection w baseUrl token2 ∧
  listener w' = None.
Proof.
  intros Hu1 Ht1 Hu2 Ht2 Hi baseUrl w'. subst w'. cbn [run fold_left act].
  rewrite (loadDashboard_bootstraps _ _ _ _ Hu1 Ht1 Hi). cbn [snd].
  pose proof (bootstrapping_listens url1 token1 iframe w) as Hb1.
  rewrite (loadDashboard_bootstraps _ _ _ _ Hu2 Ht2 Hb1). cbn [snd].
  match goal with
  | |- context [fire_load ?w2] =>
      pose proof (bootstrapping_listens url2 token2
                    (with_onload
                       (Some (onFirstLoad_closure (Js.replace_trailing_slashes url1) token1))
                       (with_src "about:blank" iframe))
                    (bootstrapping url1 token1 iframe w)) as Hb2;
      destruct (fire_load_listening baseUrl token2 w2 _ Hb2 eq_refl) as (H1 & H2 & _ & H4);
      destruct (fire_load_listener w2) as [Hl _]
  end.
  split; [|by split].
  unfold events_since. rewrite H1. cbn. rewrite <- !app_assoc. cbn.
  by rewrite drop_app_length.
Qed.

Lemma later_bootstrap_supersedes_witness :
  events_since fresh
    (run fresh [ Bootstrap "http://old.local/" "old"; Bootstrap "http://ha.local:8123/" "abc";
                 LoadFires ]) =
  [ Navigate "about:blank"; Navigate "about:blank"; LoadSignal;
    Injected "hassTokens" (hassTokens_text "http://ha.local:8123" "abc");
    Navigate "http://ha.local:8123" ].
Proof.
  destruct (later_bootstrap_supersedes "http://old.local/" "old" "http://ha.local:8123/" "abc"
              fresh (tag "IFRAME")) as (H & _); [done..|reflexivity|].
  exact H.
Defined.

Lemma slashes_only_empty s :
  Js.replace_trailing_slashes s = "" ↔ forallb Js.is_slash (list_ascii_of_string s) = true.
Proof.
  split.
  - intros H. destruct (replace_trailing_slashes_prefix s) as (z & Hz & Hall).
    rewrite H in Hz. by rewrite Hz.
  - intros H. destruct s as [|c r]; [done|].
    cbn [Js.replace_trailing_slashes].
    by rewrite slashes_to_end_forallb, H.
Qed.

(** X7.  The base URL is empty exactly for a server URL made of slashes
    only.  Such a URL is not empty, so it passes the guard of
    [loadDashboard], and the bootstrap then stores the empty URL and sends
    the view to the empty address. *)
Theorem slashes_only_server_url serverUrl token w iframe :
  serverUrl ≠ "" → token ≠ "" →
  document w !! "ha-dashboard" = Some iframe →
  (Js.replace_trailing_slashes serverUrl = "" ↔
   forallb Js.is_slash (list_ascii_of_string serverUrl) = true) ∧
  (forallb Js.is_slash (list_ascii_of_string serverUrl) = true →
   let w' := run w [Bootstrap serverUrl token; LoadFires] in
   events_since w w' =
     [Navigate "about:blank"; LoadSignal; injection w "" token; Navigate ""] ∧
   src <$> document w' !! "ha-dashboard" = Some "").
Proof.
  intros Hu Ht Hi. split; [apply slashes_only_empty|].
  intros Hs%slashes_only_empty w'.
  destruct (bootstrap_then_load _ _ _ _ Hu Ht Hi) as (H1 & _ & _ & H4).
  fold w' in H1, H4. rewrite Hs in H1, H4. split; [done|]. by rewrite H4.
Qed.

Lemma slashes_only_server_url_witness :
  events_since fresh (run fresh [Bootstrap "//" "abc"; LoadFires]) =
  [ Navigate "about:blank"; LoadSignal;
    Injected "hassTokens" (hassTokens_text "" "abc"); Navigate "" ].
Proof.
  destruct (slashes_only_server_url "//" "abc" fresh (tag "IFRAME")) as (_ & H);
    [done|done|reflexivity|].
  destruct H as (H & _); [reflexivity|]. exact H.
Defined.

(** X8.  A call of [loadDashboard] without a URL or without a token hides
    the dashboard but does not withdraw the listener of an earlier call that
    still waits: the next [load] event runs the earlier bootstrap to its
    end and puts the dashboard on display again. *)
Theorem empty_call_keeps_pending_bootstrap url1 token1 url2 token2 w iframe container :
  url1 ≠ "" → token1 ≠ "" → url2 = "" ∨ token2 = "" →
  document w !! "ha-dashboard" = Some iframe →
  document w !! "dashboard-container" = Some container →
  let baseUrl := Js.replace_trailing_slashes url1 in
  let w1 := run w [Bootstrap url1 token1; Bootstrap url2 token2] in
  let w2 := act w1 LoadFires in
  dashboard_hidden w1 ∧
  listener w1 = Some (onFirstLoad_closure baseUrl token1) ∧
  events_since w w2 =
    [Navigate "about:blank"; LoadSignal; injection w baseUrl token1; Navigate baseUrl] ∧
  ¬ dashboard_hidden w2.
Proof.
  intros Hu1 Ht1 Hempty Hi Hc baseUrl w1 w2. subst w1 w2. cbn [run fold_left act].
  rewrite (loadDashboard_bootstraps _ _ _ _ Hu1 Ht1 Hi). cbn [snd].
  assert (negb (Js.truthy url2) || negb (Js.truthy token2) = true) as Hguard.
  { destruct Hempty as [->| ->]; [done|]. apply orb_true_r. }
  assert (∀ w0, loadDashboard url2 token2 w0 =
                classList_add "dashboard-container" "hidden" w0) as Hld
    by (intros w0; unfold loadDashboard; by rewrite Hguard).
  rewrite !Hld. clear Hld.
  unfold bootstrapping, dashboard_hidden, listener, events_since, fire_load, injection.
  cbn -[onFirstLoad]. js_run. cbn -[onFirstLoad]. js_run.
  unfold onFirstLoad.
  destruct (localStorage w) as [e|items] eqn:Hs; js_run;
    rewrite <- ?app_assoc, ?drop_app_length; cbn;
    (split; [eexists; split; [done|apply elem_of_add_token]|]);
    (split; [done|]); (split; [done|]);
    intros (c & [= <-] & Hin); by apply not_elem_of_remove_token in Hin.
Qed.

Lemma empty_call_keeps_pending_bootstrap_witness :
  let w1 := run fresh [Bootstrap "http://ha.local:8123/" "abc"; Bootstrap "" ""] in
  dashboard_hidden w1 ∧ ¬ dashboard_hidden (act w1 LoadFires).
Proof.
  destruct (empty_call_keeps_pending_bootstrap "http://ha.local:8123/" "abc" "" "" fresh
              (tag "IFRAME") (hidden (tag "DIV")))
    as (H1 & _ & _ & H4); [done|done|by left|reflexivity|reflexivity|].
  split; [exact H1|exact H4].
Defined.

(** ** main.js: the set-up form *)

Lemma handleSetup_begins w url tok error loading :
  document w !! "setup-server-url" = Some url →
  document w !! "setup-token" = Some tok →
  document w !! "setup-error" = Some error →
  document w !! "setup-loading" = Some loading →
  ∃ k w1,
    handleSetup w =
    Await (save_settings
             (mkSaveArgs (Js.trim (value url)) (Js.trim (value tok)) (Js.Num 60)
                (currentLanguage w) false)) k w1 ∧
    ∀ e w2 c, ¬ invokes (k (inl e) w2) c.
Proof.
  intros H1 H2 H3 H4. unfold handleSetup. js_run.
  eexists _, _. split; [reflexivity|].
  intros e w2 c H. cbn in H.
  repeat (match type of H with
          | context [match ?x with _ => _ end] => destruct x eqn:?
          end; cbn in H); by apply invokes_Done in H.
Qed.

(** X9.  With the four elements of the form in the page, [handleSetup]
    returns without an exception whatever the backend answers and whatever
    else the page lacks, and it leaves the loading indicator hidden. *)
Theorem handleSetup_always_returns a w url tok error loading :
  document w !! "setup-server-url" = Some url →
  document w !! "setup-token" = Some tok →
  document w !! "setup-error" = Some error →
  document w !! "setup-loading" = Some loading →
  ∃ w',
    complete a (handleSetup w) = (inr tt, w') ∧
    ∃ e, document w' !! "setup-loading" = Some e ∧ "hidden" ∈ classList e.
Proof.
  intros H1 H2 H3 H4. unfold handleSetup, loadDashboard. js_run.
  destruct (on_save_settings a) as [e|[]]; js_run.
  { eexists. split; [done|]. js_run. eexists. split; [done|]. apply elem_of_add_token. }
  destruct (on_register_device a) as [e|[]]; js_run.
  { eexists. split; [done|]. js_run. eexists. split; [done|]. apply elem_of_add_token. }
  destruct (Js.truthy (Js.trim (value url))); destruct (Js.truthy (Js.trim (value tok)));
    cbn [negb orb]; js_cases;
    (eexists; split; [done|]; js_run; eexists; split; [done|]; apply elem_of_add_token).
Qed.

Lemma handleSetup_always_returns_witness :
  ∃ w',
    complete (failing_toggle "x") (handleSetup fresh) = (inr tt, w') ∧
    ∃ e, document w' !! "setup-loading" = Some e ∧ "hidden" ∈ classList e.
Proof.
  apply (handleSetup_always_returns (failing_toggle "x") fresh
           (input "url") (input "password") (hidden (tag "DIV")) (hidden (tag "DIV")));
    reflexivity.
Defined.

(** X10.  When [save_settings] is rejected, or [register_device] after it,
    [handleSetup] puts the text of the rejection on display in the form and
    leaves the set-up screen and the embedded view as they were; after a
    rejected [save_settings] it invokes no further command, so the device is
    not registered. *)
Theorem handleSetup_failure a w url tok error loading e :
  document w !! "setup-server-url" = Some url →
  document w !! "setup-token" = Some tok →
  document w !! "setup-error" = Some error →
  document w !! "setup-loading" = Some loading →
  on_save_settings a = inl e ∨ (on_save_settings a = inr tt ∧ on_register_device a = inl e) →
  let w' := (complete a (handleSetup w)).2 in
  setup_error_shown w' (exn_to_string e) ∧
  document w' !! "setup-screen" = document w !! "setup-screen" ∧
  trace w' = trace w ∧ listener w' = listener w ∧ localStorage w' = localStorage w ∧
  ∃ args k w1,
    handleSetup w = Await (save_settings args) k w1 ∧
    ∀ e' w2 c, ¬ invokes (k (inl e') w2) c.
Proof.
  intros H1 H2 H3 H4 Ha w'. subst w'.
  split; [|split; [|split; [|split; [|split]]]];
    [..|destruct (handleSetup_begins w url tok error loading H1 H2 H3 H4) as (k & w1 & ? & ?);
        by eexists _, k, w1].
  all: unfold handleSetup, setup_error_shown, listener; js_run.
  all: destruct Ha as [Hs|[Hs Hr]]; js_run.
  all: try done.
  all: eexists; (split; [done|]); (split; [done|]); apply not_elem_of_remove_token.
Qed.

Lemma handleSetup_failure_witness :
  setup_error_shown (complete (failing_save "no route to host") (handleSetup fresh)).2
    "no route to host".
Proof.
  destruct (handleSetup_failure (failing_save "no route to host") fresh
              (input "url") (input "password") (hidden (tag "DIV")) (hidden (tag "DIV"))
              (Rejection "no route to host")) as (H & _);
    [reflexivity..|by left|].
  exact H.
Defined.

(** X11.  [handleSetup] does not check its fields.  With a server URL or a
    token that is empty once trimmed, it still submits [save_settings] with
    the empty text; and when the backend accepts, it hides the set-up
    screen while [loadDashboard], refusing the empty argument, hides the
    dashboard and leaves the view alone: neither screen is on display. *)
Theorem handleSetup_blank_form a w url tok error loading screen container :
  document w !! "setup-server-url" = Some url →
  document w !! "setup-token" = Some tok →
  document w !! "setup-error" = Some error →
  document w !! "setup-loading" = Some loading →
  document w !! "setup-screen" = Some screen →
  document w !! "dashboard-container" = Some container →
  Js.trim (value url) = "" ∨ Js.trim (value tok) = "" →
  on_save_settings a = inr tt → on_register_device a = inr tt →
  invokes (handleSetup w)
    (save_settings
       (mkSaveArgs (Js.trim (value url)) (Js.trim (value tok)) (Js.Num 60) (currentLanguage w) false)) ∧
  let w' := (complete a (handleSetup w)).2 in
  setup_screen_hidden w' ∧ dashboard_hidden w' ∧
  trace w' = trace w ∧ listener w' = listener w.
Proof.
  intros H1 H2 H3 H4 H5 H6 Hblank Hs Hr.
  split.
  { destruct (handleSetup_begins w url tok error loading H1 H2 H3 H4) as (k & w1 & -> & _).
    constructor. }
  unfold handleSetup, loadDashboard, setup_screen_hidden, dashboard_hidden, listener.
  destruct Hblank as [Hb|Hb]; apply (proj2 (truthy_false _)) in Hb;
    [|destruct (Js.truthy (Js.trim (value url))) eqn:Hu];
    js_run; rewrite ?Hb, ?Hu; cbn [negb orb]; js_run;
    (split; [eexists; split; [done|apply elem_of_add_token]|]);
    (split; [eexists; split; [done|apply elem_of_add_token]|]); done.
Qed.

Lemma handleSetup_blank_form_witness :
  let w' := (complete (answering empty_settings []) (handleSetup fresh)).2 in
  setup_screen_hidden w' ∧ dashboard_hidden w'.
Proof.
  destruct (handleSetup_blank_form (answering empty_settings []) fresh
              (input "url") (input "password") (hidden (tag "DIV")) (hidden (tag "DIV"))
              (hidden (tag "DIV")) (hidden (tag "DIV")))
    as (_ & H1 & H2 & _); [reflexivity..|by left|reflexivity|reflexivity|].
  split; [exact H1|exact H2].
Defined.

(** X12.  When the backend accepts the settings and the registration, and
    neither field is empty once trimmed, [handleSetup] hides the set-up
    screen and starts the bootstrap with the trimmed texts: the [load] event
    that follows stores the credential made of the trimmed URL, its trailing
    slashes removed, and of the trimmed token, and sends the view to that
    URL. *)
Theorem handleSetup_bootstraps a w url tok error loading screen iframe :
  document w !! "setup-server-url" = Some url →
  document w !! "setup-token" = Some tok →
  document w !! "setup-error" = Some error →
  document w !! "setup-loading" = Some loading →
  document w !! "setup-screen" = Some screen →
  document w !! "ha-dashboard" = Some iframe →
  Js.trim (value url) ≠ "" → Js.trim (value tok) ≠ "" →
  on_save_settings a = inr tt → on_register_device a = inr tt →
  let baseUrl := Js.replace_trailing_slashes (Js.trim (value url)) in
  let w' := (complete a (handleSetup w)).2 in
  setup_screen_hidden w' ∧
  listener w' = Some (onFirstLoad_closure baseUrl (Js.trim (value tok))) ∧
  events_since w (fire_load w') =
    [ Navigate "about:blank"; LoadSignal; injection w baseUrl (Js.trim (value tok));
      Navigate baseUrl ] ∧
  localStorage (fire_load w') = after_injection w baseUrl (Js.trim (value tok)).
Proof.
  intros H1 H2 H3 H4 H5 H6 Hu%truthy_true Ht%truthy_true Hs Hr baseUrl w'.
  subst w' baseUrl.
  unfold handleSetup, loadDashboard, setup_screen_hidden, listener, events_since, fire_load,
    injection, after_injection, hassTokens_text.
  js_run. rewrite Hu, Ht. js_run.
  split; [eexists; split; [done|apply elem_of_add_token]|]. split; [done|].
  unfold onFirstLoad.
  destruct (localStorage w) as [e|items] eqn:Hst; js_cases;
    rewrite <- ?app_assoc, ?drop_app_length; done.
Qed.

Lemma handleSetup_bootstraps_witness :
  let w := typed "setup-token" " abc " (typed "setup-server-url" " http://ha.local:8123/ " fresh) in
  let w' := (complete (answering empty_settings []) (handleSetup w)).2 in
  listener w' = Some (onFirstLoad_closure "http://ha.local:8123" "abc").
Proof.
  intros w w'.
  destruct (handleSetup_bootstraps (answering empty_settings []) w
              (with_value " http://ha.local:8123/ " (input "url"))
              (with_value " abc " (input "password"))
              (hidden (tag "DIV")) (hidden (tag "DIV")) (hidden (tag "DIV")) (tag "IFRAME"))
    as (_ & H & _); [reflexivity..|by vm_compute|by vm_compute|reflexivity|reflexivity|].
  exact H.
Defined.

(** ** main.js: start-up *)

(** X13.  When [get_settings] is rejected, [initApp] logs the rejection
    with [console.error], puts the set-up screen on display and hides the
    dashboard; the language, the embedded view and its storage stay as they
    were. *)
Theorem start_without_settings a w e screen container :
  on_get_settings a = inl e →
  document w !! "setup-screen" = Some screen →
  document w !! "dashboard-container" = Some container →
  let w' := start a w in
  console w' = (console w ++ [mkEntry Error "Failed to initialize app:" (Some e)])%list ∧
  setup_screen_shown w' ∧ dashboard_hidden w' ∧
  currentLanguage w' = currentLanguage w ∧
  trace w' = trace w ∧ listener w' = listener w ∧ localStorage w' = localStorage w.
Proof.
  intros Ha Hs Hc w'. subst w'.
  unfold start, initApp, setup_screen_shown, dashboard_hidden, listener. js_run.
  split; [done|].
  split; [eexists; split; [done|apply not_elem_of_remove_token]|].
  split; [eexists; split; [done|apply elem_of_add_token]|]. done.
Qed.

Lemma start_without_settings_witness :
  console (start (mkAnswers (inl (Rejection "state not managed")) (inr tt) (inr [])
                    (inr tt) (inr tt) (inr tt) (inr "")) fresh) =
  [mkEntry Error "Failed to initialize app:" (Some (Rejection "state not managed"))].
Proof.
  destruct (start_without_settings
              (mkAnswers (inl (Rejection "state not managed")) (inr tt) (inr [])
                 (inr tt) (inr tt) (inr tt) (inr "")) fresh (Rejection "state not managed")
              (hidden (tag "DIV")) (hidden (tag "DIV"))) as (H & _); [reflexivity..|].
  exact H.
Defined.

(** X14.  A device that has a server URL and a token but is not registered
    gets the set-up form with both filled in; submitting the form as it is
    sends [save_settings] with the two texts trimmed, the update interval
    60 and autostart off, whatever interval and autostart the settings held. *)
Theorem unregistered_start_prefills_form a s w screen container url tok error loading :
  on_get_settings a = inr s →
  server_url s ≠ "" → access_token s ≠ "" → is_registered s = false →
  document w !! "setup-screen" = Some screen →
  document w !! "dashboard-container" = Some container →
  document w !! "setup-server-url" = Some url →
  document w !! "setup-token" = Some tok →
  document w !! "setup-error" = Some error →
  document w !! "setup-loading" = Some loading →
  let w' := start a w in
  setup_screen_shown w' ∧
  value <$> document w' !! "setup-server-url" = Some (server_url s) ∧
  value <$> document w' !! "setup-token" = Some (access_token s) ∧
  ∃ k w'',
    handleSetup w' =
    Await (save_settings
             (mkSaveArgs (Js.trim (server_url s)) (Js.trim (access_token s)) (Js.Num 60)
                (currentLanguage w') false)) k w''.
Proof.
  intros Ha Hu%truthy_true Ht%truthy_true Hr H1 H2 H3 H4 H5 H6 w'.
  assert (setup_screen_shown w' ∧
          (∃ e, document w' !! "setup-server-url" = Some e ∧ value e = server_url s) ∧
          (∃ e, document w' !! "setup-token" = Some e ∧ value e = access_token s) ∧
          is_Some (document w' !! "setup-error") ∧
          is_Some (document w' !! "setup-loading"))
    as (Hshown & (eu & Heu & Hvu) & (et & Het & Hvt) & [ee Hee] & [el Hel]).
  { subst w'. unfold setup_screen_shown. start_run a s w Ha. rewrite Hu, Ht, Hr.
    cbn -[setLanguage loadDashboard]. js_run.
    split; [eexists; split; [done|apply not_elem_of_remove_token]|].
    split; [by eexists|]. split; [by eexists|]. split; by eexists. }
  split; [done|]. split; [by rewrite Heu, <- Hvu|]. split; [by rewrite Het, <- Hvt|].
  destruct (handleSetup_begins w' eu et ee el Heu Het Hee Hel) as (k & w1 & Hk & _).
  rewrite Hvu, Hvt in Hk. by eexists k, w1.
Qed.

Lemma unregistered_start_prefills_form_witness :
  let s := mkSettings "http://ha.local:8123/" "ey.abc" 15 "nl" true "" "" false in
  let w' := start (answering s []) fresh in
  ∃ k w'',
    handleSetup w' =
    Await (save_settings (mkSaveArgs "http://ha.local:8123/" "ey.abc" (Js.Num 60) "nl" false)) k w''.
Proof.
  intros s w'.
  destruct (unregistered_start_prefills_form (answering s []) s fresh
              (hidden (tag "DIV")) (hidden (tag "DIV")) (input "url") (input "password")
              (hidden (tag "DIV")) (hidden (tag "DIV")))
    as (_ & _ & _ & k & w'' & H); [reflexivity|done|done|reflexivity..|].
  exists k, w''. exact H.
Defined.

(** ** settings.js: the dialogue *)

Ltac page_elements H :=
  unfold in_page, settings_dialogue, settings_fields in H; cbn [List.app] in H;
  repeat match type of H with
         | Forall _ (_ :: _) =>
             let e := fresh "el" in
             let He := fresh "Hel" in
             apply Forall_cons in H as [[e He] H]
         end;
  clear H.

Lemma for_of_append_row_world l : ∀ w e,
  document w !! "sensor-list" = Some e →
  for_of l append_row w =
  (inr tt,
   with_document
     (<["sensor-list" :=
          with_children
            (children e ++ rows_from (currentLanguage w) (length (created w)) l) e]>
        (document w))
     (with_created (created w ++ (checkbox_of <$> l)) w)).
Proof.
  induction l as [|s l IH]; intros w e He.
  - cbn. rewrite !app_nil_r. f_equal. destruct w as [doc ? ? ? ? ? ? ?]. cbn in *.
    f_equal. rewrite insert_id; [done|]. rewrite He. by destruct e.
  - cbn [for_of]. unfold bind. rewrite (append_row_runs s w e He).
    erewrite IH by (cbn; apply lookup_insert_eq).
    cbn. rewrite insert_insert_eq, <- !app_assoc, length_app. cbn.
    by rewrite Nat.add_1_r.
Qed.

Lemma populateSensorList_world a w list :
  document w !! "sensor-list" = Some list →
  complete a (populateSensorList w) = (inr tt, sensor_list_populated a list w).
Proof.
  intros He. unfold populateSensorList, sensor_list_populated. cbn -[for_of].
  destruct (on_get_sensor_list a) as [e|sensors]; [done|]. js_run.
  erewrite for_of_append_row_world by (cbn; apply lookup_insert_eq).
  cbn. by rewrite insert_insert_eq.
Qed.

Lemma openSettings_total a w : ∃ w', complete a (openSettings w) = (inr tt, w').
Proof.
  unfold openSettings, atry. rewrite complete_or_catch.
  destruct (complete a _) as [[e|[]] w']; [|by eexists].
  cbn. by eexists.
Qed.

(** X15.  [populateSensorList] replaces the rows of the list by one row per
    sensor of the answer, in its order, each with a check box that shows
    the enablement of the sensor.  The label of a row is what [t] makes of
    the id of the sensor: its translation, or the id itself; the name of the
    sensor is the label only of a sensor whose id is empty.  When
    [get_sensor_list] is rejected the rejection is logged and the list stays
    as it was. *)
Theorem sensor_rows_labelled a w list :
  document w !! "sensor-list" = Some list →
  let w' := (complete a (populateSensorList w)).2 in
  (∀ sensors, on_get_sensor_list a = inr sensors →
     Forall (λ s, sensor_id s ∉ inherited) sensors →
     label_text <$> rows w' =
       (λ s, if bool_decide (sensor_id s = "") then sensor_name s
             else translate (currentLanguage w) (sensor_id s)) <$> sensors ∧
     displayed w' = (λ s, (sensor_id s, sensor_enabled s)) <$> sensors ∧
     console w' = console w) ∧
  (∀ e, on_get_sensor_list a = inl e →
     w' = with_console
            (console w ++ [mkEntry Error "Failed to load sensor list:" (Some e)]) w).
Proof.
  intros Hl w'. split.
  - intros sensors Ha _.
    destruct (populated_displays a w list sensors Ha Hl) as (Hd & _).
    split; [|split; [exact Hd|]]; subst w';
      rewrite (populateSensorList_world a w list Hl);
      unfold sensor_list_populated; rewrite Ha; cbn [snd]; [|done].
    unfold rows. cbn. rewrite lookup_insert_eq. cbn.
    clear Ha Hd. generalize (length (created w)). induction sensors as [|s l IH]; intros n; [done|].
    cbn. f_equal; [|apply IH].
    case_bool_decide as Hid.
    + rewrite Hid. by rewrite translate_unknown.
    + pose proof (translate_not_empty (currentLanguage w) _ Hid) as Hne.
      by destruct (translate (currentLanguage w) (sensor_id s)).
  - intros e Ha. subst w'. rewrite (populateSensorList_world a w list Hl).
    unfold sensor_list_populated. by rewrite Ha.
Qed.

(** ** settings.js: opening and saving *)

Ltac open_step :=
  eapply ends_with_sync_then;
    [first [reflexivity
           |apply write_Some; cbn; rewrite ?lookup_insert_ne by done; eassumption]|].

Ltac open_rest :=
  apply keeps_async_ends_with; [frame|];
  unfold field; cbn; rewrite lookup_insert_eq; cbn; rewrite ?or_else_empty; reflexivity.

(** The fields of the dialogue after [openSettings]. *)
Lemma openSettings_fields a s w :
  on_get_settings a = inr s →
  in_page settings_fields w →
  let w1 := perform w (OpenSettings a) in
  field "settings-server-url" value w1 = Some (server_url s) ∧
  field "settings-token" value w1 = Some (access_token s) ∧
  field "settings-interval" value w1 =
    Some (pretty (Js.number_or (Some (update_interval s)) 60)) ∧
  field "settings-language" value w1 = Some (Js.or_else (language s) "en") ∧
  field "settings-autostart" checked w1 = Some (autostart s).
Proof.
  intros Ha Hpage w1. subst w1.
  unfold in_page, settings_fields in Hpage.
  repeat match type of Hpage with
         | Forall _ (_ :: _) =>
             let e := fresh "el" in
             let He := fresh "Hel" in
             apply Forall_cons in Hpage as [[e He] Hpage]
         end.
  clear Hpage. cbn [perform]. rewrite !field_uncaught.
  repeat split.
  all: match goal with
       | |- field ?k ?F (complete ?a0 (openSettings ?w0)).2 = ?x =>
           change (ends_with (field k F) a0 x (openSettings w0))
       end.
  all: unfold openSettings, atry; apply ends_with_or_catch;
         [|intros e w' Hw'; apply ends_with_sync; [frame|done]].
  all: match goal with
       | |- ends_with _ ?a0 _ _ => apply (ends_with_invoke_then _ a0 _ get_settings _ _ _ Ha)
       end.
  all: open_step.
  - open_step. open_rest.
  - do 2 open_step. open_rest.
  - do 3 open_step. open_rest.
  - do 4 open_step. open_rest.
  - do 5 open_step. open_rest.
Qed.

Lemma parseInt_pretty_exact z :
  z ≠ 0 → Z.abs z < 2 ^ 53 →
  Js.double_or (Js.parseInt (pretty z)) (Js.Num 60) = Js.Num z.
Proof.
  intros Hz Hs. rewrite (parseInt_exact _ z (parseInt_pretty z) Hs). cbn.
  by destruct (Z.eqb_spec z 0).
Qed.

Lemma Iframe_saveSettings_submits w url tok interval lang auto :
  document w !! "settings-server-url" = Some url →
  document w !! "settings-token" = Some tok →
  document w !! "settings-interval" = Some interval →
  document w !! "settings-language" = Some lang →
  document w !! "settings-autostart" = Some auto →
  ∃ k,
    Iframe.saveSettings w =
    Await (save_settings
             (mkSaveArgs (Js.trim (value url)) (Js.trim (value tok))
                (Js.double_or (Js.parseInt (value interval)) (Js.Num 60))
                (value lang) (checked auto))) k w.
Proof.
  intros. unfold Iframe.saveSettings. js_run. by eexists.
Qed.

(** X16.  What [openSettings] shows is what [saveSettings] submits: saving
    the dialogue right after it was opened, nothing edited, submits the
    settings [get_settings] answered with: the server URL and the token
    (trimmed), the language (English for an empty one), autostart, and the
    update interval as it is when it is a positive integer below 2^53 (60
    for the interval 0).  Both versions of [saveSettings] do. *)
Theorem open_then_save_round_trip a s w :
  on_get_settings a = inr s →
  in_page settings_fields w →
  0 ≤ update_interval s < 2 ^ 53 →
  let w1 := perform w (OpenSettings a) in
  let args :=
    mkSaveArgs (Js.trim (server_url s)) (Js.trim (access_token s))
      (Js.Num (if update_interval s =? 0 then 60 else update_interval s))
      (Js.or_else (language s) "en") (autostart s) in
  (∃ k, saveSettings w1 = Await (save_settings args) k w1) ∧
  (∃ k, Iframe.saveSettings w1 = Await (save_settings args) k w1).
Proof.
  intros Ha Hpage Hz w1 args.
  destruct (openSettings_fields a s w Ha Hpage)
    as ((eu & Hu & Vu)%field_element & (et & Ht & Vt)%field_element &
        (ei & Hi & Vi)%field_element & (el & Hl & Vl)%field_element &
        (ea & Hau & Va)%field_element).
  fold w1 in Hu, Ht, Hi, Hl, Hau.
  assert (Js.double_or (Js.parseInt (value ei)) (Js.Num 60) =
          Js.Num (if update_interval s =? 0 then 60 else update_interval s)) as Hn.
  { rewrite Vi. unfold Js.number_or.
    destruct (Z.eqb_spec (update_interval s) 0) as [E|E];
      apply parseInt_pretty_exact; lia. }
  subst args. rewrite <- Vu, <- Vt, <- Hn, <- Vl, <- Va. split.
  - by apply saveSettings_submits.
  - by apply Iframe_saveSettings_submits.
Qed.

Lemma open_then_save_round_trip_witness :
  let s := mkSettings " http://ha.local:8123/ " "ey.abc" 15 "nl" true "4f1c" "3b9d" true in
  let w1 := perform fresh (OpenSettings (answering s [])) in
  ∃ k, saveSettings w1 =
       Await (save_settings
                (mkSaveArgs "http://ha.local:8123/" "ey.abc" (Js.Num 15) "nl" true)) k w1.
Proof.
  intros s w1.
  destruct (open_then_save_round_trip (answering s []) s fresh) as (H & _);
    [reflexivity| |by vm_compute|exact H].
  unfold in_page, settings_fields. repeat constructor; by vm_compute; eexists.
Defined.

(** X17.  When [save_settings] is rejected, [saveSettings] (in both
    versions) logs the rejection, shows it in an alert and changes nothing
    else: the dialogue stays open with its fields as they are, the language
    is not switched and the view is left alone.  After the rejection no
    further command is invoked: the dashboard is not asked for. *)
Theorem saveSettings_failure a w e :
  in_page settings_fields w →
  on_save_settings a = inl e →
  let failed :=
    with_alerts (alerts w ++ ["Failed to save settings: " ++ exn_to_string e])
      (with_console (console w ++ [mkEntry Error "Failed to save settings:" (Some e)]) w) in
  complete a (saveSettings w) = (inr tt, failed) ∧
  complete a (Iframe.saveSettings w) = (inr tt, failed) ∧
  ∃ args k,
    saveSettings w = Await (save_settings args) k w ∧
    ∀ e' w2 c, ¬ invokes (k (inl e') w2) c.
Proof.
  intros Hpage Ha failed. page_elements Hpage. subst failed.
  split; [|split].
  - unfold saveSettings. js_run. done.
  - unfold Iframe.saveSettings. js_run. done.
  - unfold saveSettings. js_run. eexists _, _. split; [reflexivity|].
    intros e' w2 c H. cbn in H. by apply invokes_Done in H.
Qed.

Lemma saveSettings_failure_witness :
  let a := failing_save "disk full" in
  alerts (complete a (saveSettings fresh)).2 = ["Failed to save settings: disk full"] ∧
  document (complete a (saveSettings fresh)).2 = document fresh.
Proof.
  intros a.
  destruct (saveSettings_failure a fresh (Rejection "disk full")) as (H & _).
  - unfold in_page, settings_fields. repeat constructor; by vm_compute; eexists.
  - reflexivity.
  - rewrite H. split; reflexivity.
Defined.

(** ** settings.js: the show-password control *)

(** X18.  [togglePassword] changes the type of the input and nothing else.
    It makes a password input a text input, and every other input a
    password input, so a second call undoes the first for a password or a
    text input; an input of another type never gets its type back. *)
Theorem togglePassword_toggles inputId w e :
  document w !! inputId = Some e →
  let once := (togglePassword inputId w).2 in
  let twice := (togglePassword inputId once).2 in
  togglePassword inputId w =
    (inr tt,
     with_document
       (<[inputId := with_type (if bool_decide (type e = "password") then "text"
                                else "password") e]> (document w)) w) ∧
  (type e = "password" ∨ type e = "text" → twice = w) ∧
  (type e ≠ "password" → type e ≠ "text" →
   field inputId type once = Some "password" ∧ field inputId type twice = Some "text").
Proof.
  intros He once twice. subst twice once.
  assert (togglePassword inputId w =
    (inr tt,
     with_document
       (<[inputId := with_type (if bool_decide (type e = "password") then "text"
                                else "password") e]> (document w)) w)) as Hrun
    by (unfold togglePassword; js_run; done).
  split; [done|]. rewrite Hrun. cbn [snd].
  unfold togglePassword, field. js_run.
  split.
  - intros Hty. destruct w as [doc ? ? ? ? ? ? ?]. cbn in *. f_equal.
    apply map_eq. intros k. destruct (decide (k = inputId)) as [->|Hne].
    + rewrite lookup_insert_eq, He. f_equal.
      destruct e as [? ? ty ? ? ? ? ? ? ?]. cbn in *.
      by destruct Hty as [-> | ->].
    + by rewrite lookup_insert_ne.
  - intros H1 H2. rewrite (bool_decide_false _ H1). js_run. done.
Qed.

Lemma togglePassword_toggles_witness :
  (togglePassword "settings-token" (togglePassword "settings-token" fresh).2).2 = fresh ∧
  field "settings-server-url" type (togglePassword "settings-server-url" fresh).2 =
    Some "password".
Proof.
  destruct (togglePassword_toggles "settings-token" fresh (input "password") eq_refl)
    as (_ & H & _).
  destruct (togglePassword_toggles "settings-server-url" fresh (input "url") eq_refl)
    as (_ & _ & H').
  split; [apply H; by left|]. by apply H'.
Defined.

(** ** settings.js: leaving the dialogue *)

(** X19.  With the dialogue in the page, [closeSettings] hides it, asks the
    backend for the dashboard and returns without an exception whatever the
    backend answers; a rejection is logged.  It touches no other element,
    neither the view nor its storage.  Without the dialogue in the page it
    throws before it invokes anything. *)
Theorem closeSettings_hides a w :
  (∀ overlay, document w !! "settings-overlay" = Some overlay →
     ∃ w1,
       complete a (closeSettings w) = (inr tt, w1) ∧
       settings_hidden w1 ∧
       (∀ id, id ≠ "settings-overlay" → document w1 !! id = document w !! id) ∧
       console w1 =
         (console w ++
          match on_load_dashboard a with
          | inl e => [mkEntry Error "Failed to restore dashboard:" (Some e)]
          | inr _ => []
          end)%list ∧
       trace w1 = trace w ∧ localStorage w1 = localStorage w ∧ alerts w1 = alerts w) ∧
  (document w !! "settings-overlay" = None →
     closeSettings w = Done (inl (null_read "classList")) w).
Proof.
  split.
  - intros overlay Ho. unfold closeSettings, settings_hidden. js_run.
    destruct (on_load_dashboard a) as [e|[]]; js_run.
    + eexists. split; [reflexivity|]. cbn. js_run.
      split; [eexists; split; [done|apply elem_of_add_token]|].
      split; [by intros id Hid; rewrite lookup_insert_ne|done].
    + eexists. split; [reflexivity|]. cbn. js_run.
      split; [eexists; split; [done|apply elem_of_add_token]|].
      split; [by intros id Hid; rewrite lookup_insert_ne|]. by rewrite app_nil_r.
  - intros Ho. unfold closeSettings. js_run. done.
Qed.

Lemma closeSettings_hides_witness :
  ∃ w1,
    complete (answering registered_settings []) (closeSettings dashboard_shown) = (inr tt, w1) ∧
    settings_hidden w1 ∧ trace w1 = trace dashboard_shown.
Proof.
  destruct (proj1 (closeSettings_hides (answering registered_settings []) dashboard_shown)
              (hidden (tag "DIV")) eq_refl) as (w1 & H1 & H2 & _ & _ & H3 & _).
  exists w1. split; [exact H1|]. split; [exact H2|exact H3].
Defined.

(** X20.  [openSettings] never throws.  When [get_settings] is rejected it
    logs the rejection and changes nothing else: the dialogue is not put on
    display.  When a field of the dialogue is missing from the page, the
    exception is logged the same way and the dialogue is not put on
    display, but the settings received are already kept as the current
    ones. *)
Theorem openSettings_failure a w :
  (∃ w', complete a (openSettings w) = (inr tt, w')) ∧
  (∀ e, on_get_settings a = inl e →
     complete a (openSettings w) =
       (inr tt,
        with_console (console w ++ [mkEntry Error "Failed to load settings:" (Some e)]) w)) ∧
  (∀ s, on_get_settings a = inr s →
     document w !! "settings-server-url" = None →
     complete a (openSettings w) =
       (inr tt,
        with_console
          (console w ++
             [mkEntry Error "Failed to load settings:" (Some (null_write "value"))])
          (with_currentSettings (Some s) w))).
Proof.
  split; [apply openSettings_total|]. split.
  - intros e Ha. unfold openSettings. js_run. done.
  - intros s Ha Hu. unfold openSettings. js_run. done.
Qed.

Lemma openSettings_failure_witness :
  complete (mkAnswers (inl (Rejection "state not managed")) (inr tt) (inr [])
              (inr tt) (inr tt) (inr tt) (inr "")) (openSettings fresh) =
  (inr tt,
   with_console [mkEntry Error "Failed to load settings:" (Some (Rejection "state not managed"))]
     fresh).
Proof.
  apply (proj1 (proj2 (openSettings_failure _ fresh))). reflexivity.
Defined.

Lemma sensor_rows_labelled_witness :
  let sensors :=
    [ mkSensor "cpu_usage" "Processor" true true;
      mkSensor "disk_io" "Disk I/O" false false;
      mkSensor "" "Unnamed" false false ] in
  let w' := (complete (answering registered_settings sensors) (populateSensorList fresh)).2 in
  label_text <$> rows w' = ["CPU Usage"; "disk_io"; "Unnamed"] ∧
  displayed w' = [("cpu_usage", true); ("disk_io", false); ("", false)].
Proof.
  intros sensors w'.
  destruct (proj1 (sensor_rows_labelled (answering registered_settings sensors) fresh
                     (tag "DIV") eq_refl) sensors eq_refl) as (H1 & H2 & _).
  - repeat constructor; not_among.
  - split; [exact (eq_trans H1 eq_refl)|exact H2].
Defined.

(** ** settings.js with the [iframe]: when saving reloads the dashboard *)

Lemma loadDashboard_storage serverUrl token w :
  localStorage (loadDashboard serverUrl token w).2 = localStorage w.
Proof.
  unfold loadDashboard.
  destruct (Js.truthy serverUrl); [destruct (Js.truthy token)|]; js_cases; done.
Qed.

Lemma iframe_save_tail a (r : exn + unit) w3 :
  let w' :=
    uncaught
      (complete a
         (or_catch (and_then (Done r w3) (λ _, sync Iframe.closeSettings))
            (λ err,
               sync (console_error "Failed to save settings:" err;;
                     alert ("Failed to save settings: " ++ exn_to_string err))%js))) in
  trace w' = trace w3 ∧ listener w' = listener w3 ∧ localStorage w' = localStorage w3.
Proof.
  destruct r as [e|[]]; cbn -[Iframe.closeSettings]; [done|].
  destruct (hiding_keeps_listener w3) as (K1 & K2 & K3).
  destruct (Iframe.closeSettings w3) as [[e|[]] w4]; cbn in *; unfold listener in *; cbn;
    by rewrite ?K1, ?K2, ?K3.
Qed.

(** X21.  [saveSettings], in the version that calls [loadDashboard] itself,
    sends the view at most to the blank page, and does so only when
    [save_settings] was accepted, settings had been opened before, and the
    server URL of the dialogue, trimmed, is not the one of those settings
    and is not empty, nor is the trimmed token.  Saving with the same server
    URL, even with another token, leaves the view and its listener as they
    are: the new token reaches the view only with the next bootstrap. *)
Theorem iframe_save_reloads_on_new_url_only a w :
  let w' := occur w (IframeSave a) in
  (events_since w w' = [] ∨ events_since w w' = [Navigate "about:blank"]) ∧
  (events_since w w' = [Navigate "about:blank"] →
     on_save_settings a = inr tt ∧
     ∃ s url token,
       currentSettings w = Some s ∧
       field "settings-server-url" value w = Some url ∧
       field "settings-token" value w = Some token ∧
       Js.trim url ≠ server_url s ∧ Js.trim url ≠ "" ∧ Js.trim token ≠ "") ∧
  (events_since w w' = [] → listener w' = listener w ∧ localStorage w' = localStorage w).
Proof.
  intros w'.
  assert (trace w' = trace w ∧ listener w' = listener w ∧ localStorage w' = localStorage w ∨
          trace w' = (trace w ++ [Navigate "about:blank"])%list ∧
          on_save_settings a = inr tt ∧
          ∃ s url token,
            currentSettings w = Some s ∧
            field "settings-server-url" value w = Some url ∧
            field "settings-token" value w = Some token ∧
            Js.trim url ≠ server_url s ∧ Js.trim url ≠ "" ∧ Js.trim token ≠ "") as Hcases.
  { subst w'. cbn [occur]. unfold Iframe.saveSettings, field.
    destruct (document w !! "settings-server-url") as [eu|] eqn:H1;
      [|left; js_run; done].
    destruct (document w !! "settings-token") as [et|] eqn:H2;
      [|left; js_run; done].
    destruct (document w !! "settings-interval") as [ei|] eqn:H3;
      [|left; js_run; done].
    destruct (document w !! "settings-language") as [el|] eqn:H4;
      [|left; js_run; done].
    destruct (document w !! "settings-autostart") as [ea|] eqn:H5;
      [|left; js_run; done].
    destruct (on_save_settings a) as [e|[]] eqn:Ha.
    { left. repeat first [rewrite H1|rewrite H2|rewrite H3|rewrite H4|rewrite H5|rewrite Ha
                         |progress cbn]. done. }
    repeat first
      [ rewrite H1 | rewrite H2 | rewrite H3 | rewrite H4 | rewrite H5 | rewrite Ha
      | progress cbn -[setLanguage loadDashboard Iframe.closeSettings] ].
    destruct (setLanguage_runs (value el) w) as (cur & extra & ->).
    cbn -[setLanguage loadDashboard Iframe.closeSettings].
    set (w2 := mkWorld _ _ _ _ _ _ _ _).
    assert (trace w2 = trace w ∧ listener w2 = listener w ∧
            localStorage w2 = localStorage w) as (T2 & L2 & S2).
    { subst w2. cbn. split; [done|]. split; [apply listener_relabel|done]. }
    clearbody w2.
    match goal with
    | |- context [and_then (let '(r, w') := ?X in Done r w') _] =>
        destruct X as [r3 w3] eqn:E
    end.
    pose proof (iframe_save_tail a r3 w3) as (K1 & K2 & K3).
    cbn -[Iframe.closeSettings] in K1, K2, K3 |- *. rewrite K1, K2, K3. clear K1 K2 K3.
    destruct (currentSettings w) as [s|] eqn:Hc; [|injection E as <- <-; by left].
    case_bool_decide as Hne; [|injection E as <- <-; by left].
    destruct (loadDashboard_trace (Js.trim (value eu)) (Js.trim (value et)) w2)
      as [Hsame|(Hu & Ht & iframe & Hi & Hboot)]; rewrite E in *; cbn [snd] in *.
    - left.
      pose proof (loadDashboard_storage (Js.trim (value eu)) (Js.trim (value et)) w2) as Hst.
      destruct (loadDashboard_listener (Js.trim (value eu)) (Js.trim (value et)) w2)
        as [[_ Hl]|[Hnav _]]; rewrite E in *; cbn [snd] in *.
      + by rewrite Hsame, Hl, Hst.
      + rewrite Hsame in Hnav. apply (f_equal length) in Hnav.
        rewrite length_app in Hnav. cbn in Hnav. lia.
    - right. subst w3. cbn. rewrite T2. split; [done|]. split; [done|].
      by exists s, (value eu), (value et). }
  destruct Hcases as [(Ht & Hl & Hs)|(Ht & Ha & Hwhy)].
  - assert (events_since w w' = []) as Hev
      by (apply events_since_app; by rewrite app_nil_r).
    rewrite Hev. split; [by left|]. split; [done|done].
  - rewrite (events_since_app _ _ _ Ht). split; [by right|]. split; [done|done].
Qed.

Lemma iframe_save_reloads_on_new_url_only_witness :
  let a := answering registered_settings [] in
  let w := typed "settings-token" "ey.new" (session fresh [OpenSettings a]) in
  events_since w (occur w (IframeSave a)) = [] ∧
  listener (occur w (IframeSave a)) = listener w.
Proof.
  intros a w.
  destruct (iframe_save_reloads_on_new_url_only a w) as (_ & _ & H).
  assert (events_since w (occur w (IframeSave a)) = []) as Hev by (by vm_compute).
  split; [exact Hev|]. exact (proj1 (H Hev)).
Defined.

Lemma on_change_awaits checkbox sensorId w c :
  created w !! checkbox = Some c →
  on_change checkbox sensorId w =
  Await (toggle_sensor sensorId (cb_checked c)) (resume checkbox) w.
Proof. intros Hc. unfold on_change, resume, get_checked. cbn. by rewrite Hc. Qed.

Lemma resume_accepted checkbox w : resume checkbox (inr tt) w = Done (inr tt) w.
Proof. done. Qed.

Lemma resume_rejected checkbox e w c :
  created w !! checkbox = Some c →
  resume checkbox (inl e) w =
  Done (inr tt)
    (with_created (<[checkbox := flipped c]> (created w))
       (with_console (console w ++ [mkEntry Error "Failed to toggle sensor:" (Some e)]) w)).
Proof.
  intros Hc. unfold resume, get_checked, set_checked, flipped. cbn. rewrite Hc. cbn.
  by rewrite Hc.
Qed.

Lemma flip_lookup (l : list checkbox) n c i c' :
  l !! n = Some c →
  <[n := flipped c]> l !! i = Some c' →
  ∃ c0, l !! i = Some c0 ∧ cb_sensor c0 = cb_sensor c' ∧
        (i ≠ n → c0 = c') ∧ (i = n → c0 = c ∧ c' = flipped c).
Proof.
  intros Hn Hi. assert (n < length l)%nat as Hlt by (by eapply lookup_lt_Some).
  destruct (decide (i = n)) as [->|Hne].
  - rewrite list_lookup_insert_eq in Hi by done. injection Hi as <-.
    exists c. by repeat split.
  - rewrite list_lookup_insert_ne in Hi by done. exists c'. by repeat split.
Qed.

Lemma one_checkbox_flip w w' n c :
  one_checkbox_per_sensor w →
  created w !! n = Some c →
  rows w' = rows w →
  created w' = <[n := flipped c]> (created w) →
  one_checkbox_per_sensor w'.
Proof.
  intros Ho Hn Hr Hc r1 r2 c1 c2 Hr1 Hr2 H1 H2 Hs.
  rewrite Hr in Hr1, Hr2. rewrite Hc in H1, H2.
  destruct (flip_lookup _ _ _ _ _ Hn H1) as (c1' & H1' & E1 & _).
  destruct (flip_lookup _ _ _ _ _ Hn H2) as (c2' & H2' & E2 & _).
  apply (Ho r1 r2 c1' c2'); try done. congruence.
Qed.

Lemma waits_busy s wt n c :
  waits_for s wt n → wt ∈ under_way s → created (ui s) !! n = Some c →
  busy s (cb_sensor c).
Proof.
  intros (c0 & Hc0 & _ & -> & _) Hin Hc. rewrite Hc in Hc0. injection Hc0 as <-.
  by eexists _, _.
Qed.

Lemma pending_busy s pend n c :
  Forall2 (waits_for s) (under_way s) pend →
  n ∈ pend → created (ui s) !! n = Some c → busy s (cb_sensor c).
Proof.
  intros Hf (i & Hi)%list_elem_of_lookup_1 Hc.
  destruct (Forall2_lookup_r _ _ _ _ _ Hf Hi) as (wt & Hwt & Hw).
  apply (waits_busy s wt n c Hw); [|done]. by eapply list_elem_of_lookup_2.
Qed.

Lemma Forall2_elem_r {A B} (P : A → B → Prop) l k :
  Forall2 P l k → Forall2 (λ x y, P x y ∧ y ∈ k) l k.
Proof.
  induction 1 as [|x y l k Hxy Hlk IH]; constructor.
  - split; [done|by left].
  - eapply Forall2_impl; [exact IH|]. intros x' y' [? ?]. split; [done|by right].
Qed.

Lemma click_settled s pend n :
  settled_but s pend →
  (∀ c, created (ui s) !! n = Some c → ¬ busy s (cb_sensor c)) →
  ∃ pend', settled_but (click n s) pend'.
Proof.
  intros (Ho & Hf & Hnd & Hrest) Hfree. unfold click.
  destruct (created (ui s) !! n) as [c|] eqn:Hc; [|by exists pend].
  case_bool_decide as Hin; [|by exists pend].
  assert (n < length (created (ui s)))%nat as Hlt by (by eapply lookup_lt_Some).
  assert (n ∉ pend) as Hfresh.
  { intros Hp. apply (Hfree c eq_refl). by apply (pending_busy s pend n c). }
  erewrite on_change_awaits by (cbn; by apply list_lookup_insert_eq).
  cbn [carry_on cb_checked]. exists (pend ++ [n])%list.
  pose proof Hin as (r0 & Hr0 & Hin0)%list_elem_of_fmap.
  assert (persisted s !! cb_sensor c = Some (cb_checked c)) as Hp.
  { apply (Hrest r0 c); [done|by rewrite <- Hr0|by rewrite <- Hr0]. }
  split; [|split; [|split]]; cbn [ui under_way persisted].
  - by apply (one_checkbox_flip (ui s) _ n c).
  - apply Forall2_app.
    + eapply Forall2_impl; [exact (Forall2_elem_r _ _ _ Hf)|].
      intros wt n' [(c' & Hc' & Hin' & Hwt & Hp') Hn']. exists c'. cbn.
      rewrite list_lookup_insert_ne by (by intros ->). done.
    + constructor; [|constructor]. exists (flipped c). cbn.
      split; [by apply list_lookup_insert_eq|]. split; [done|]. split; [done|].
      by rewrite negb_involutive.
  - apply NoDup_app. split; [done|]. split; [|apply NoDup_singleton].
    intros x Hx ->%list_elem_of_singleton. done.
  - intros r c' Hr Hc' Hnot. cbn in Hr, Hc'.
    apply not_elem_of_app in Hnot as [Hnot Hne%not_elem_of_cons].
    rewrite list_lookup_insert_ne in Hc' by (by destruct Hne).
    by apply (Hrest r c').
Qed.

Lemma settle_settled s pend i a :
  settled_but s pend → ∃ pend', settled_but (settle i a s) pend'.
Proof.
  intros (Ho & Hf & Hnd & Hrest). unfold settle.
  destruct (under_way s !! i) as [wt|] eqn:Hi; [|by exists pend].
  destruct (Forall2_lookup_l _ _ _ _ _ Hf Hi) as (n & Hn & (c & Hc & Hin & -> & Hp)).
  pose proof (delete_Permutation _ _ _ Hn) as Hperm.
  assert ((n ∉ delete i pend) ∧ NoDup (delete i pend)) as [Hgone Hnd'].
  { rewrite Hperm in Hnd. by apply NoDup_cons in Hnd. }
  assert (∀ x, x ∈ pend → x = n ∨ x ∈ delete i pend) as Hsplit.
  { intros x Hx. rewrite Hperm in Hx. by apply elem_of_cons in Hx. }
  pose proof (Forall2_elem_r _ _ _ (Forall2_delete _ _ _ i Hf)) as Hf'.
  pose proof Hin as (r0 & Hr0 & Hin0)%list_elem_of_fmap.
  assert (∀ r c', r ∈ rows (ui s) → created (ui s) !! row_checkbox r = Some c' →
                  row_checkbox r ≠ n → cb_sensor c' ≠ cb_sensor c) as Hother.
  { intros r c' Hr Hc' Hne Hs. apply Hne. rewrite Hr0.
    apply (Ho r r0 c' c); try done. by rewrite <- Hr0. }
  exists (delete i pend). cbn [answer].
  destruct (on_toggle_sensor a) as [e|[]].
  - rewrite (resume_rejected n e (ui s) c Hc). cbn [carry_on uncaught ui under_way persisted].
    split; [|split; [|split]]; cbn [ui under_way persisted].
    + by apply (one_checkbox_flip (ui s) _ n c).
    + eapply Forall2_impl; [exact Hf'|].
      intros wt n' [(c' & Hc' & Hin' & Hwt & Hp') Hn']. exists c'. cbn.
      rewrite list_lookup_insert_ne by (by intros ->). done.
    + done.
    + intros r c' Hr Hc' Hnot. cbn in Hr, Hc'.
      destruct (flip_lookup _ _ _ _ _ Hc Hc') as (c0 & Hc0 & Hs & Hne & Heq).
      destruct (decide (row_checkbox r = n)) as [E|E].
      * destruct (Heq E) as [-> ->]. by cbn.
      * rewrite <- (Hne E). apply (Hrest r c0); [done|done|].
        intros Hx. by destruct (Hsplit _ Hx).
  - rewrite resume_accepted. cbn [carry_on uncaught ui under_way persisted persist].
    split; [|split; [|split]]; cbn [ui under_way persisted].
    + done.
    + eapply Forall2_impl; [exact Hf'|].
      intros wt n' [(c' & Hc' & Hin' & Hwt & Hp') Hn']. exists c'.
      cbn [ui persisted]. split; [done|]. split; [done|]. split; [done|].
      rewrite lookup_insert_ne; [done|].
      apply list_elem_of_fmap in Hin' as (r' & Hr' & Hin').
      intros Hs. apply (Hother r' c'); [done|by rewrite <- Hr'| |done].
      rewrite <- Hr'. by intros ->.
    + done.
    + intros r c' Hr Hc' Hnot.
      destruct (decide (row_checkbox r = n)) as [E|E].
      * rewrite E, Hc in Hc'. injection Hc' as <-. by rewrite lookup_insert_eq.
      * rewrite lookup_insert_ne by (intros Hs; by apply (Hother r c')).
        apply (Hrest r c'); [done|done|]. intros Hx. by destruct (Hsplit _ Hx).
Qed.

Lemma plays_settled ms : ∀ s pend,
  settled_but s pend → spaced s ms → ∃ pend', settled_but (plays s ms) pend'.
Proof.
  induction ms as [|m ms IH]; intros s pend Hs Hsp; [by exists pend|].
  destruct Hsp as [Hm Hsp]. cbn [plays fold_left].
  destruct m as [n|i a]; cbn [play] in *.
  - destruct (click_settled s pend n Hs Hm) as (pend' & Hs'). by apply (IH _ pend').
  - destruct (settle_settled s pend i a Hs) as (pend' & Hs'). by apply (IH _ pend').
Qed.

Lemma settled_in_sync s pend : settled_but s pend → under_way s = [] → in_sync s.
Proof.
  intros (_ & Hf & _ & Hrest) Hu. rewrite Hu in Hf. apply Forall2_nil_inv_l in Hf as ->.
  intros sensorId enabled (r & c & Hr & Hc & <- & <-)%displayed_elem.
  apply (Hrest r c Hr Hc). apply not_elem_of_nil.
Qed.

Lemma in_sync_settled s :
  under_way s = [] → in_sync s → one_checkbox_per_sensor (ui s) → settled_but s [].
Proof.
  intros Hu Hs Ho. split; [done|]. split; [by rewrite Hu|]. split; [constructor|].
  intros r c Hr Hc _. apply Hs, displayed_elem. by exists r, c.
Qed.

(** X23.  Changes of different sensors may overlap and their commands may
    be answered in any order, each accepted or rejected: as long as no check
    box is clicked while a command for its sensor is under way, whenever no
    command is under way the displayed enablement of every sensor is the
    persisted one.  (Start as right after [populateSensorList]: nothing
    under way, the display matching what is persisted, one check box per
    sensor.) *)
Theorem spaced_toggles_stay_in_sync s ms :
  under_way s = [] → in_sync s → one_checkbox_per_sensor (ui s) →
  spaced s ms →
  under_way (plays s ms) = [] → in_sync (plays s ms).
Proof.
  intros Hu Hs Ho Hsp Hrest.
  destruct (plays_settled ms s [] (in_sync_settled s Hu Hs Ho) Hsp) as (pend & Hp).
  by apply (settled_in_sync _ pend).
Qed.

Lemma spaced_toggles_stay_in_sync_witness :
  let ms := [ Click 0; Click 1;
              Settle 1 (failing_toggle "disk full");
              Settle 0 (answering registered_settings two_sensors) ] in
  displayed (ui (plays panel ms)) = [("cpu_usage", false); ("os_version", false)] ∧
  in_sync (plays panel ms).
Proof.
  intros ms. split; [by vm_compute|].
  apply (spaced_toggles_stay_in_sync panel ms).
  - reflexivity.
  - exact panel_in_sync.
  - exact panel_one_checkbox_per_sensor.
  - split; [|split; [|done]].
    + intros c _ (wt & enabled & Hwt & _). vm_compute in Hwt. by apply elem_of_nil in Hwt.
    + intros c Hc (wt & enabled & Hwt & Hcmd). vm_compute in Hc. injection Hc as <-.
      vm_compute in Hwt. apply list_elem_of_singleton in Hwt as ->. discriminate Hcmd.
  - by vm_compute.
Defined.

(** ** main.js with the child webview *)

Ltac no_invocation H :=
  cbn in H;
  repeat (match type of H with
          | context [match ?x with _ => _ end] => destruct x eqn:?
          end; cbn in H);
  by apply invokes_Done in H.

(** X24.  In the version that leaves the dashboard to the backend,
    [handleSetup] asks for the dashboard only after [save_settings] and
    [register_device] were both accepted: a rejection of either ends it
    with no further command.  It never touches an embedded view itself.
    And it hides the set-up screen before it asks: when [load_dashboard] is
    then rejected, the rejection is put into the form of the set-up screen,
    which stays hidden. *)
Theorem webview_handleSetup a w url tok error loading screen :
  document w !! "setup-server-url" = Some url →
  document w !! "setup-token" = Some tok →
  document w !! "setup-error" = Some error →
  document w !! "setup-loading" = Some loading →
  document w !! "setup-screen" = Some screen →
  let w' := (complete a (ChildWebview.handleSetup w)).2 in
  (∃ args k w1,
     ChildWebview.handleSetup w = Await (save_settings args) k w1 ∧
     (∀ e w2 c, ¬ invokes (k (inl e) w2) c) ∧
     ∀ w2, ∃ k' w3,
       k (inr tt) w2 = Await register_device k' w3 ∧
       ∀ e w4 c, ¬ invokes (k' (inl e) w4) c) ∧
  trace w' = trace w ∧ listener w' = listener w ∧ localStorage w' = localStorage w ∧
  (on_save_settings a = inr tt → on_register_device a = inr tt →
     setup_screen_hidden w' ∧
     ∀ e, on_load_dashboard a = inl e → setup_error_shown w' (exn_to_string e)).
Proof.
  intros H1 H2 H3 H4 H5 w'. subst w'.
  split; [|split; [|split; [|split]]].
  - unfold ChildWebview.handleSetup. js_run. eexists _, _, _. split; [reflexivity|].
    split.
    + intros e w2 c H. no_invocation H.
    + intros w2. eexists _, _. split; [reflexivity|].
      intros e w4 c H. no_invocation H.
  - unfold ChildWebview.handleSetup. js_run.
    destruct (on_save_settings a) as [e|[]]; js_run; [done|].
    destruct (on_register_device a) as [e|[]]; js_run; [done|].
    destruct (on_load_dashboard a) as [e|[]]; js_run; done.
  - unfold ChildWebview.handleSetup, listener. js_run.
    destruct (on_save_settings a) as [e|[]]; js_run; [done|].
    destruct (on_register_device a) as [e|[]]; js_run; [done|].
    destruct (on_load_dashboard a) as [e|[]]; js_run; done.
  - unfold ChildWebview.handleSetup. js_run.
    destruct (on_save_settings a) as [e|[]]; js_run; [done|].
    destruct (on_register_device a) as [e|[]]; js_run; [done|].
    destruct (on_load_dashboard a) as [e|[]]; js_run; done.
  - intros Hs Hr. unfold ChildWebview.handleSetup, setup_screen_hidden, setup_error_shown.
    js_run. destruct (on_load_dashboard a) as [e|[]] eqn:Hd; js_run.
    + split; [eexists; split; [done|apply elem_of_add_token]|].
      intros e' [= <-]. eexists. split; [done|]. split; [done|].
      apply not_elem_of_remove_token.
    + split; [eexists; split; [done|apply elem_of_add_token]|]. done.
Qed.

Lemma webview_handleSetup_witness :
  let a := failing_dashboard empty_settings "no display" in
  let w := typed "setup-token" "abc" (typed "setup-server-url" "http://ha.local:8123" fresh) in
  let w' := (complete a (ChildWebview.handleSetup w)).2 in
  setup_screen_hidden w' ∧ setup_error_shown w' "no display".
Proof.
  intros a w w'.
  destruct (webview_handleSetup a w (with_value "http://ha.local:8123" (input "url"))
              (with_value "abc" (input "password"))
              (hidden (tag "DIV")) (hidden (tag "DIV")) (hidden (tag "DIV")))
    as (_ & _ & _ & _ & H); [reflexivity..|].
  destruct (H eq_refl eq_refl) as (Hh & He).
  split; [exact Hh|]. exact (He (Rejection "no display") eq_refl).
Defined.

(** X25.  In the version that leaves the dashboard to the backend,
    [initApp] asks for the dashboard exactly when the settings hold a
    server URL and a token and the device is registered, the set-up screen
    being hidden first; otherwise it shows the set-up screen and invokes
    nothing more.  When [load_dashboard] is rejected, the rejection is
    logged and the set-up screen is shown again. *)
Theorem webview_start a s w screen :
  document w !! "setup-screen" = Some screen →
  Js.or_else (language s) "en" ∉ inherited →
  ∃ k,
    ChildWebview.initApp w = Await get_settings k w ∧
    (server_url s ≠ "" → access_token s ≠ "" → is_registered s = true →
       ∃ k' w1,
         k (inr s) w = Await load_dashboard k' w1 ∧
         setup_screen_hidden w1 ∧
         (∀ e, console (complete a (k' (inl e) w1)).2 =
                 (console w1 ++ [mkEntry Error "Failed to initialize app:" (Some e)])%list ∧
               setup_screen_shown (complete a (k' (inl e) w1)).2)) ∧
    (server_url s = "" ∨ access_token s = "" ∨ is_registered s = false →
       (∀ c, ¬ invokes (k (inr s) w) c) ∧
       (is_Some (document w !! "setup-server-url") →
        is_Some (document w !! "setup-token") →
        setup_screen_shown (complete a (k (inr s) w)).2)).
Proof.
  intros Hs _. unfold ChildWebview.initApp. cbn -[setLanguage].
  eexists. split; [reflexivity|]. cbn -[setLanguage].
  destruct (setLanguage_runs (Js.or_else (language s) "en") w) as (cur & extra & ->).
  cbn. split.
  - intros Hu%truthy_true Ht%truthy_true Hr. rewrite Hu, Ht, Hr. js_run.
    eexists _, _. split; [reflexivity|]. unfold setup_screen_hidden, setup_screen_shown.
    js_run. split; [eexists; split; [done|apply elem_of_add_token]|].
    intros e. js_run. split; [done|].
    eexists. split; [done|]. apply not_elem_of_remove_token.
  - intros Hcase. unfold setup_screen_shown.
    destruct (Js.truthy (server_url s)) eqn:Hu; [destruct (Js.truthy (access_token s)) eqn:Ht|];
      cbn [negb orb]; [destruct (is_registered s) eqn:Hr|..]; cbn [negb].
    + apply truthy_true in Hu, Ht. by destruct Hcase as [?|[?|?]].
    + split; [intros c H; no_invocation H|].
      intros [eu Heu] [et Het]. js_run.
      eexists. split; [done|]. apply not_elem_of_remove_token.
    + split; [intros c H; no_invocation H|].
      intros _ _. js_run. eexists. split; [done|]. apply not_elem_of_remove_token.
    + split; [intros c H; no_invocation H|].
      intros _ _. js_run. eexists. split; [done|]. apply not_elem_of_remove_token.
Qed.

Lemma webview_start_witness :
  ∃ k k' w1,
    ChildWebview.initApp fresh = Await get_settings k fresh ∧
    k (inr registered_settings) fresh = Await load_dashboard k' w1 ∧
    setup_screen_hidden w1.
Proof.
  destruct (webview_start (answering registered_settings []) registered_settings fresh
              (hidden (tag "DIV")) eq_refl) as (k & Hk & Hreg & _); [not_among|].
  destruct (Hreg ltac:(done) ltac:(done) eq_refl) as (k' & w1 & Hk' & Hh & _).
  exists k, k', w1. split; [exact Hk|]. split; [exact Hk'|exact Hh].
Defined.
